(** * car-specs: the specification exporter ([export_spec_info.py])

    A shallow embedding of [SpecExporter] and the properties of its
    translation cache, retry loop and catalog traversal.

    Conventions of the embedding.
    - A Python [str] is a Rocq [string] holding its UTF-8 bytes.  The
      delimiter '款' is one code point, three bytes; searching for it as a
      byte substring finds exactly its occurrences as a character.
    - A Python [dict] whose iteration order matters (the parsed catalog)
      is an association list in document order; the two dictionaries that
      are only looked up and updated by key ([self.cache],
      [self.spec_data_cache]) are [gmap]s.
    - A Python [int] is a [Z].
    - Everything the exporter obtains from outside (translation service,
      [time.sleep], files) is a field of the record [world]; everything it
      changes is a field of the record [state].
    - A method is a function [state -> outcome A * state]: it returns
      normally ([Ok]) or raises ([Raise]), and the state it leaves behind
      is kept in both cases.
    - [self.cache] maps strings to strings, as does the file the exporter
      itself writes; [__init__] is taken to succeed in creating the cache
      directory.
    - The file system answers the same way each time it is asked about
      the same catalog, image directory or page.  A write of the cache
      file is different: each one succeeds or fails on its own, and one
      that fails leaves the file as it was, when it could not be opened,
      or cut short.
    - [print] and the text of the HTML templates are not modelled: a
      written page is recorded as the values the template is filled
      with. *)

From Stdlib Require Import ZArith Ascii String List.
From stdpp Require Import base option list strings gmap pretty.

Set Warnings "-register-all".
Local Open Scope string_scope.
Local Open Scope list_scope.
Local Open Scope Z_scope.

(** ** Python values and exceptions *)

(** What [json.load] can return.  A float is kept as the text Python
    prints for it, which is all the exporter ever does with one. *)
Inductive json : Type :=
  | JNull
  | JBool (b : bool)
  | JInt (z : Z)
  | JFloat (shown : string)
  | JStr (s : string)
  | JArr (items : list json)
  | JObj (members : list (string * json)).

(** The exception classes that occur; all derive from [Exception], so a
    bare [except Exception] catches each of them. *)
Inductive exn : Type :=
  | AttributeError
  | UnboundLocalError
  | ValueError
  | OSError
  | JSONDecodeError
  | ServiceError (what : string).

Inductive outcome (A : Type) : Type :=
  | Ok (a : A)
  | Raise (e : exn).
Arguments Ok {A} a.
Arguments Raise {A} e.

Definition is_Ok {A} (o : outcome A) : Prop := exists a, o = Ok a.

(** ** String operations used by the exporter *)

Module Str.

(** [strip_prefix p s]: [Some r] when [s = p ++ r]. *)
Fixpoint strip_prefix (p s : string) : option string :=
  match p with
  | EmptyString => Some s
  | String a p' =>
      match s with
      | EmptyString => None
      | String b s' => if Ascii.eqb a b then strip_prefix p' s' else None
      end
  end.

(** [find sep s]: the text before and after the first occurrence of
    [sep] in [s] (Python's [s.partition(sep)] when [sep] occurs). *)
Fixpoint find (sep s : string) {struct s} : option (string * string) :=
  match strip_prefix sep s with
  | Some rest => Some (EmptyString, rest)
  | None =>
      match s with
      | EmptyString => None
      | String c s' =>
          match find sep s' with
          | Some (before, after) => Some (String c before, after)
          | None => None
          end
      end
  end.

(** [sep in s] *)
Definition contains (sep s : string) : bool :=
  match find sep s with Some _ => true | None => false end.

(** [s.split(sep)[0]] for a non-empty [sep] *)
Definition split_head (sep s : string) : string :=
  match find sep s with Some (before, _) => before | None => s end.

(** [s.split(sep, 1)]: one or two pieces *)
Definition split_once (sep s : string) : list string :=
  match find sep s with
  | Some (before, after) => [before; after]
  | None => [s]
  end.

(** [sep] occurs in [s] as a substring. *)
Definition occurs (sep s : string) : Prop :=
  exists before after, s = before +:+ sep +:+ after.

End Str.

(** ** Dictionaries read from the catalog *)

Module Dict.

(** [d[k]] / [k in d] / [d.get(k)] on a dictionary in document order.
    A parsed object holds each key once (of a key the document repeats,
    [json.load] keeps the position of the first and the value of the
    last). *)
Fixpoint lookup (k : string) (d : list (string * json)) : option json :=
  match d with
  | [] => None
  | (k', v) :: d' => if String.eqb k k' then Some v else lookup k d'
  end.

Definition get (k : string) (default : json) (d : list (string * json)) : json :=
  match lookup k d with Some v => v | None => default end.

End Dict.

(** [v.items()]: only a dict has the method. *)
Definition items (v : json) : outcome (list (string * json)) :=
  match v with
  | JObj d => Ok d
  | _ => Raise AttributeError
  end.

(** ** The outside world and the exporter's state *)

(** [FlatSpec], the dictionary [load_spec_data] builds.  The key
    ['paramValues'] is present only when the model has ['config_data']. *)
Record spec_data : Type := SpecData {
  specId : json;
  specName : string;
  brandName : string;
  seriesName : string;
  manufacturerName : json;
  yearType : string;
  price : json;
  paramValues : option (list (string * string));
}.

(** An entry of the list handed to [export_index_html]. *)
Record summary : Type := Summary {
  sum_specId : string;
  sum_specName : string;
  sum_brandName : string;
  sum_seriesName : string;
}.

(** A value returned by [translate_text]: a [str], or [None]. *)
Definition pystr : Type := option string.

(** A written specification page: what the template is filled with. *)
Record page : Type := Page {
  page_spec : spec_data;
  page_images : list string;
  page_tables : list (pystr * list (pystr * pystr));
}.

(** What an attempt to write the cache file does to it. *)
Inductive written : Type :=
  | Dumped      (** the file holds the whole dump *)
  | Unopened    (** [open] raised: the file is as it was *)
  | Cut (rest : outcome (gmap string string)).
                (** [json.dump] raised: the file holds what was written
                    of the text, and reading it back gives [rest] *)

Record world : Type := World {
  (** [self.translator.translate(text, dest=lang).text] on the n-th call
      the exporter makes (n counts from 0) *)
  provider : nat -> string -> string -> outcome string;
  (** whether [time.sleep(d)] returns rather than raises *)
  sleep_ok : Z -> bool;
  (** [open(self.data_path)] followed by [json.load] *)
  catalog_file : outcome json;
  (** the cache file at start-up: absent, or what reading it gives *)
  cache_file : option (outcome (gmap string string));
  (** [str(v)] of a list or a dict *)
  repr_container : json -> string;
  (** creating and listing the image directory of a spec, sorted *)
  list_images : string -> outcome (list string);
  (** writing the page of a spec / the index page *)
  write_page : string -> outcome unit;
  write_index : outcome unit;
  (** the n-th write of the cache file the exporter attempts (n counts
      from 0) *)
  write_cache : nat -> written;
}.

Record state : Type := State {
  (** [self.cache] *)
  cache : gmap string string;
  (** [self.spec_data_cache] *)
  spec_data_cache : gmap string spec_data;
  (** the calls made to the translation service, oldest first *)
  calls : list (string * string);
  (** the delays slept, oldest first *)
  sleeps : list Z;
  (** the dictionaries [_save_cache] has dumped to the cache file *)
  saves : list (gmap string string);
  (** the dictionaries whose dump failed, oldest first *)
  failed_saves : list (gmap string string);
  (** the cache file: absent, or what reading it gives *)
  disk : option (outcome (gmap string string));
  (** the calls of [export_spec_info], oldest first *)
  exports : list string;
  (** the specification pages written, oldest first *)
  pages : list (string * page);
  (** the index pages written, oldest first *)
  indexes : list (list summary);
}.

(** ** State and exception monad *)

Definition M (A : Type) : Type := state -> outcome A * state.

Definition ret {A} (a : A) : M A := fun st => (Ok a, st).

Definition raise {A} (e : exn) : M A := fun st => (Raise e, st).

Definition bind {A B} (m : M A) (k : A -> M B) : M B :=
  fun st =>
    match m st with
    | (Ok a, st') => k a st'
    | (Raise e, st') => (Raise e, st')
    end.

(** [try: m  except Exception as e: ...], the handler receiving the
    outcome *)
Definition try_except {A} (m : M A) : M (outcome A) :=
  fun st => let '(o, st') := m st in (Ok o, st').

Definition lift {A} (o : outcome A) : M A := fun st => (o, st).

Definition gets {A} (f : state -> A) : M A := fun st => (Ok (f st), st).

Definition modify (f : state -> state) : M unit := fun st => (Ok tt, f st).

Declare Scope py_scope.
Delimit Scope py_scope with py.
Notation "x <- m ;; k" := (bind m (fun x => k))
  (at level 100, m at next level, right associativity) : py_scope.
Notation "m ;;; k" := (bind m (fun _ => k))
  (at level 100, right associativity) : py_scope.
Local Open Scope py_scope.

Definition set_cache (c : gmap string string) (st : state) : state :=
  State c (spec_data_cache st) (calls st) (sleeps st) (saves st)
        (failed_saves st) (disk st) (exports st) (pages st) (indexes st).
Definition set_spec_data_cache (m : gmap string spec_data) (st : state) : state :=
  State (cache st) m (calls st) (sleeps st) (saves st)
        (failed_saves st) (disk st) (exports st) (pages st) (indexes st).
Definition set_calls (l : list (string * string)) (st : state) : state :=
  State (cache st) (spec_data_cache st) l (sleeps st) (saves st)
        (failed_saves st) (disk st) (exports st) (pages st) (indexes st).
Definition set_sleeps (l : list Z) (st : state) : state :=
  State (cache st) (spec_data_cache st) (calls st) l (saves st)
        (failed_saves st) (disk st) (exports st) (pages st) (indexes st).
Definition set_saves (l : list (gmap string string)) (st : state) : state :=
  State (cache st) (spec_data_cache st) (calls st) (sleeps st) l
        (failed_saves st) (disk st) (exports st) (pages st) (indexes st).
Definition set_failed_saves (l : list (gmap string string)) (st : state) : state :=
  State (cache st) (spec_data_cache st) (calls st) (sleeps st) (saves st)
        l (disk st) (exports st) (pages st) (indexes st).
Definition set_disk (f : option (outcome (gmap string string))) (st : state) : state :=
  State (cache st) (spec_data_cache st) (calls st) (sleeps st) (saves st)
        (failed_saves st) f (exports st) (pages st) (indexes st).
Definition set_exports (l : list string) (st : state) : state :=
  State (cache st) (spec_data_cache st) (calls st) (sleeps st) (saves st)
        (failed_saves st) (disk st) l (pages st) (indexes st).
Definition set_pages (l : list (string * page)) (st : state) : state :=
  State (cache st) (spec_data_cache st) (calls st) (sleeps st) (saves st)
        (failed_saves st) (disk st) (exports st) l (indexes st).
Definition set_indexes (l : list (list summary)) (st : state) : state :=
  State (cache st) (spec_data_cache st) (calls st) (sleeps st) (saves st)
        (failed_saves st) (disk st) (exports st) (pages st) l.

(** ** The exporter *)

Section Exporter.

Context (W : world).

(** [str(v)] *)
Definition py_str (v : json) : string :=
  match v with
  | JNull => "None"
  | JBool true => "True"
  | JBool false => "False"
  | JInt z => pretty z
  | JFloat shown => shown
  | JStr s => s
  | JArr _ | JObj _ => repr_container W v
  end.

(** *** [_load_cache], [__init__] and [_save_cache] *)

Definition _load_cache : gmap string string :=
  match cache_file W with
  | Some (Ok c) => c
  | Some (Raise _) => ∅
  | None => ∅
  end.

(** The state [__init__] leaves, before any method is called. *)
Definition init : state :=
  State _load_cache ∅ [] [] [] [] (cache_file W) [] [] [].

(** The body of the [try] of [_save_cache]: [open(cache_file, 'w')] and
    [json.dump(self.cache, f)].  The write is the n-th when n writes
    were attempted before it. *)
Definition write_cache_file : M unit :=
  fun st =>
    match write_cache W (length (saves st) + length (failed_saves st)) with
    | Dumped =>
        (Ok tt,
         set_disk (Some (Ok (cache st))) (set_saves (saves st ++ [cache st]) st))
    | Unopened =>
        (Raise OSError, set_failed_saves (failed_saves st ++ [cache st]) st)
    | Cut rest =>
        (Raise OSError,
         set_disk (Some rest)
           (set_failed_saves (failed_saves st ++ [cache st]) st))
    end.

(** A failure of the write is caught and printed inside [_save_cache],
    so none escapes. *)
Definition _save_cache : M unit :=
  r <- try_except write_cache_file ;;
  match r with
  | Ok _ => ret tt
  | Raise _ => ret tt
  end.

(** *** [load_spec_data] *)

Definition delimiter : string := "款".
Definition not_applicable : string := "N/A".

(** [model_name.split('款')[0] if '款' in model_name else 'N/A'] *)
Definition year_type (model_name : string) : string :=
  if Str.contains delimiter model_name
  then Str.split_head delimiter model_name
  else not_applicable.

(** [for x in l: body], where the body either goes on to the next
    element ([Ok None]), returns from the function ([Ok (Some r)]) or
    raises. *)
Fixpoint for_return {A R} (body : A -> outcome (option R)) (l : list A)
  : outcome (option R) :=
  match l with
  | [] => Ok None
  | x :: l' =>
      match body x with
      | Ok None => for_return body l'
      | Ok (Some r) => Ok (Some r)
      | Raise e => Raise e
      end
  end.

(** [for x in l: acc = body(acc, x)], stopping at the first raise *)
Fixpoint for_collect {A B} (body : B -> A -> outcome B) (l : list A) (acc : B)
  : outcome B :=
  match l with
  | [] => Ok acc
  | x :: l' =>
      match body acc x with
      | Ok acc' => for_collect body l' acc'
      | Raise e => Raise e
      end
  end.

(** The two loops that fill [param_values]. *)
Definition flatten_params (category : string) (acc : list (string * string))
    (params : json) : outcome (list (string * string)) :=
  match items params with
  | Ok ps =>
      for_collect
        (fun acc '(param_name, param_value) =>
           Ok (acc ++ [(category +:+ "-" +:+ param_name, py_str param_value)]))
        ps acc
  | Raise e => Raise e
  end.

Definition flatten_config (config_data : json) : outcome (list (string * string)) :=
  match items config_data with
  | Ok cats =>
      for_collect (fun acc '(category, params) => flatten_params category acc params)
        cats []
  | Raise e => Raise e
  end.

(** The dictionary built for a matching model. *)
Definition make_spec_data (brand_name : string) (brand_data : list (string * json))
    (series_name model_name : string) (model_data : list (string * json))
  : outcome spec_data :=
  let spec := SpecData
    (Dict.get "spec_id" JNull model_data)
    model_name
    brand_name
    series_name
    (Dict.get "manufacturer_name" (JStr not_applicable) brand_data)
    (year_type model_name)
    (Dict.get "price" (JStr not_applicable) model_data) in
  match Dict.lookup "config_data" model_data with
  | Some config_data =>
      match flatten_config config_data with
      | Ok param_values => Ok (spec (Some param_values))
      | Raise e => Raise e
      end
  | None => Ok (spec None)
  end.

Definition scan_models (spec_id brand_name : string) (brand_data : list (string * json))
    (series_name : string) (models : list (string * json))
  : outcome (option spec_data) :=
  for_return
    (fun '(model_name, model_data) =>
       match model_data with
       | JObj model_data =>
           if String.eqb (py_str (Dict.get "spec_id" JNull model_data)) spec_id
           then
             match make_spec_data brand_name brand_data series_name
                     model_name model_data with
             | Ok spec => Ok (Some spec)
             | Raise e => Raise e
             end
           else Ok None
       | _ => Ok None
       end)
    models.

Definition scan_series (spec_id brand_name : string) (brand_data : list (string * json))
    (series : list (string * json)) : outcome (option spec_data) :=
  for_return
    (fun '(series_name, series_data) =>
       match series_data with
       | JObj series_data =>
           match Dict.lookup "models" series_data with
           | Some models =>
               match items models with
               | Ok models =>
                   scan_models spec_id brand_name brand_data series_name models
               | Raise e => Raise e
               end
           | None => Ok None
           end
       | _ => Ok None
       end)
    series.

Definition scan_brands (spec_id : string) (brands : list (string * json))
  : outcome (option spec_data) :=
  for_return
    (fun '(brand_name, brand_data) =>
       match brand_data with
       | JObj brand_data =>
           match Dict.lookup "series" brand_data with
           | Some series =>
               match items series with
               | Ok series => scan_series spec_id brand_name brand_data series
               | Raise e => Raise e
               end
           | None => Ok None
           end
       | _ => Ok None
       end)
    brands.

(** The body of the [try] of [load_spec_data]: read the document, walk
    it, memoize and return the first match. *)
Definition load_spec_data_body (spec_id : string) : M (option spec_data) :=
  data <- lift (catalog_file W) ;;
  brands <- lift (items data) ;;
  found <- lift (scan_brands spec_id brands) ;;
  match found with
  | Some spec =>
      modify (fun st =>
        set_spec_data_cache (<[spec_id := spec]> (spec_data_cache st)) st) ;;;
      ret (Some spec)
  | None => ret None
  end.

Definition load_spec_data (spec_id : string) : M (option spec_data) :=
  memo <- gets spec_data_cache ;;
  match memo !! spec_id with
  | Some spec => ret (Some spec)
  | None =>
      r <- try_except (load_spec_data_body spec_id) ;;
      match r with
      | Ok result => ret result
      | Raise _ => ret None
      end
  end.

(** *** [translate_text] and [batch_translate] *)

(** [range(n)] *)
Definition range (n : Z) : list Z := seqZ 0 n.

(** [time.sleep(d)]: raises when the delay is refused. *)
Definition sleep (d : Z) : M unit :=
  fun st =>
    if sleep_ok W d then (Ok tt, set_sleeps (sleeps st ++ [d]) st)
    else (Raise ValueError, st).

(** One call of the translation service, answering with [result.text]. *)
Definition call_provider (text dest_lang : string) : M string :=
  fun st =>
    (provider W (length (calls st)) text dest_lang,
     set_calls (calls st ++ [(text, dest_lang)]) st).

(** The body of the [try] inside the retry loop. *)
Definition attempt_body (text dest_lang cache_key : string)
    (retry_delay attempt : Z) : M string :=
  (if 0 <? attempt then sleep retry_delay else ret tt) ;;;
  translated <- call_provider text dest_lang ;;
  modify (fun st => set_cache (<[cache_key := translated]> (cache st)) st) ;;;
  _save_cache ;;;
  ret translated.

(** [for attempt in range(max_retries)]; leaving the loop without a
    [return] makes the function return [None]. *)
Fixpoint retry_loop (text dest_lang cache_key : string)
    (max_retries retry_delay : Z) (attempts : list Z) : M pystr :=
  match attempts with
  | [] => ret None
  | attempt :: rest =>
      r <- try_except (attempt_body text dest_lang cache_key retry_delay attempt) ;;
      match r with
      | Ok translated => ret (Some translated)
      | Raise _ =>
          if attempt =? max_retries - 1 then ret (Some text)
          else retry_loop text dest_lang cache_key max_retries retry_delay rest
      end
  end.

(** [f"{text}_{dest_lang}"] *)
Definition cache_key (text dest_lang : string) : string :=
  text +:+ "_" +:+ dest_lang.

Definition translate_text (text dest_lang : string)
    (max_retries retry_delay : Z) : M pystr :=
  if String.eqb text "" || String.eqb text not_applicable then ret (Some text)
  else
    c <- gets cache ;;
    match c !! cache_key text dest_lang with
    | Some cached => ret (Some cached)
    | None =>
        retry_loop text dest_lang (cache_key text dest_lang)
          max_retries retry_delay (range max_retries)
    end.

(** The defaults of [max_retries] and [retry_delay]. *)
Definition default_max_retries : Z := 3.
Definition default_retry_delay : Z := 1.

(** [self.translate_text(text, dest_lang)], as every caller writes it *)
Definition translate_text_default (text dest_lang : string) : M pystr :=
  translate_text text dest_lang default_max_retries default_retry_delay.

(** [[f(x) for x in l]] *)
Fixpoint for_list {A B} (f : A -> M B) (l : list A) : M (list B) :=
  match l with
  | [] => ret []
  | x :: l' =>
      y <- f x ;;
      ys <- for_list f l' ;;
      ret (y :: ys)
  end.

Definition batch_translate (texts : list string) (dest_lang : string)
  : M (list pystr) :=
  for_list (fun text => translate_text_default text dest_lang) texts.

(** *** [export_spec_info] *)

(** [polish_info]: category to rows, in insertion order. *)
Definition table : Type := list (string * list (pystr * pystr)).

Fixpoint table_mem (k : string) (t : table) : bool :=
  match t with
  | [] => false
  | (k', _) :: t' => String.eqb k k' || table_mem k t'
  end.

(** [t[k].append(row)]; the key is present whenever this is used. *)
Fixpoint table_append (k : string) (row : pystr * pystr) (t : table) : table :=
  match t with
  | [] => []
  | (k', rows) :: t' =>
      if String.eqb k k' then (k', rows ++ [row]) :: t'
      else (k', rows) :: table_append k row t'
  end.

Definition basic_info : string := "基本信息".

Definition base_items : list string :=
  ["车型名称"; "品牌"; "厂商"; "车系"; "年款"; "价格(万)"; "车型ID"].

Definition base_values (spec : spec_data) : list json :=
  [JStr (specName spec); JStr (brandName spec); manufacturerName spec;
   JStr (seriesName spec); JStr (yearType spec); price spec; specId spec].

(** [for x in l: acc = body(acc, x)] with effects *)
Fixpoint for_each {A B} (body : B -> A -> M B) (l : list A) (acc : B) : M B :=
  match l with
  | [] => ret acc
  | x :: l' => acc' <- body acc x ;; for_each body l' acc'
  end.

(** The body of the [try] of [export_spec_info]. *)
Definition translate_spec (spec : spec_data) : M table :=
  items_pl <- batch_translate base_items "pl" ;;
  values_pl <- batch_translate (map py_str (base_values spec)) "pl" ;;
  let polish_info : table := [(basic_info, zip items_pl values_pl)] in
  match paramValues spec with
  | Some params =>
      for_each
        (fun (polish_info : table) '(name, value) =>
           match Str.split_once "-" name with
           | [param_type; param_name] =>
               let polish_info :=
                 if table_mem param_type polish_info then polish_info
                 else polish_info ++ [(param_type, [])] in
               name_pl <- translate_text_default param_name "pl" ;;
               value_pl <- translate_text_default value "pl" ;;
               ret (table_append param_type (name_pl, value_pl) polish_info)
           | _ => raise ValueError
           end)
        params polish_info
  | None => ret polish_info
  end.

(** The loop that builds [table_html]: one translated heading per
    category. *)
Definition render_tables (polish_info : table)
  : M (list (pystr * list (pystr * pystr))) :=
  for_list
    (fun '(category, params) =>
       category_pl <- translate_text_default category "pl" ;;
       ret (category_pl, params))
    polish_info.

Definition export_spec_info (spec_id : string) : M unit :=
  modify (fun st => set_exports (exports st ++ [spec_id]) st) ;;;
  spec_data <- load_spec_data spec_id ;;
  match spec_data with
  | None => ret tt
  | Some spec =>
      r <- try_except (translate_spec spec) ;;
      match r with
      | Raise _ => ret tt
      | Ok polish_info =>
          car_images <- lift (list_images W spec_id) ;;
          tables <- render_tables polish_info ;;
          lift (write_page W spec_id) ;;;
          modify (fun st =>
            set_pages (pages st ++ [(spec_id, Page spec car_images tables)]) st)
      end
  end.

(** *** [export_index_html] and [export_all_specs] *)

Definition export_index_html (specs : list summary) : M unit :=
  lift (write_index W) ;;;
  modify (fun st => set_indexes (indexes st ++ [specs]) st).

(** The variables [model_name], [model_data] of [export_all_specs]:
    unbound until the model loop first binds them, and keeping their
    last binding after it. *)
Definition binding : Type := option (string * json).

(** [for model_name, model_data in models: if not isinstance(...):
    continue] -- the loop only rebinds its variables. *)
Definition bind_models (models : list (string * json)) (b : binding) : binding :=
  fold_left (fun _ model => Some model) models b.

(** What follows the model loop, once per series. *)
Definition export_last (brand_name series_name : string)
    (specs : list summary) (b : binding) : M (list summary) :=
  match b with
  | None => raise UnboundLocalError
  | Some (model_name, JObj model_data) =>
      let spec_id := py_str (Dict.get "spec_id" JNull model_data) in
      if String.eqb spec_id "" then ret specs
      else
        let specs := specs ++ [Summary spec_id model_name brand_name series_name] in
        export_spec_info spec_id ;;;
        ret specs
  | Some (_, _) => raise AttributeError
  end.

Definition export_series (brand_name : string) (series : list (string * json))
    (acc : list summary * binding) : M (list summary * binding) :=
  for_each
    (fun '(specs, b) '(series_name, series_data) =>
       match series_data with
       | JObj series_data =>
           match Dict.lookup "models" series_data with
           | Some models =>
               models <- lift (items models) ;;
               let b := bind_models models b in
               specs <- export_last brand_name series_name specs b ;;
               ret (specs, b)
           | None => ret (specs, b)
           end
       | _ => ret (specs, b)
       end)
    series acc.

Definition export_brands (brands : list (string * json))
    (acc : list summary * binding) : M (list summary * binding) :=
  for_each
    (fun acc '(brand_name, brand_data) =>
       match brand_data with
       | JObj brand_data =>
           match Dict.lookup "series" brand_data with
           | Some series =>
               series <- lift (items series) ;;
               export_series brand_name series acc
           | None => ret acc
           end
       | _ => ret acc
       end)
    brands acc.

(** The body of the [try] of [export_all_specs]. *)
Definition export_all_specs_body : M unit :=
  data <- lift (catalog_file W) ;;
  brands <- lift (items data) ;;
  locals <- export_brands brands ([], None) ;;
  export_index_html (fst locals).

Definition export_all_specs : M unit :=
  try_except export_all_specs_body ;;;
  ret tt.

(** [main] *)
Definition main : outcome unit * state := export_all_specs init.

End Exporter.

(** * Vocabulary of the properties *)

(** ** Relations between the state before and after a method *)

(** The fields of the state that only the export methods write. *)
Definition same_exports (st st' : state) : Prop :=
  spec_data_cache st' = spec_data_cache st /\
  exports st' = exports st /\
  pages st' = pages st /\
  indexes st' = indexes st.

(** Every key of the cache before is still there after, with its value. *)
Definition cache_grows (st st' : state) : Prop := cache st ⊆ cache st'.

(** No call of [export_spec_info] and no index page in between. *)
Definition same_log (st st' : state) : Prop :=
  exports st' = exports st /\ indexes st' = indexes st.

(** At most [n] calls of [export_spec_info] in between. *)
Definition exports_at_most (n : nat) (st st' : state) : Prop :=
  exists ids, exports st' = exports st ++ ids /\ (length ids <= n)%nat.

(** The state after [n] failed calls of the service for [text], the last
    [m] of them preceded by a sleep. *)
Definition after_failures (text dest_lang : string) (retry_delay : Z)
    (n m : nat) (st : state) : state :=
  set_calls (calls st ++ replicate n (text, dest_lang))
    (set_sleeps (sleeps st ++ replicate m retry_delay) st).

(** [keeps R m]: however [m] ends, the states before and after are
    related by [R].  [safe R m]: moreover [m] returns normally. *)
Definition keeps {A} (R : relation state) (m : M A) : Prop :=
  forall st, R st (snd (m st)).

Definition safe {A} (R : relation state) (m : M A) : Prop :=
  forall st, exists a st', m st = (Ok a, st') /\ R st st'.

(** ** The operations of the exporter *)

Inductive operation : Type :=
  | Op_save_cache
  | Op_load_spec_data (spec_id : string)
  | Op_translate_text (text dest_lang : string) (max_retries retry_delay : Z)
  | Op_batch_translate (texts : list string) (dest_lang : string)
  | Op_export_spec_info (spec_id : string)
  | Op_export_index_html (specs : list summary)
  | Op_export_all_specs.

(** The state an operation leaves, whether it returns or raises. *)
Definition perform (W : world) (op : operation) (st : state) : state :=
  match op with
  | Op_save_cache => snd (_save_cache W st)
  | Op_load_spec_data spec_id => snd (load_spec_data W spec_id st)
  | Op_translate_text text dest_lang max_retries retry_delay =>
      snd (translate_text W text dest_lang max_retries retry_delay st)
  | Op_batch_translate texts dest_lang => snd (batch_translate W texts dest_lang st)
  | Op_export_spec_info spec_id => snd (export_spec_info W spec_id st)
  | Op_export_index_html specs => snd (export_index_html W specs st)
  | Op_export_all_specs => snd (export_all_specs W st)
  end.

Definition perform_all (W : world) (ops : list operation) (st : state) : state :=
  fold_left (fun st op => perform W op st) ops st.

(** ** Catalogs of the shape the data model describes *)

(** The models of a series and the series of a brand, as the data model
    nests them. *)
Definition series_models (series_data : json) : list (string * json) :=
  match series_data with
  | JObj d => match Dict.lookup "models" d with Some (JObj ms) => ms | _ => [] end
  | _ => []
  end.

Definition brand_series (brand_data : json) : list (string * json) :=
  match brand_data with
  | JObj d => match Dict.lookup "series" d with Some (JObj ss) => ss | _ => [] end
  | _ => []
  end.

(** A model is a mapping; its configuration, when present, maps each
    category to a mapping of parameters. *)
Definition well_formed_model (model_data : json) : bool :=
  match model_data with
  | JObj d =>
      match Dict.lookup "config_data" d with
      | None => true
      | Some (JObj categories) =>
          forallb (fun c => match snd c with JObj _ => true | _ => false end)
            categories
      | Some _ => false
      end
  | _ => false
  end.

(** A series is a mapping with at least one model under ['models']. *)
Definition well_formed_series (series_data : json) : bool :=
  match series_data with
  | JObj d =>
      match Dict.lookup "models" d with
      | Some (JObj ms) =>
          match ms with [] => false | _ => forallb (fun m => well_formed_model (snd m)) ms end
      | _ => false
      end
  | _ => false
  end.

Definition well_formed_brand (brand_data : json) : bool :=
  match brand_data with
  | JObj d =>
      match Dict.lookup "series" d with
      | Some (JObj ss) => forallb (fun s => well_formed_series (snd s)) ss
      | _ => false
      end
  | _ => false
  end.

Definition well_formed_catalog (brands : list (string * json)) : bool :=
  forallb (fun b => well_formed_brand (snd b)) brands.

(** A series [export_all_specs] gets past: one it skips (not a mapping,
    or without ['models']), or one whose ['models'] is a mapping that
    ends in a model that is a mapping.  The models before the last may
    be anything. *)
Definition exportable_series (series_data : json) : bool :=
  match series_data with
  | JObj d =>
      match Dict.lookup "models" d with
      | None => true
      | Some (JObj ms) =>
          match last ms with Some (_, JObj _) => true | _ => false end
      | Some _ => false
      end
  | _ => true
  end.

(** A brand it gets past: one it skips, or one whose ['series'] is a
    mapping of such series. *)
Definition exportable_brand (brand_data : json) : bool :=
  match brand_data with
  | JObj d =>
      match Dict.lookup "series" d with
      | None => true
      | Some (JObj ss) => forallb (fun s => exportable_series (snd s)) ss
      | Some _ => false
      end
  | _ => true
  end.

Definition exportable (brands : list (string * json)) : bool :=
  forallb (fun b => exportable_brand (snd b)) brands.

(** Every series of the catalog, in document order. *)
Definition all_series (brands : list (string * json)) : list (string * json) :=
  flat_map (fun b => brand_series (snd b)) brands.

(** Every model of the catalog, in document order. *)
Definition all_models (brands : list (string * json)) : list (string * json) :=
  flat_map (fun b => flat_map (fun s => series_models (snd s)) (brand_series (snd b)))
    brands.

(** Every model that is a mapping has a configuration that can be
    flattened. *)
Definition configured_model (model_data : json) : bool :=
  match model_data with
  | JObj _ => well_formed_model model_data
  | _ => true
  end.

Definition configured (brands : list (string * json)) : bool :=
  forallb (fun m => configured_model (snd m)) (all_models brands).

(** [model] is the last entry of the ['models'] of a series of the
    catalog. *)
Definition last_of_a_series (brands : list (string * json))
    (model : string * json) : Prop :=
  exists brand series,
    brand ∈ brands /\ series ∈ brand_series (snd brand) /\
    last (series_models (snd series)) = Some model.

(** [str(model_data.get('spec_id'))] of a model *)
Definition model_spec_id (W : world) (model_data : json) : string :=
  match model_data with
  | JObj d => py_str W (Dict.get "spec_id" JNull d)
  | _ => ""
  end.

(** The summary of the last model of a series, when it has a non-empty
    id; nothing for the models before it. *)
Definition last_model_summary (W : world) (brand_name series_name : string)
    (models : list (string * json)) : list summary :=
  match last models with
  | Some (model_name, model_data) =>
      let spec_id := model_spec_id W model_data in
      if String.eqb spec_id "" then []
      else [Summary spec_id model_name brand_name series_name]
  | None => []
  end.

Definition series_summaries (W : world) (brand_name : string)
    (series : list (string * json)) : list summary :=
  flat_map (fun s => last_model_summary W brand_name (fst s) (series_models (snd s)))
    series.

Definition last_model_summaries (W : world) (brands : list (string * json))
  : list summary :=
  flat_map (fun b => series_summaries W (fst b) (brand_series (snd b))) brands.

(** The variables of the model loop of [export_all_specs] are unbound, or
    hold the last model of a series of the catalog. *)
Definition bound_to_last (brands : list (string * json))
    (b : option (string * json)) : Prop :=
  match b with
  | None => True
  | Some model => last_of_a_series brands model
  end.

(** The id of a model that is the last of a series. *)
Definition last_model_id (W : world) (brands : list (string * json))
    (spec_id : string) : Prop :=
  exists model,
    last_of_a_series brands model /\ spec_id = model_spec_id W (snd model).

(** Only ids that satisfy [P] were handed to [export_spec_info] in
    between. *)
Definition exports_only (P : string -> Prop) (st st' : state) : Prop :=
  exists ids, exports st' = exports st ++ ids /\ Forall P ids.

(** The image directories and the pages can be written. *)
Definition pages_writable (W : world) : Prop :=
  forall spec_id, is_Ok (list_images W spec_id) /\ is_Ok (write_page W spec_id).

(** ** A small catalog and three worlds around it *)

Module Sample.

Definition model (spec_id : Z) : json :=
  JObj [("spec_id", JInt spec_id); ("price", JStr "12.58");
        ("config_data",
         JObj [("基本参数", JObj [("长", JInt 4000); ("宽", JFloat "1.8")])])].

(** One brand with a series of two models and a series of one, and an
    entry that is not a mapping. *)
Definition brands : list (string * json) :=
  [("BrandA",
    JObj [("manufacturer_name", JStr "MakerA");
          ("series",
           JObj [("S1", JObj [("models",
                                JObj [("2024款 Pro", model 1); ("Pro", model 2)])]);
                 ("S2", JObj [("models", JObj [("2023款 X", model 3)])])])])].

(** The service answers every call. *)
Definition answering : world :=
  World (fun _ text _ => Ok ("pl:" +:+ text)) (fun d => 0 <=? d)
        (Ok (JObj brands)) None (fun _ => "{}")
        (fun _ => Ok []) (fun _ => Ok tt) (Ok tt) (fun _ => Dumped).

(** The service fails every call. *)
Definition failing : world :=
  World (fun _ _ _ => Raise (ServiceError "unreachable")) (fun d => 0 <=? d)
        (Ok (JObj brands)) None (fun _ => "{}")
        (fun _ => Ok []) (fun _ => Ok tt) (Ok tt) (fun _ => Dumped).

(** The catalog file is missing. *)
Definition unreadable : world :=
  World (fun _ text _ => Ok ("pl:" +:+ text)) (fun d => 0 <=? d)
        (Raise OSError) None (fun _ => "{}")
        (fun _ => Ok []) (fun _ => Ok tt) (Ok tt) (fun _ => Dumped).

(** A state in which "hello" already has a Polish translation. *)
Definition warm : state :=
  State {[ "hello_pl" := "cześć" ]} ∅ [] [] [] [] None [] [] [].

End Sample.

(** ** Further worlds and states *)

Module Scenario.

(** The service fails its first two calls and answers from the third. *)
Definition flaky : world :=
  World (fun n text _ => if (n <? 2)%nat then Raise (ServiceError "timeout")
                         else Ok ("pl:" +:+ text))
        (fun d => 0 <=? d)
        (Ok (JObj Sample.brands)) None (fun _ => "{}")
        (fun _ => Ok []) (fun _ => Ok tt) (Ok tt) (fun _ => Dumped).

(** The first write of the cache file fails after the file was opened;
    the later ones succeed. *)
Definition cut_once : world :=
  World (fun _ text _ => Ok ("pl:" +:+ text)) (fun d => 0 <=? d)
        (Ok (JObj Sample.brands)) None (fun _ => "{}")
        (fun _ => Ok []) (fun _ => Ok tt) (Ok tt)
        (fun n => match n with O => Cut (Raise JSONDecodeError) | _ => Dumped end).

(** A world around a given catalog, with an echoing service and a file
    system that works. *)
Definition around (catalog : json) : world :=
  World (fun _ text _ => Ok text) (fun d => 0 <=? d)
        (Ok catalog) None (fun _ => "{}")
        (fun _ => Ok []) (fun _ => Ok tt) (Ok tt) (fun _ => Dumped).

(** A series of two models before a series without models. *)
Definition two_then_none : list (string * json) :=
  [("BrandA",
    JObj [("series",
           JObj [("S1", JObj [("models",
                                JObj [("2024款 Pro", Sample.model 1);
                                      ("Pro", Sample.model 2)])]);
                 ("S2", JObj [("models", JObj [])])])])].

(** A series whose last entry is not a mapping, before a series of one
    model. *)
Definition note_last : list (string * json) :=
  [("BrandA",
    JObj [("series",
           JObj [("S1", JObj [("models",
                                JObj [("2024款 Pro", Sample.model 1);
                                      ("Pro", Sample.model 2);
                                      ("note", JStr "more to come")])]);
                 ("S2", JObj [("models", JObj [("2023款 X", Sample.model 3)])])])])].

(** The sample catalog on a file system that refuses to write pages. *)
Definition pages_refused : world :=
  World (fun _ text _ => Ok text) (fun d => 0 <=? d)
        (Ok (JObj Sample.brands)) None (fun _ => "{}")
        (fun _ => Ok []) (fun _ => Raise OSError) (Ok tt) (fun _ => Dumped).

(** A series of two models among entries that are not mappings, a series
    without ['models'] and a brand without ['series']. *)
Definition with_notes : list (string * json) :=
  [("note", JStr "generated");
   ("BrandA",
    JObj [("series",
           JObj [("comment", JNull);
                 ("S1", JObj [("models",
                                JObj [("draft", JStr "tbd");
                                      ("2024款 Pro", Sample.model 1);
                                      ("Pro", Sample.model 2)])]);
                 ("S0", JObj [("name", JStr "none yet")])])]);
   ("BrandB", JObj [("manufacturer_name", JStr "MakerB")])].

(** A series without models before one with a model. *)
Definition empty_first : json :=
  JObj [("BrandA",
         JObj [("series",
                JObj [("S0", JObj [("models", JObj [])]);
                      ("S1", JObj [("models", JObj [("Pro", Sample.model 2)])])])])].

(** A series without models after one with a model. *)
Definition empty_second : json :=
  JObj [("BrandA",
         JObj [("series",
                JObj [("S1", JObj [("models", JObj [("Pro", Sample.model 2)])]);
                      ("S2", JObj [("models", JObj [])])])])].

End Scenario.

(** ** Relations and invariants of the further properties *)

(** An invariant, as a relation between the states before and after. *)
Definition preserves (I : state -> Prop) : relation state :=
  fun st st' => I st -> I st'.

(** Every memoized spec before is still memoized after, unchanged. *)
Definition memo_grows (st st' : state) : Prop :=
  spec_data_cache st ⊆ spec_data_cache st'.

(** The world a new exporter finds: the cache file is what this one has
    left of it. *)
Definition restarted (W : world) (st : state) : world :=
  World (provider W) (sleep_ok W) (catalog_file W) (disk st) (repr_container W)
        (list_images W) (write_page W) (write_index W) (write_cache W).

(** The cache a new exporter would start with. *)
Definition reloaded (W : world) (st : state) : gmap string string :=
  _load_cache (restarted W st).

Definition in_sync (W : world) (st : state) : Prop := reloaded W st = cache st.

(** The writes of the cache file attempted so far. *)
Definition dump_attempts (st : state) : nat :=
  (length (saves st) + length (failed_saves st))%nat.

(** No write of the cache file was attempted, or the last one attempted
    succeeded. *)
Definition last_write_succeeded (W : world) (st : state) : Prop :=
  dump_attempts st = 0%nat \/
  write_cache W (Nat.pred (dump_attempts st)) = Dumped.

(** The file holds the cache unless the last write failed. *)
Definition file_in_sync (W : world) (st : state) : Prop :=
  last_write_succeeded W st -> in_sync W st.

(** No write of the cache file fails. *)
Definition writes_succeed (W : world) : Prop :=
  forall n, write_cache W n = Dumped.

(** No dump failed in between, provided no write fails. *)
Definition no_failed_dump (W : world) (st st' : state) : Prop :=
  writes_succeed W -> failed_saves st' = failed_saves st.

(** Between [st] and [st'] the cache [st'] holds was dumped once: the
    dump is recorded and is what the file holds when the write
    succeeded; otherwise it is recorded as failed, and the file is as
    before or cut short. *)
Definition dumped_once (W : world) (st st' : state) : Prop :=
  match write_cache W (dump_attempts st) with
  | Dumped =>
      saves st' = saves st ++ [cache st'] /\
      failed_saves st' = failed_saves st /\
      disk st' = Some (Ok (cache st'))
  | Unopened =>
      saves st' = saves st /\
      failed_saves st' = failed_saves st ++ [cache st'] /\
      disk st' = disk st
  | Cut rest =>
      saves st' = saves st /\
      failed_saves st' = failed_saves st ++ [cache st'] /\
      disk st' = Some rest
  end.

(** Nothing was written to the cache file, nor tried, in between. *)
Definition same_file (st st' : state) : Prop :=
  saves st' = saves st /\ failed_saves st' = failed_saves st /\ disk st' = disk st.

(** As many attempts to dump the cache as new cache entries in between. *)
Definition one_dump_per_entry (st st' : state) : Prop :=
  (size (cache st') + dump_attempts st = size (cache st) + dump_attempts st')%nat.

(** A spec as [load_spec_data] builds it for [spec_id]. *)
Definition sound_spec (W : world) (spec_id : string) (spec : spec_data) : Prop :=
  py_str W (specId spec) = spec_id /\
  yearType spec = year_type (specName spec) /\
  (forall params, paramValues spec = Some params ->
                  Forall (fun p => Str.occurs "-" (fst p)) params).

Definition memo_sound (W : world) (st : state) : Prop :=
  forall spec_id spec,
    spec_data_cache st !! spec_id = Some spec -> sound_spec W spec_id spec.

(** ** The configuration of a model, flattened *)

(** The parameters of a category, when it is a mapping. *)
Definition category_params (params : json) : list (string * json) :=
  match params with JObj ps => ps | _ => [] end.

(** The entry of ['paramValues'] for a parameter of [category]. *)
Definition qualified (W : world) (category : string) (p : string * json)
  : string * string :=
  (category +:+ "-" +:+ fst p, py_str W (snd p)).

(** One entry per parameter: categories in document order, and within a
    category its parameters in document order. *)
Definition flat_params (W : world) (categories : list (string * json))
  : list (string * string) :=
  flat_map (fun c => map (qualified W (fst c)) (category_params (snd c))) categories.

Definition all_mappings (categories : list (string * json)) : bool :=
  forallb (fun c => match snd c with JObj _ => true | _ => false end) categories.

(** ** The models of a catalog, in the order the lookup meets them *)

(** A model together with the brand and the series it is met under. *)
Record entry : Type := Entry {
  entry_brand : string;
  entry_brand_data : list (string * json);
  entry_series : string;
  entry_model : string;
  entry_model_data : json;
}.

Definition series_entries (brand_name : string) (brand_data : list (string * json))
    (s : string * json) : list entry :=
  map (fun m => Entry brand_name brand_data (fst s) (fst m) (snd m))
    (series_models (snd s)).

Definition brand_entries (b : string * json) : list entry :=
  match snd b with
  | JObj brand_data =>
      flat_map (series_entries (fst b) brand_data) (brand_series (snd b))
  | _ => []
  end.

Definition entries (brands : list (string * json)) : list entry :=
  flat_map brand_entries brands.

(** What the lookup for [spec_id] does at one model. *)
Definition visit (W : world) (spec_id : string) (e : entry)
  : outcome (option spec_data) :=
  match entry_model_data e with
  | JObj model_data =>
      if String.eqb (py_str W (Dict.get "spec_id" JNull model_data)) spec_id
      then
        match make_spec_data W (entry_brand e) (entry_brand_data e)
                (entry_series e) (entry_model e) model_data with
        | Ok spec => Ok (Some spec)
        | Raise x => Raise x
        end
      else Ok None
  | _ => Ok None
  end.

(** No ['series'] and no ['models'] of the catalog holds anything but a
    mapping, so that no [.items()] of the traversal raises. *)
Definition traversable_series (series_data : json) : bool :=
  match series_data with
  | JObj d =>
      match Dict.lookup "models" d with
      | Some (JObj _) | None => true
      | Some _ => false
      end
  | _ => true
  end.

Definition traversable_brand (brand_data : json) : bool :=
  match brand_data with
  | JObj d =>
      match Dict.lookup "series" d with
      | Some (JObj ss) => forallb (fun s => traversable_series (snd s)) ss
      | None => true
      | Some _ => false
      end
  | _ => true
  end.

Definition traversable (brands : list (string * json)) : bool :=
  forallb (fun b => traversable_brand (snd b)) brands.

(** ** Index pages and tables *)

(** No index page written in between. *)
Definition same_indexes (st st' : state) : Prop := indexes st' = indexes st.

(** The summaries collected between two points of the loops of
    [export_all_specs] are those of the calls of [export_spec_info] made
    between them, in order. *)
Definition collected (before after : list summary * binding * state) : Prop :=
  exists new,
    fst (fst after) = fst (fst before) ++ new /\
    exports (snd after) = exports (snd before) ++ map sum_specId new.

(** A model whose id [load_spec_data] has a spec for, in any state. *)
Definition loadable (W : world) (model : string * json) : Prop :=
  forall st, exists spec st1,
    load_spec_data W (model_spec_id W (snd model)) st = (Ok (Some spec), st1).

(** The number of rows of a table, over all its categories. *)
Definition table_rows (t : table) : nat := sum_list ((fun c => length (snd c)) <$> t).

(** What [polish_info] satisfies after [n] parameters: each category once,
    the basic information first, seven rows and one per parameter. *)
Definition grouped (n : nat) (t : table) : Prop :=
  NoDup (map fst t) /\
  table_rows t = (7 + n)%nat /\
  exists rows rest, t = (basic_info, rows) :: rest.

(** ** A catalog with a configuration that is not a mapping *)

Module Malformed.

Definition catalog : json :=
  JObj [("BrandA",
         JObj [("series",
                JObj [("S1",
                       JObj [("models",
                              JObj [("Pro",
                                     JObj [("spec_id", JInt 7);
                                           ("config_data", JArr [])])])])])])].

End Malformed.

(** * Properties *)

(** ** Substring search *)

Module StrFacts.

Lemma append_nil s : "" +:+ s = s.
Proof. reflexivity. Qed.

Lemma append_cons c s t : String c s +:+ t = String c (s +:+ t).
Proof. reflexivity. Qed.

Ltac str_simpl :=
  repeat (rewrite ?append_nil, ?append_cons in * ).

Lemma strip_prefix_Some p s r :
  Str.strip_prefix p s = Some r <-> s = p +:+ r.
Proof.
  revert s; induction p as [|a p IH]; intros s; simpl; str_simpl.
  - split; [intros [= ->] | intros ->]; reflexivity.
  - destruct s as [|b s]; [split; discriminate|].
    destruct (Ascii.eqb_spec a b) as [->|Hab].
    + rewrite IH. split; [intros ->; reflexivity | intros [= ->]; reflexivity].
    + split; [discriminate | intros [= <- _]; contradiction].
Qed.

Lemma strip_prefix_app p r : Str.strip_prefix p (p +:+ r) = Some r.
Proof. apply strip_prefix_Some. reflexivity. Qed.

(** What [find] returns is a decomposition of the string. *)
Lemma find_Some sep s before after :
  Str.find sep s = Some (before, after) -> s = before +:+ sep +:+ after.
Proof.
  revert before; induction s as [|c s IH]; intros before; simpl.
  - destruct (Str.strip_prefix sep "") as [rest|] eqn:Hp; [|discriminate].
    intros [= <- <-]. apply strip_prefix_Some in Hp. exact Hp.
  - destruct (Str.strip_prefix sep (String c s)) as [rest|] eqn:Hp.
    + intros [= <- <-]. apply strip_prefix_Some in Hp. exact Hp.
    + destruct (Str.find sep s) as [[b a]|]; [|discriminate].
      intros [= <- <-]. rewrite (IH b eq_refl) at 1. reflexivity.
Qed.

(** [find] fails only when there is no occurrence. *)
Lemma find_None sep s : Str.find sep s = None -> ~ Str.occurs sep s.
Proof.
  induction s as [|c s IH]; simpl.
  - destruct (Str.strip_prefix sep "") eqn:Hp; [discriminate|].
    intros _ ([|? ?] & after & E); [|discriminate].
    str_simpl. rewrite E, strip_prefix_app in Hp. discriminate.
  - destruct (Str.strip_prefix sep (String c s)) eqn:Hp; [discriminate|].
    destruct (Str.find sep s) as [[? ?]|]; [discriminate|].
    intros _ ([|c' before] & after & E); str_simpl.
    + rewrite E, strip_prefix_app in Hp. discriminate.
    + injection E as _ E. apply IH; [reflexivity|].
      exists before, after. exact E.
Qed.

Lemma contains_occurs sep s : Str.contains sep s = true <-> Str.occurs sep s.
Proof.
  unfold Str.contains.
  destruct (Str.find sep s) as [[before after]|] eqn:Hf.
  - split; [intros _ | reflexivity].
    exists before, after. apply find_Some. exact Hf.
  - split; [discriminate|]. intros H. apply find_None in Hf. contradiction.
Qed.

Lemma occurs_tail sep c s : ~ Str.occurs sep (String c s) -> ~ Str.occurs sep s.
Proof.
  intros H (before & after & ->). apply H.
  exists (String c before), after. reflexivity.
Qed.

(** The delimiter '款' does not overlap itself, so it first occurs in
    [before ++ '款' ++ after] right after [before] as soon as [before]
    has no occurrence. *)
Lemma find_delimiter before after :
  ~ Str.occurs "款" before ->
  Str.find "款" (before +:+ "款" +:+ after) = Some (before, after).
Proof.
  induction before as [|c before IH]; intros Hno.
  - reflexivity.
  - rewrite append_cons. cbn [Str.find].
    destruct (Str.strip_prefix "款" (String c (before +:+ "款" +:+ after)))
      as [rest|] eqn:Hp.
    + exfalso. apply strip_prefix_Some in Hp.
      destruct before as [|c2 [|c3 before]]; str_simpl.
      * injection Hp as; discriminate.
      * injection Hp as; discriminate.
      * injection Hp as -> -> -> _. apply Hno. exists "", before. reflexivity.
    + rewrite IH; [reflexivity|]. eapply occurs_tail. exact Hno.
Qed.

End StrFacts.

(** ** Loops that return *)

Section Loops.

Context {A R : Type} (body : A -> outcome (option R)).

(** A value returned by the loop was returned by its body at some
    element. *)
Lemma for_return_Some l r :
  for_return body l = Ok (Some r) -> exists x, x ∈ l /\ body x = Ok (Some r).
Proof.
  induction l as [|x l IH]; simpl; [discriminate|].
  destruct (body x) as [[r'|]|e] eqn:Hx; [| |discriminate].
  - intros [= ->]. exists x. split; [left | exact Hx].
  - intros H. destruct (IH H) as (y & Hy & Hb).
    exists y. split; [right; exact Hy | exact Hb].
Qed.

(** The loop falls through only when its body does at every element. *)
Lemma for_return_None l :
  for_return body l = Ok None -> forall x, x ∈ l -> body x = Ok None.
Proof.
  induction l as [|x l IH]; simpl; intros H y Hy.
  - inversion Hy.
  - destruct (body x) as [[r'|]|e] eqn:Hx; [discriminate| |discriminate].
    apply elem_of_cons in Hy as [->|Hy]; [exact Hx | exact (IH H y Hy)].
Qed.

(** The loop raises only when its body does. *)
Lemma for_return_Raise l e :
  for_return body l = Raise e -> exists x, x ∈ l /\ body x = Raise e.
Proof.
  induction l as [|x l IH]; simpl; [discriminate|].
  destruct (body x) as [[r'|]|e'] eqn:Hx; [discriminate| |].
  - intros H. destruct (IH H) as (y & Hy & Hb).
    exists y. split; [right; exact Hy | exact Hb].
  - intros [= ->]. exists x. split; [left | exact Hx].
Qed.

End Loops.

(** ** [load_spec_data] *)

Section LoadSpecData.

Context (W : world).

(** A memoized id is answered from [self.spec_data_cache]. *)
Lemma load_spec_data_hit spec_id spec st :
  spec_data_cache st !! spec_id = Some spec ->
  load_spec_data W spec_id st = (Ok (Some spec), st).
Proof.
  intros H. unfold load_spec_data, bind, gets. rewrite H. reflexivity.
Qed.

(** Otherwise the document is read and walked; only a match changes the
    state, and every failure ends in [None]. *)
Lemma load_spec_data_miss spec_id st :
  spec_data_cache st !! spec_id = None ->
  load_spec_data W spec_id st =
    match catalog_file W with
    | Ok (JObj brands) =>
        match scan_brands W spec_id brands with
        | Ok (Some spec) =>
            (Ok (Some spec),
             set_spec_data_cache (<[spec_id := spec]> (spec_data_cache st)) st)
        | _ => (Ok None, st)
        end
    | _ => (Ok None, st)
    end.
Proof.
  intros H.
  unfold load_spec_data, load_spec_data_body, try_except, bind, gets, lift,
    modify, ret.
  rewrite H.
  destruct (catalog_file W) as [[]|]; simpl; try reflexivity.
  destruct (scan_brands W spec_id members) as [[spec|]|]; reflexivity.
Qed.

Lemma make_spec_data_fields brand_name brand_data series_name model_name
    model_data spec :
  make_spec_data W brand_name brand_data series_name model_name model_data
    = Ok spec ->
  specId spec = Dict.get "spec_id" JNull model_data /\
  specName spec = model_name /\
  brandName spec = brand_name /\
  seriesName spec = series_name /\
  yearType spec = year_type model_name.
Proof.
  unfold make_spec_data.
  destruct (Dict.lookup "config_data" model_data) as [config_data|].
  - destruct (flatten_config W config_data); [|discriminate].
    intros [= <-]. repeat split.
  - intros [= <-]. repeat split.
Qed.

(** Where a spec returned by the walk comes from. *)
Lemma scan_brands_found spec_id brands spec :
  scan_brands W spec_id brands = Ok (Some spec) ->
  exists brand_name brand_data series series_name series_data models
         model_name model_data,
    (brand_name, JObj brand_data) ∈ brands /\
    Dict.lookup "series" brand_data = Some (JObj series) /\
    (series_name, JObj series_data) ∈ series /\
    Dict.lookup "models" series_data = Some (JObj models) /\
    (model_name, JObj model_data) ∈ models /\
    py_str W (Dict.get "spec_id" JNull model_data) = spec_id /\
    make_spec_data W brand_name brand_data series_name model_name model_data
      = Ok spec.
Proof.
  intros H. apply for_return_Some in H as ([brand_name bd] & Hb & H).
  destruct bd as [| | | | | |brand_data]; try discriminate.
  destruct (Dict.lookup "series" brand_data) as [sv|] eqn:Hs; [|discriminate].
  destruct sv as [| | | | | |series]; try discriminate. simpl in H.
  apply for_return_Some in H as ([series_name sd] & Hsd & H).
  destruct sd as [| | | | | |series_data]; try discriminate.
  destruct (Dict.lookup "models" series_data) as [mv|] eqn:Hm; [|discriminate].
  destruct mv as [| | | | | |models]; try discriminate. simpl in H.
  apply for_return_Some in H as ([model_name md] & Hmd & H).
  destruct md as [| | | | | |model_data]; try discriminate.
  destruct (String.eqb_spec (py_str W (Dict.get "spec_id" JNull model_data)) spec_id)
    as [Hid|]; [|discriminate].
  destruct (make_spec_data W brand_name brand_data series_name model_name model_data)
    as [spec'|] eqn:Hmk; [|discriminate].
  injection H as ->.
  exists brand_name, brand_data, series, series_name, series_data, models,
    model_name, model_data.
  repeat split; assumption.
Qed.

Lemma scan_brands_year_type spec_id brands spec :
  scan_brands W spec_id brands = Ok (Some spec) ->
  yearType spec = year_type (specName spec).
Proof.
  intros H. apply scan_brands_found in H
    as (bn & bd & ss & sn & sd & ms & mn & md & _ & _ & _ & _ & _ & _ & H).
  apply make_spec_data_fields in H as (_ & -> & _ & _ & ->). reflexivity.
Qed.

(** What [year_type] computes, in terms of occurrences of '款'. *)
Lemma year_type_before before after :
  ~ Str.occurs delimiter before ->
  year_type (before +:+ delimiter +:+ after) = before.
Proof.
  intros H. unfold year_type, Str.contains, Str.split_head, delimiter in *.
  rewrite StrFacts.find_delimiter by exact H. reflexivity.
Qed.

Lemma year_type_absent model_name :
  ~ Str.occurs delimiter model_name -> year_type model_name = not_applicable.
Proof.
  intros H. unfold year_type.
  destruct (Str.contains delimiter model_name) eqn:Hc; [|reflexivity].
  apply StrFacts.contains_occurs in Hc. contradiction.
Qed.

End LoadSpecData.

(** ** [translate_text] *)

Section TranslateText.

Context (W : world).

Lemma translate_text_passthrough text dest_lang max_retries retry_delay st :
  text = "" \/ text = not_applicable ->
  translate_text W text dest_lang max_retries retry_delay st = (Ok (Some text), st).
Proof.
  intros [-> | ->]; reflexivity.
Qed.

Lemma translate_text_proper text dest_lang max_retries retry_delay st :
  text <> "" -> text <> not_applicable ->
  translate_text W text dest_lang max_retries retry_delay st =
    match cache st !! cache_key text dest_lang with
    | Some cached => (Ok (Some cached), st)
    | None =>
        retry_loop W text dest_lang (cache_key text dest_lang)
          max_retries retry_delay (range max_retries) st
    end.
Proof.
  intros H1 H2. unfold translate_text.
  destruct (String.eqb_spec text "") as [|_]; [contradiction|].
  destruct (String.eqb_spec text not_applicable) as [|_]; [contradiction|].
  unfold bind, gets, ret; simpl.
  destruct (cache st !! cache_key text dest_lang); reflexivity.
Qed.

(** [_save_cache] returns whatever the write does. *)
Lemma _save_cache_eq st : _save_cache W st = (Ok tt, snd (write_cache_file W st)).
Proof.
  unfold _save_cache, bind, try_except, write_cache_file, ret.
  destruct (write_cache W _); reflexivity.
Qed.

(** The write touches the file and its two logs only. *)
Lemma write_cache_file_frame st :
  let st' := snd (write_cache_file W st) in
  cache st' = cache st /\ spec_data_cache st' = spec_data_cache st /\
  calls st' = calls st /\ sleeps st' = sleeps st /\
  exports st' = exports st /\ pages st' = pages st /\ indexes st' = indexes st.
Proof.
  unfold write_cache_file. destruct (write_cache W _); repeat split.
Qed.

Lemma write_cache_file_dumped st : dumped_once W st (snd (write_cache_file W st)).
Proof.
  unfold dumped_once, write_cache_file, dump_attempts.
  destruct (write_cache W _); repeat split.
Qed.

(** What counts for [dumped_once] in the state before is the number of
    writes attempted and the file. *)
Lemma dumped_once_from st0 st st' :
  same_file st0 st -> dumped_once W st st' -> dumped_once W st0 st'.
Proof.
  intros (S & F & D). unfold dumped_once, dump_attempts. rewrite S, F, D.
  intros H. exact H.
Qed.

Lemma same_file_refl st : same_file st st.
Proof. repeat split. Qed.

(** One attempt, step by step: the sleep before a retry, the call, and
    on success the insertion followed by the dump. *)
Lemma attempt_body_eq text dest_lang key retry_delay attempt st :
  attempt_body W text dest_lang key retry_delay attempt st =
    if (0 <? attempt) && negb (sleep_ok W retry_delay)
    then (Raise ValueError, st)
    else
      let st1 :=
        if 0 <? attempt then set_sleeps (sleeps st ++ [retry_delay]) st else st in
      let st2 := set_calls (calls st ++ [(text, dest_lang)]) st1 in
      match provider W (length (calls st)) text dest_lang with
      | Ok translated =>
          let c := <[key := translated]> (cache st) in
          (Ok translated, snd (write_cache_file W (set_cache c st2)))
      | Raise e => (Raise e, st2)
      end.
Proof.
  unfold attempt_body. unfold bind at 1 2 3 4. unfold sleep, call_provider, modify, ret.
  destruct (0 <? attempt); simpl.
  - destruct (sleep_ok W retry_delay); simpl; [|reflexivity].
    destruct (provider W (length (calls st)) text dest_lang); [|reflexivity].
    rewrite _save_cache_eq. reflexivity.
  - destruct (provider W (length (calls st)) text dest_lang); [|reflexivity].
    rewrite _save_cache_eq. reflexivity.
Qed.

(** The retry loop never raises; it either leaves the cache and the
    cache file alone, or inserts one translation under the key and
    dumps the cache once, right after the insertion. *)
Lemma retry_loop_effect text dest_lang key max_retries retry_delay attempts st :
  exists o st',
    retry_loop W text dest_lang key max_retries retry_delay attempts st
      = (Ok o, st') /\
    same_exports st st' /\
    ((cache st' = cache st /\ same_file st st' /\
      (o = None \/ o = Some text)) \/
     (exists translated,
        o = Some translated /\
        cache st' = <[key := translated]> (cache st) /\
        dumped_once W st st')).
Proof.
  revert st; induction attempts as [|attempt rest IH]; intros st; simpl.
  - exists None, st. repeat split. left. repeat split. left. reflexivity.
  - unfold bind, try_except. rewrite attempt_body_eq.
    destruct ((0 <? attempt) && negb (sleep_ok W retry_delay)).
    { destruct (attempt =? max_retries - 1).
      - exists (Some text), st. repeat split. left. repeat split.
        right. reflexivity.
      - apply IH. }
    destruct (provider W (length (calls st)) text dest_lang) as [translated|e];
      cbv zeta.
    + match goal with |- context [write_cache_file W ?s] => set (s1 := s) end.
      destruct (write_cache_file_frame s1) as (F1 & F2 & _ & _ & F5 & F6 & F7).
      pose proof (write_cache_file_dumped s1) as HD.
      assert (Hs1 : same_file st s1 /\ same_exports st s1 /\
                    cache s1 = <[key := translated]> (cache st))
        by (subst s1; destruct (0 <? attempt); repeat split).
      destruct Hs1 as (Hfile & (E1 & E2 & E3 & E4) & Hc).
      eexists _, _. split; [reflexivity|]. split.
      { unfold same_exports. cbn [snd]. rewrite F2, F5, F6, F7. repeat split; assumption. }
      right. exists translated. cbn [snd]. split; [reflexivity|].
      split; [rewrite F1; exact Hc|].
      eapply dumped_once_from; [exact Hfile | exact HD].
    + destruct (attempt =? max_retries - 1).
      * eexists _, _. split; [reflexivity|].
        split; [destruct (0 <? attempt); repeat split|].
        left. split; [|split]; [destruct (0 <? attempt); repeat split ..|].
        right. reflexivity.
      * match goal with |- context [retry_loop _ _ _ _ _ _ _ ?s] =>
          destruct (IH s) as (o & st' & -> & (F1 & F2 & F3 & F4) & Hc);
          set (s1 := s) in * end.
        assert (Hs1 : same_file st s1 /\ same_exports st s1 /\ cache s1 = cache st)
          by (subst s1; destruct (0 <? attempt); repeat split).
        destruct Hs1 as (Hfile & (E1 & E2 & E3 & E4) & Hcs).
        exists o, st'. split; [reflexivity|].
        split.
        { unfold same_exports. rewrite F1, F2, F3, F4. repeat split; assumption. }
        destruct Hc as [(C1 & (S1 & S2 & S3) & C3) | (tr & C1 & C2 & C3)].
        -- left. destruct Hfile as (G1 & G2 & G3).
           split; [congruence|]. split; [|exact C3].
           repeat split; congruence.
        -- right. exists tr. split; [exact C1|]. split; [congruence|].
           eapply dumped_once_from; [exact Hfile | exact C3].
Qed.

Lemma translate_text_effect text dest_lang max_retries retry_delay st :
  exists o st',
    translate_text W text dest_lang max_retries retry_delay st = (Ok o, st') /\
    same_exports st st' /\
    ((cache st' = cache st /\ same_file st st') \/
     (exists translated,
        cache st !! cache_key text dest_lang = None /\
        o = Some translated /\
        cache st' = <[cache_key text dest_lang := translated]> (cache st) /\
        dumped_once W st st')).
Proof.
  destruct (String.eqb_spec text "") as [E1|N1].
  { exists (Some text), st. rewrite translate_text_passthrough by (left; exact E1).
    repeat split. left. repeat split. }
  destruct (String.eqb_spec text not_applicable) as [E2|N2].
  { exists (Some text), st. rewrite translate_text_passthrough by (right; exact E2).
    repeat split. left. repeat split. }
  rewrite translate_text_proper by assumption.
  destruct (cache st !! cache_key text dest_lang) as [cached|] eqn:Hc.
  { exists (Some cached), st. repeat split. left. repeat split. }
  destruct (retry_loop_effect text dest_lang (cache_key text dest_lang)
              max_retries retry_delay (range max_retries) st)
    as (o & st' & -> & F & [(C1 & C2 & _) | (tr & C1 & C2 & C3)]).
  - exists o, st'. repeat split; try apply F. left. split; assumption.
  - exists o, st'. repeat split; try apply F. right. exists tr.
    repeat split; assumption.
Qed.

End TranslateText.

(** ** The retry loop against a failing and against an answering service *)

Section Retry.

Context (W : world) (text dest_lang key : string) (max_retries retry_delay : Z).

#[local] Abbreviation failures := (after_failures text dest_lang retry_delay).

Lemma after_failures_step n m st :
  failures n m
    (set_calls (calls st ++ [(text, dest_lang)])
       (set_sleeps (sleeps st ++ [retry_delay]) st))
  = failures (S n) (S m) st.
Proof.
  unfold after_failures, set_calls, set_sleeps; simpl.
  rewrite <- !app_assoc. reflexivity.
Qed.

Hypothesis always_fails : forall n, exists e, provider W n text dest_lang = Raise e.
Hypothesis sleep_accepted : sleep_ok W retry_delay = true.

(** Attempts [a], [a+1], ..., [max_retries - 1], all retries. *)
Lemma retry_loop_exhaust (k : nat) :
  forall a st,
    1 <= a -> a + Z.of_nat (S k) = max_retries ->
    retry_loop W text dest_lang key max_retries retry_delay
      (seqZ a (Z.of_nat (S k))) st
    = (Ok (Some text), failures (S k) (S k) st).
Proof.
  induction k as [|k IH]; intros a st Ha Hend.
  - change (seqZ a (Z.of_nat 1)) with [a]. simpl.
    unfold bind, try_except. rewrite attempt_body_eq.
    replace (0 <? a) with true by (symmetry; apply Z.ltb_lt; lia).
    rewrite sleep_accepted. simpl.
    destruct (always_fails (length (calls st))) as [e ->].
    replace (a =? max_retries - 1) with true by (symmetry; apply Z.eqb_eq; lia).
    reflexivity.
  - rewrite seqZ_cons by lia.
    replace (Z.pred (Z.of_nat (S (S k)))) with (Z.of_nat (S k)) by lia.
    cbn [retry_loop]. unfold bind, try_except. rewrite attempt_body_eq.
    replace (0 <? a) with true by (symmetry; apply Z.ltb_lt; lia).
    rewrite sleep_accepted. simpl andb. cbv iota zeta.
    destruct (always_fails (length (calls st))) as [e ->].
    replace (a =? max_retries - 1) with false by (symmetry; apply Z.eqb_neq; lia).
    rewrite IH by lia. rewrite after_failures_step. reflexivity.
Qed.

(** All of [range(max_retries)], for a positive [max_retries]. *)
Lemma retry_loop_all_fail st :
  1 <= max_retries ->
  retry_loop W text dest_lang key max_retries retry_delay (range max_retries) st
  = (Ok (Some text),
     failures (Z.to_nat max_retries) (Z.to_nat (max_retries - 1)) st).
Proof.
  intros Hpos. unfold range. rewrite seqZ_cons by lia.
  cbn [retry_loop]. unfold bind, try_except. rewrite attempt_body_eq.
  simpl andb. cbv iota zeta.
  destruct (always_fails (length (calls st))) as [e ->].
  destruct (Z.eqb_spec 0 (max_retries - 1)) as [Hone|Hmore].
  - replace max_retries with 1 by lia. simpl.
    unfold after_failures, set_calls, set_sleeps; simpl.
    rewrite app_nil_r. reflexivity.
  - replace (Z.pred max_retries) with (Z.of_nat (S (Z.to_nat (max_retries - 2))))
      by lia.
    rewrite retry_loop_exhaust by lia.
    replace (Z.to_nat max_retries) with (S (S (Z.to_nat (max_retries - 2)))) by lia.
    replace (Z.to_nat (max_retries - 1)) with (S (Z.to_nat (max_retries - 2))) by lia.
    unfold after_failures, set_calls, set_sleeps; simpl.
    rewrite <- !app_assoc. reflexivity.
Qed.

End Retry.

Section FirstAttempt.

Context (W : world).

(** With at least one attempt allowed and the service answering, the
    first attempt returns. *)
Lemma retry_loop_first_success text dest_lang key max_retries retry_delay
    translated st :
  1 <= max_retries ->
  provider W (length (calls st)) text dest_lang = Ok translated ->
  retry_loop W text dest_lang key max_retries retry_delay (range max_retries) st
  = (Ok (Some translated),
     let c := <[key := translated]> (cache st) in
     snd (write_cache_file W
            (set_cache c (set_calls (calls st ++ [(text, dest_lang)]) st)))).
Proof.
  intros Hpos Hp. unfold range. rewrite seqZ_cons by lia.
  cbn [retry_loop]. unfold bind, try_except. rewrite attempt_body_eq.
  simpl andb. cbv iota zeta. rewrite Hp. reflexivity.
Qed.

(** Without any attempt allowed, the loop is over at once. *)
Lemma range_nonpositive n : n <= 0 -> range n = [].
Proof. intros H. apply seqZ_nil. exact H. Qed.

End FirstAttempt.

(** ** Relating the state before and after a method *)

Section Keeps.

Context (R : relation state) `{!PreOrder R}.

Lemma safe_keeps {A} (m : M A) : safe R m -> keeps R m.
Proof. intros H st. destruct (H st) as (a & st' & -> & HR). exact HR. Qed.

Lemma safe_ret {A} (a : A) : safe R (ret a).
Proof. intros st. exists a, st. split; reflexivity. Qed.

Lemma safe_gets {A} (f : state -> A) : safe R (gets f).
Proof. intros st. exists (f st), st. split; reflexivity. Qed.

Lemma keeps_raise {A} e : keeps R (@raise A e).
Proof. intros st. reflexivity. Qed.

Lemma keeps_lift {A} (o : outcome A) : keeps R (lift o).
Proof. intros st. reflexivity. Qed.

Lemma safe_modify f : (forall st, R st (f st)) -> safe R (modify f).
Proof. intros H st. exists tt, (f st). split; [reflexivity | apply H]. Qed.

Lemma keeps_bind {A B} (m : M A) (k : A -> M B) :
  keeps R m -> (forall a, keeps R (k a)) -> keeps R (bind m k).
Proof.
  intros Hm Hk st. unfold bind. specialize (Hm st).
  destruct (m st) as [[a|e] st1]; simpl in *; [|exact Hm].
  etransitivity; [exact Hm | apply Hk].
Qed.

Lemma safe_bind {A B} (m : M A) (k : A -> M B) :
  safe R m -> (forall a, safe R (k a)) -> safe R (bind m k).
Proof.
  intros Hm Hk st. unfold bind.
  destruct (Hm st) as (a & st1 & -> & H1).
  destruct (Hk a st1) as (b & st2 & -> & H2).
  exists b, st2. split; [reflexivity | etransitivity; eassumption].
Qed.

(** Catching turns any run into a normal return. *)
Lemma safe_try_except {A} (m : M A) : keeps R m -> safe R (try_except m).
Proof.
  intros Hm st. unfold try_except. specialize (Hm st).
  destruct (m st) as [o st1]. exists o, st1. split; [reflexivity | exact Hm].
Qed.

Lemma safe_for_list {A B} (f : A -> M B) l :
  (forall x, safe R (f x)) -> safe R (for_list f l).
Proof.
  intros Hf. induction l as [|x l IH]; simpl.
  - apply safe_ret.
  - apply safe_bind; [apply Hf|]. intros y.
    apply safe_bind; [exact IH|]. intros ys. apply safe_ret.
Qed.

Lemma keeps_for_each {A B} (body : B -> A -> M B) l :
  (forall acc x, keeps R (body acc x)) -> forall acc, keeps R (for_each body l acc).
Proof.
  intros Hb. induction l as [|x l IH]; intros acc; simpl.
  - apply safe_keeps, safe_ret.
  - apply keeps_bind; [apply Hb | exact IH].
Qed.

(** The translating methods, given that [translate_text] is safe. *)
Context (W : world).
Hypothesis translate_text_safe :
  forall text dest_lang max_retries retry_delay,
    safe R (translate_text W text dest_lang max_retries retry_delay).

Lemma translate_text_default_safe text dest_lang :
  safe R (translate_text_default W text dest_lang).
Proof. apply translate_text_safe. Qed.

Lemma batch_translate_safe texts dest_lang :
  safe R (batch_translate W texts dest_lang).
Proof. apply safe_for_list. intros x. apply translate_text_default_safe. Qed.

Lemma translate_spec_keeps spec : keeps R (translate_spec W spec).
Proof.
  unfold translate_spec.
  apply keeps_bind; [apply safe_keeps, batch_translate_safe|]. intros items_pl.
  apply keeps_bind; [apply safe_keeps, batch_translate_safe|]. intros values_pl.
  destruct (paramValues spec) as [params|]; [|apply safe_keeps, safe_ret].
  apply keeps_for_each. intros polish_info [name value].
  destruct (Str.split_once "-" name) as [|param_type [|param_name [|? ?]]];
    try apply keeps_raise.
  apply keeps_bind; [apply safe_keeps, translate_text_default_safe|]. intros name_pl.
  apply keeps_bind; [apply safe_keeps, translate_text_default_safe|]. intros value_pl.
  apply safe_keeps, safe_ret.
Qed.

Lemma render_tables_safe polish_info : safe R (render_tables W polish_info).
Proof.
  apply safe_for_list. intros [category params].
  apply safe_bind; [apply translate_text_default_safe|]. intros category_pl. apply safe_ret.
Qed.

End Keeps.

(** ** The translation cache only grows *)

#[local] Instance cache_grows_preorder : PreOrder cache_grows.
Proof.
  split.
  - intros st. unfold cache_grows. reflexivity.
  - intros st1 st2 st3 H12 H23. unfold cache_grows in *. etransitivity; eassumption.
Qed.

(** Closes the side goals that ask for the preorder. *)
Ltac instances := try solve [apply _].

Section CacheGrows.

Context (W : world).

Lemma cache_grows_same st st' : cache st' = cache st -> cache_grows st st'.
Proof. intros H. unfold cache_grows. rewrite H. reflexivity. Qed.

Lemma translate_text_grows text dest_lang max_retries retry_delay :
  safe cache_grows (translate_text W text dest_lang max_retries retry_delay).
Proof.
  intros st.
  destruct (translate_text_effect W text dest_lang max_retries retry_delay st)
    as (o & st' & E & _ & [(C & _) | (tr & Hfresh & _ & C & _)]);
    exists o, st'; (split; [exact E|]); unfold cache_grows; rewrite C.
  - reflexivity.
  - apply insert_subseteq. exact Hfresh.
Qed.

Lemma load_spec_data_grows spec_id : safe cache_grows (load_spec_data W spec_id).
Proof.
  intros st. destruct (spec_data_cache st !! spec_id) as [spec|] eqn:Hm.
  - rewrite (load_spec_data_hit W _ _ _ Hm). eexists _, _.
    split; [reflexivity | apply cache_grows_same; reflexivity].
  - rewrite (load_spec_data_miss W _ _ Hm).
    destruct (catalog_file W) as [[]|];
      try (eexists _, _; split; [reflexivity | apply cache_grows_same; reflexivity]).
    destruct (scan_brands W spec_id members) as [[spec|]|];
      eexists _, _; (split; [reflexivity|]); apply cache_grows_same;
      reflexivity.
Qed.

Lemma _save_cache_grows : safe cache_grows (_save_cache W).
Proof.
  intros st. rewrite _save_cache_eq. eexists _, _. split; [reflexivity|].
  apply cache_grows_same. apply (write_cache_file_frame W st).
Qed.

Ltac grows_step :=
  first
    [ apply keeps_lift
    | apply keeps_raise
    | apply safe_keeps, safe_ret
    | apply safe_keeps, safe_modify; instances;
      intros ?; apply cache_grows_same; reflexivity
    | apply safe_keeps, load_spec_data_grows
    | apply safe_keeps, render_tables_safe; instances;
      apply translate_text_grows
    | apply safe_keeps, safe_try_except; instances;
      apply translate_spec_keeps; instances; apply translate_text_grows ];
  instances.

Ltac grows_bind := apply keeps_bind; instances; [grows_step|].

Lemma export_spec_info_grows spec_id : keeps cache_grows (export_spec_info W spec_id).
Proof.
  unfold export_spec_info.
  grows_bind. intros _.
  grows_bind.
  intros [spec|]; [|grows_step].
  grows_bind.
  intros [polish_info|e]; [|grows_step].
  grows_bind. intros car_images.
  grows_bind. intros tables.
  grows_bind. intros _.
  grows_step.
Qed.

Lemma export_index_html_grows specs : keeps cache_grows (export_index_html W specs).
Proof.
  unfold export_index_html.
  grows_bind. intros _. grows_step.
Qed.

Lemma export_last_grows brand_name series_name specs b :
  keeps cache_grows (export_last W brand_name series_name specs b).
Proof.
  unfold export_last.
  destruct b as [[model_name []]|]; try grows_step.
  destruct (String.eqb _ ""); [grows_step|].
  apply keeps_bind; instances; [apply export_spec_info_grows|]. intros _.
  grows_step.
Qed.

Lemma export_series_grows brand_name series acc :
  keeps cache_grows (export_series W brand_name series acc).
Proof.
  unfold export_series. apply keeps_for_each; instances.
  intros [specs b] [series_name []]; try grows_step.
  destruct (Dict.lookup "models" members) as [models|]; [|grows_step].
  grows_bind. intros ms.
  apply keeps_bind; instances; [apply export_last_grows|]. intros specs'.
  grows_step.
Qed.

Lemma export_brands_grows brands acc :
  keeps cache_grows (export_brands W brands acc).
Proof.
  unfold export_brands. apply keeps_for_each; instances.
  intros acc' [brand_name []]; try grows_step.
  destruct (Dict.lookup "series" members) as [series|]; [|grows_step].
  grows_bind. intros ss.
  apply export_series_grows.
Qed.

Lemma export_all_specs_grows : safe cache_grows (export_all_specs W).
Proof.
  unfold export_all_specs.
  apply safe_bind; instances; [|intros ?; apply safe_ret; instances].
  apply safe_try_except; instances. unfold export_all_specs_body.
  grows_bind. intros data.
  grows_bind. intros brands.
  apply keeps_bind; instances; [apply export_brands_grows|]. intros locals.
  apply export_index_html_grows.
Qed.

End CacheGrows.

(** ** The full export, on a catalog of the documented shape *)

#[local] Instance same_log_preorder : PreOrder same_log.
Proof.
  split.
  - intros st. split; reflexivity.
  - intros st1 st2 st3 [E12 I12] [E23 I23]. split; congruence.
Qed.

Section FullExport.

Context (W : world).

Lemma translate_text_log text dest_lang max_retries retry_delay :
  safe same_log (translate_text W text dest_lang max_retries retry_delay).
Proof.
  intros st.
  destruct (translate_text_effect W text dest_lang max_retries retry_delay st)
    as (o & st' & E & (_ & F2 & _ & F4) & _).
  exists o, st'. split; [exact E | split; assumption].
Qed.

Lemma load_spec_data_log spec_id : safe same_log (load_spec_data W spec_id).
Proof.
  intros st. destruct (spec_data_cache st !! spec_id) as [spec|] eqn:Hm.
  - rewrite (load_spec_data_hit W _ _ _ Hm). eexists _, _.
    split; [reflexivity | split; reflexivity].
  - rewrite (load_spec_data_miss W _ _ Hm).
    destruct (catalog_file W) as [[]|];
      try (eexists _, _; split; [reflexivity | split; reflexivity]).
    destruct (scan_brands W spec_id members) as [[spec|]|];
      eexists _, _; (split; [reflexivity | split; reflexivity]).
Qed.

Lemma lift_log {A} (o : outcome A) : is_Ok o -> safe same_log (lift o).
Proof.
  intros [a ->] st. exists a, st. split; [reflexivity | split; reflexivity].
Qed.

Hypothesis writable : pages_writable W.

(** One call of [export_spec_info] returns, is logged, and writes no
    index page. *)
Lemma export_spec_info_logged spec_id st :
  exists st',
    export_spec_info W spec_id st = (Ok tt, st') /\
    exports st' = exports st ++ [spec_id] /\
    indexes st' = indexes st.
Proof.
  unfold export_spec_info. unfold bind at 1. unfold modify at 1.
  match goal with |- context [bind (load_spec_data W spec_id) ?k] =>
    assert (Hrest : safe same_log (bind (load_spec_data W spec_id) k)) end.
  { apply safe_bind; instances; [apply load_spec_data_log|].
    intros [spec|]; [|apply safe_ret; instances].
    apply safe_bind; instances.
    { apply safe_try_except; instances.
      apply translate_spec_keeps; instances. apply translate_text_log. }
    intros [polish_info|e]; [|apply safe_ret; instances].
    apply safe_bind; instances; [apply lift_log, writable|]. intros car_images.
    apply safe_bind; instances.
    { apply render_tables_safe; instances. apply translate_text_log. }
    intros tables.
    apply safe_bind; instances; [apply lift_log, writable|]. intros [].
    apply safe_modify; instances. intros st0. split; reflexivity. }
  destruct (Hrest (set_exports (exports st ++ [spec_id]) st))
    as ([] & st' & -> & HE & HI).
  exists st'. split; [reflexivity|]. split; [exact HE | exact HI].
Qed.

(** After the model loop the variables hold the last model, or what
    they held before when there is none. *)
Lemma bind_models_last models b :
  bind_models models b = match last models with Some m => Some m | None => b end.
Proof.
  unfold bind_models. revert b. induction models as [|m models IH]; intros b.
  - reflexivity.
  - simpl fold_left. rewrite IH. destruct models as [|m' models]; [reflexivity|].
    change (last (m :: m' :: models)) with (last (m' :: models)).
    destruct (last (m' :: models)) eqn:Hlast; [reflexivity|].
    apply last_None in Hlast. discriminate.
Qed.

Lemma well_formed_series_inv series_data :
  well_formed_series series_data = true ->
  exists d models,
    series_data = JObj d /\
    Dict.lookup "models" d = Some (JObj models) /\
    models <> [] /\
    forallb (fun m => well_formed_model (snd m)) models = true.
Proof.
  destruct series_data as [| | | | | |d]; try discriminate. simpl.
  destruct (Dict.lookup "models" d) as [[| | | | | |models]|] eqn:Hlk;
    try discriminate.
  destruct models as [|m models]; [discriminate|]. intros H.
  exists d, (m :: models).
  split; [reflexivity|]. split; [exact Hlk|]. split; [discriminate | exact H].
Qed.

Lemma well_formed_brand_inv brand_data :
  well_formed_brand brand_data = true ->
  exists d series,
    brand_data = JObj d /\
    Dict.lookup "series" d = Some (JObj series) /\
    forallb (fun s => well_formed_series (snd s)) series = true.
Proof.
  destruct brand_data as [| | | | | |d]; try discriminate. simpl.
  destruct (Dict.lookup "series" d) as [[| | | | | |series]|] eqn:Hlk;
    try discriminate.
  intros H. exists d, series. repeat split; assumption.
Qed.

(** What follows the model loop exports the last model of the series. *)
Lemma export_last_logged brand_name series_name specs models model_name md b st :
  last models = Some (model_name, JObj md) ->
  exists st',
    export_last W brand_name series_name specs (bind_models models b) st
      = (Ok (specs ++ last_model_summary W brand_name series_name models), st') /\
    exports st' = exports st
                  ++ map sum_specId (last_model_summary W brand_name series_name models) /\
    indexes st' = indexes st.
Proof.
  intros Hlast. rewrite bind_models_last. unfold last_model_summary.
  rewrite Hlast. simpl.
  destruct (String.eqb _ "").
  - exists st. rewrite !app_nil_r. repeat split.
  - unfold bind.
    destruct (export_spec_info_logged (py_str W (Dict.get "spec_id" JNull md)) st)
      as (st' & -> & HE & HI).
    exists st'. repeat split; assumption.
Qed.

(** A series that is skipped has no model to summarize. *)
Lemma last_model_summary_nil brand_name series_name :
  last_model_summary W brand_name series_name [] = [].
Proof. reflexivity. Qed.

Lemma export_series_logged brand_name series :
  forallb (fun s => exportable_series (snd s)) series = true ->
  forall specs b st,
  exists b' st',
    export_series W brand_name series (specs, b) st
      = (Ok (specs ++ series_summaries W brand_name series, b'), st') /\
    exports st' = exports st ++ map sum_specId (series_summaries W brand_name series) /\
    indexes st' = indexes st.
Proof.
  induction series as [|[series_name series_data] series IH]; intros Hwf specs b st.
  - exists b, st. simpl. rewrite !app_nil_r. repeat split.
  - simpl in Hwf. apply andb_prop in Hwf as [Hs Hrest].
    assert (Hskip : series_models series_data = [] ->
      export_series W brand_name ((series_name, series_data) :: series) (specs, b) st
      = export_series W brand_name series (specs, b) st ->
      exists b' st',
        export_series W brand_name ((series_name, series_data) :: series)
          (specs, b) st
        = (Ok (specs ++ series_summaries W brand_name
                          ((series_name, series_data) :: series), b'), st') /\
        exports st' = exports st
          ++ map sum_specId (series_summaries W brand_name
                               ((series_name, series_data) :: series)) /\
        indexes st' = indexes st).
    { intros Hnone ->. unfold series_summaries. cbn [flat_map fst snd].
      rewrite Hnone, last_model_summary_nil. apply (IH Hrest). }
    destruct series_data as [| | | | | |d]; try (apply Hskip; reflexivity).
    destruct (Dict.lookup "models" d) as [models|] eqn:Hlk.
    2: { apply Hskip; [simpl; rewrite Hlk; reflexivity|].
         unfold export_series. cbn [for_each]. rewrite Hlk. reflexivity. }
    simpl in Hs. rewrite Hlk in Hs.
    destruct models as [| | | | | |ms]; try discriminate.
    destruct (last ms) as [[model_name [| | | | | |md]]|] eqn:Hlast;
      try discriminate.
    unfold export_series, series_summaries. cbn [for_each flat_map fst snd].
    cbn [series_models]. rewrite Hlk. unfold bind at 1 2. cbn [lift items].
    unfold bind at 1.
    destruct (export_last_logged brand_name series_name specs ms model_name md
                b st Hlast)
      as (st1 & -> & HE1 & HI1).
    cbn [ret].
    destruct (IH Hrest
                (specs ++ last_model_summary W brand_name series_name ms)
                (bind_models ms b) st1)
      as (b' & st' & E & HE & HI).
    unfold export_series in E. rewrite E.
    exists b', st'. unfold series_summaries in *.
    rewrite map_app, !app_assoc, HE, HE1, HI, HI1. repeat split.
Qed.

Lemma export_brands_logged brands :
  exportable brands = true ->
  forall specs b st,
  exists b' st',
    export_brands W brands (specs, b) st
      = (Ok (specs ++ last_model_summaries W brands, b'), st') /\
    exports st' = exports st ++ map sum_specId (last_model_summaries W brands) /\
    indexes st' = indexes st.
Proof.
  induction brands as [|[brand_name brand_data] brands IH]; intros Hwf specs b st.
  - exists b, st. simpl. rewrite !app_nil_r. repeat split.
  - simpl in Hwf. apply andb_prop in Hwf as [Hb Hrest].
    assert (Hskip : brand_series brand_data = [] ->
      export_brands W ((brand_name, brand_data) :: brands) (specs, b) st
      = export_brands W brands (specs, b) st ->
      exists b' st',
        export_brands W ((brand_name, brand_data) :: brands) (specs, b) st
        = (Ok (specs ++ last_model_summaries W
                          ((brand_name, brand_data) :: brands), b'), st') /\
        exports st' = exports st
          ++ map sum_specId (last_model_summaries W
                               ((brand_name, brand_data) :: brands)) /\
        indexes st' = indexes st).
    { intros Hnone ->. unfold last_model_summaries. cbn [flat_map fst snd].
      rewrite Hnone. apply (IH Hrest). }
    destruct brand_data as [| | | | | |d]; try (apply Hskip; reflexivity).
    destruct (Dict.lookup "series" d) as [series|] eqn:Hlk.
    2: { apply Hskip; [simpl; rewrite Hlk; reflexivity|].
         unfold export_brands. cbn [for_each]. rewrite Hlk. reflexivity. }
    simpl in Hb. rewrite Hlk in Hb.
    destruct series as [| | | | | |ss]; try discriminate.
    unfold export_brands, last_model_summaries. cbn [for_each flat_map fst snd].
    cbn [brand_series]. rewrite Hlk. unfold bind at 1 2. cbn [lift items].
    destruct (export_series_logged brand_name ss Hb specs b st)
      as (b1 & st1 & -> & HE1 & HI1).
    destruct (IH Hrest (specs ++ series_summaries W brand_name ss) b1 st1)
      as (b' & st' & E & HE & HI).
    unfold export_brands in E. rewrite E.
    exists b', st'. unfold last_model_summaries in *.
    rewrite map_app, !app_assoc, HE, HE1, HI, HI1. repeat split.
Qed.

(** The whole of [export_all_specs]. *)
Lemma export_all_specs_logged brands st :
  catalog_file W = Ok (JObj brands) ->
  exportable brands = true ->
  exists st',
    export_all_specs W st = (Ok tt, st') /\
    exports st' = exports st ++ map sum_specId (last_model_summaries W brands) /\
    (is_Ok (write_index W) ->
     indexes st' = indexes st ++ [last_model_summaries W brands]).
Proof.
  intros Hfile Hwf.
  unfold export_all_specs, export_all_specs_body, export_index_html.
  unfold try_except, bind, lift, modify, ret. rewrite Hfile. cbn [items].
  pose proof (export_brands_logged brands Hwf [] None st) as Hloop.
  unfold binding in Hloop. destruct Hloop as (b' & st' & -> & HE & HI).
  destruct (write_index W) as [[]|e] eqn:Hidx.
  - eexists. split; [reflexivity|]. simpl. rewrite HE, HI. split; reflexivity.
  - exists st'. split; [reflexivity|]. split; [exact HE|].
    intros [u Hu]. discriminate Hu.
Qed.

End FullExport.

(** ** One call of [export_spec_info] per series at most *)

Section OnePerSeries.

Context (W : world).

Lemma exports_at_most_same n st st' :
  exports st' = exports st -> exports_at_most n st st'.
Proof.
  intros H. exists []. rewrite app_nil_r. split; [exact H | simpl; lia].
Qed.

Lemma exports_at_most_trans n m st1 st2 st3 :
  exports_at_most n st1 st2 -> exports_at_most m st2 st3 ->
  exports_at_most (n + m) st1 st3.
Proof.
  intros (ids1 & E1 & L1) (ids2 & E2 & L2). exists (ids1 ++ ids2).
  rewrite E2, E1, app_assoc, length_app. split; [reflexivity | lia].
Qed.

(** A computation that ends by returning a value is as good as its
    first part. *)
Lemma snd_bind_ret {A B} (m : M A) (f : A -> B) st :
  snd (bind m (fun a => ret (f a)) st) = snd (m st).
Proof. unfold bind, ret. destruct (m st) as [[a|e] st']; reflexivity. Qed.

(** [export_spec_info] is logged once, however it ends. *)
Lemma export_spec_info_once spec_id st :
  exports (snd (export_spec_info W spec_id st)) = exports st ++ [spec_id].
Proof.
  unfold export_spec_info. unfold bind at 1. unfold modify at 1.
  match goal with |- context [bind (load_spec_data W spec_id) ?k] =>
    assert (Hrest : keeps same_log (bind (load_spec_data W spec_id) k)) end.
  { apply keeps_bind; instances; [apply safe_keeps, load_spec_data_log|].
    intros [spec|]; [|apply safe_keeps, safe_ret; instances].
    apply keeps_bind; instances.
    { apply safe_keeps, safe_try_except; instances.
      apply translate_spec_keeps; instances. apply translate_text_log. }
    intros [polish_info|e]; [|apply safe_keeps, safe_ret; instances].
    apply keeps_bind; instances; [apply keeps_lift; instances|]. intros car_images.
    apply keeps_bind; instances.
    { apply safe_keeps, render_tables_safe; instances. apply translate_text_log. }
    intros tables.
    apply keeps_bind; instances; [apply keeps_lift; instances|]. intros [].
    apply safe_keeps, safe_modify; instances. intros st0. split; reflexivity. }
  destruct (Hrest (set_exports (exports st ++ [spec_id]) st)) as [HE _].
  exact HE.
Qed.

Lemma export_last_at_most brand_name series_name specs b st :
  exports_at_most 1 st (snd (export_last W brand_name series_name specs b st)).
Proof.
  unfold export_last.
  destruct b as [[model_name []]|];
    try (apply exports_at_most_same; reflexivity).
  destruct (String.eqb _ ""); [apply exports_at_most_same; reflexivity|].
  rewrite (snd_bind_ret _ (fun _ => _)).
  eexists. split; [apply export_spec_info_once | simpl; lia].
Qed.

(** A loop whose body at [x] makes at most [w x] calls makes at most the
    sum of these. *)
Lemma for_each_at_most {A B} (w : A -> nat) (body : B -> A -> M B) l :
  (forall acc x st, exports_at_most (w x) st (snd (body acc x st))) ->
  forall acc st,
    exports_at_most (sum_list (w <$> l)) st (snd (for_each body l acc st)).
Proof.
  intros Hb. induction l as [|x l IH]; intros acc st; simpl.
  - apply exports_at_most_same. reflexivity.
  - unfold bind. pose proof (Hb acc x st) as Hx.
    destruct (body acc x st) as [[acc'|e] st1]; simpl in *.
    + eapply exports_at_most_trans; [exact Hx | apply IH].
    + destruct Hx as (ids & E & L). exists ids. split; [exact E | lia].
Qed.

Lemma sum_list_ones {A} (l : list A) : sum_list ((fun _ => 1%nat) <$> l) = length l.
Proof. induction l as [|x l IH]; simpl; [reflexivity | f_equal; exact IH]. Qed.

Lemma sum_list_lengths {A B} (f : A -> list B) (l : list A) :
  sum_list ((fun x => length (f x)) <$> l) = length (flat_map f l).
Proof.
  induction l as [|x l IH]; simpl; [reflexivity|].
  rewrite length_app. f_equal. exact IH.
Qed.

Lemma export_series_at_most brand_name series acc st :
  exports_at_most (length series) st
    (snd (export_series W brand_name series acc st)).
Proof.
  rewrite <- sum_list_ones. unfold export_series. apply for_each_at_most.
  clear acc st. intros [specs b] [series_name series_data] st.
  destruct series_data as [| | | | | |d];
    try (apply exports_at_most_same; reflexivity).
  destruct (Dict.lookup "models" d) as [models|];
    [|apply exports_at_most_same; reflexivity].
  destruct models as [| | | | | |ms];
    try (apply exports_at_most_same; reflexivity).
  unfold bind at 1. cbn [lift items].
  rewrite (snd_bind_ret _ (fun specs' => (specs', bind_models ms b))).
  apply export_last_at_most.
Qed.

Lemma export_brands_at_most brands acc st :
  exports_at_most (length (all_series brands)) st
    (snd (export_brands W brands acc st)).
Proof.
  unfold all_series. rewrite <- sum_list_lengths.
  unfold export_brands. apply for_each_at_most.
  clear acc st. intros acc [brand_name brand_data] st.
  destruct brand_data as [| | | | | |d];
    try (apply exports_at_most_same; reflexivity).
  simpl brand_series.
  destruct (Dict.lookup "series" d) as [series|];
    [|apply exports_at_most_same; reflexivity].
  destruct series as [| | | | | |ss];
    try (apply exports_at_most_same; reflexivity).
  unfold bind at 1. cbn [lift items]. apply export_series_at_most.
Qed.

Lemma export_all_specs_at_most brands st :
  catalog_file W = Ok (JObj brands) ->
  exports_at_most (length (all_series brands)) st (snd (export_all_specs W st)).
Proof.
  intros Hfile.
  unfold export_all_specs, export_all_specs_body, export_index_html.
  unfold try_except, bind, lift, modify, ret. rewrite Hfile. cbn [items].
  pose proof (export_brands_at_most brands ([], None) st) as Hloop.
  unfold binding in *.
  destruct (export_brands W brands ([], None) st) as [[locals|e] st1];
    simpl in *; [|exact Hloop].
  destruct (write_index W); exact Hloop.
Qed.

End OnePerSeries.

(** ** One summary per series, however many models it has *)

Section Counting.

Context {A B C : Type} (f : A -> list B) (g : A -> list C).

Lemma flat_map_length_le l :
  (forall x, x ∈ l -> (length (f x) <= length (g x))%nat) ->
  (length (flat_map f l) <= length (flat_map g l))%nat.
Proof.
  induction l as [|x l IH]; intros H; simpl; [lia|].
  rewrite !length_app.
  pose proof (H x ltac:(left)).
  pose proof (IH (fun y Hy => H y ltac:(right; exact Hy))).
  lia.
Qed.

Lemma flat_map_length_lt l x :
  (forall y, y ∈ l -> (length (f y) <= length (g y))%nat) ->
  x ∈ l -> (length (f x) < length (g x))%nat ->
  (length (flat_map f l) < length (flat_map g l))%nat.
Proof.
  induction l as [|y l IH]; intros H Hx Hlt; [inversion Hx|].
  simpl. rewrite !length_app.
  pose proof (H y ltac:(left)) as Hy.
  pose proof (flat_map_length_le l (fun z Hz => H z ltac:(right; exact Hz))) as Hl.
  apply elem_of_cons in Hx as [->|Hx]; [lia|].
  pose proof (IH (fun z Hz => H z ltac:(right; exact Hz)) Hx Hlt). lia.
Qed.

End Counting.

Section LastModelOnly.

Context (W : world).

Lemma last_model_summary_length brand_name series_name models :
  (length (last_model_summary W brand_name series_name models) <= 1)%nat /\
  (length (last_model_summary W brand_name series_name models) <= length models)%nat.
Proof.
  unfold last_model_summary.
  destruct (last models) as [[model_name model_data]|] eqn:Hlast; [|simpl; lia].
  apply last_Some in Hlast as [l' ->]. rewrite length_app. simpl.
  destruct (String.eqb _ ""); simpl; lia.
Qed.

Lemma series_summaries_length brand_name series :
  (length (series_summaries W brand_name series)
   <= length (flat_map (fun s => series_models (snd s)) series))%nat.
Proof.
  apply flat_map_length_le. intros s _. apply last_model_summary_length.
Qed.

(** A catalog never yields more summaries than it has models, and yields
    fewer as soon as one series has two models. *)
Lemma last_model_summaries_fewer brands brand series :
  brand ∈ brands -> series ∈ brand_series (snd brand) ->
  (2 <= length (series_models (snd series)))%nat ->
  (length (last_model_summaries W brands) < length (all_models brands))%nat.
Proof.
  intros Hb Hs Htwo. unfold last_model_summaries, all_models.
  apply flat_map_length_lt with (x := brand); [|exact Hb|].
  - intros b _. apply series_summaries_length.
  - apply flat_map_length_lt with (x := series); [|exact Hs|].
    + intros s _. apply last_model_summary_length.
    + pose proof (last_model_summary_length (fst brand) (fst series)
                    (series_models (snd series))). lia.
Qed.

End LastModelOnly.

(** ** The lookup by id visits every model *)

Section LookupFinds.

Context (W : world).

Lemma for_collect_ok {A B} (body : B -> A -> outcome B) l :
  (forall acc x, is_Ok (body acc x)) -> forall acc, is_Ok (for_collect body l acc).
Proof.
  intros Hb. induction l as [|x l IH]; intros acc; simpl.
  - exists acc. reflexivity.
  - destruct (Hb acc x) as [acc' ->]. apply IH.
Qed.

Lemma for_collect_ok_in {A B} (body : B -> A -> outcome B) l :
  (forall acc x, x ∈ l -> is_Ok (body acc x)) ->
  forall acc, is_Ok (for_collect body l acc).
Proof.
  induction l as [|x l IH]; intros Hb acc; simpl.
  - exists acc. reflexivity.
  - destruct (Hb acc x ltac:(left)) as [acc' ->].
    apply IH. intros acc0 y Hy. apply Hb. right. exact Hy.
Qed.

Lemma make_spec_data_ok brand_name brand_data series_name model_name model_data :
  well_formed_model (JObj model_data) = true ->
  is_Ok (make_spec_data W brand_name brand_data series_name model_name model_data).
Proof.
  unfold well_formed_model, make_spec_data.
  destruct (Dict.lookup "config_data" model_data) as [config|];
    [|intros _; eexists; reflexivity].
  destruct config as [| | | | | |categories]; try discriminate.
  intros Hcats. rewrite forallb_forall in Hcats.
  assert (Hflat : is_Ok (flatten_config W (JObj categories))).
  { unfold flatten_config. cbn [items].
    apply for_collect_ok_in. intros acc [category params] Hin.
    apply list_elem_of_In, Hcats in Hin. simpl in Hin.
    destruct params as [| | | | | |ps]; try discriminate.
    unfold flatten_params. cbn [items].
    apply for_collect_ok. intros acc' [param_name param_value].
    eexists. reflexivity. }
  destruct Hflat as [param_values ->]. eexists. reflexivity.
Qed.

(** On a catalog of the documented shape, asking for the id of any model
    -- the last of its series or not -- returns a spec with that id. *)
Lemma scan_brands_finds brands brand series model :
  well_formed_catalog brands = true ->
  brand ∈ brands -> series ∈ brand_series (snd brand) ->
  model ∈ series_models (snd series) ->
  exists spec,
    scan_brands W (model_spec_id W (snd model)) brands = Ok (Some spec) /\
    py_str W (specId spec) = model_spec_id W (snd model).
Proof.
  intros Hwf Hb Hs Hm.
  unfold well_formed_catalog in Hwf. rewrite forallb_forall in Hwf.
  assert (Hwb : forall b, b ∈ brands -> well_formed_brand (snd b) = true).
  { intros b Hin. apply Hwf, list_elem_of_In, Hin. }
  clear Hwf.
  destruct (scan_brands W (model_spec_id W (snd model)) brands)
    as [[spec|]|e] eqn:Hscan.
  - exists spec. split; [reflexivity|].
    apply scan_brands_found in Hscan
      as (bn & bd & ss & sn & sd & ms & mn & md & _ & _ & _ & _ & _ & Hid & Hmk).
    apply make_spec_data_fields in Hmk as (-> & _). exact Hid.
  - exfalso.
    pose proof (for_return_None _ _ Hscan _ Hb) as Hbody.
    destruct brand as [brand_name brand_data]. simpl in Hs.
    pose proof (Hwb _ Hb) as Hw. simpl in Hw.
    apply well_formed_brand_inv in Hw as (d & ss & -> & Hlk & Hss).
    simpl in Hs, Hbody. rewrite Hlk in Hs, Hbody. cbn [items] in Hbody.
    pose proof (for_return_None _ _ Hbody _ Hs) as Hbody2.
    destruct series as [series_name series_data]. simpl in Hm.
    rewrite forallb_forall in Hss.
    pose proof (Hss _ (proj1 (list_elem_of_In _ _) Hs)) as Hw. simpl in Hw.
    apply well_formed_series_inv in Hw as (d2 & ms & -> & Hlk2 & _ & Hms).
    simpl in Hm, Hbody2. rewrite Hlk2 in Hm, Hbody2. cbn [items] in Hbody2.
    pose proof (for_return_None _ _ Hbody2 _ Hm) as Hbody3.
    destruct model as [model_name model_data].
    rewrite forallb_forall in Hms.
    pose proof (Hms _ (proj1 (list_elem_of_In _ _) Hm)) as Hw. simpl in Hw.
    destruct model_data as [| | | | | |md]; try discriminate.
    cbn [snd model_spec_id] in Hbody3. simpl in Hbody3.
    rewrite String.eqb_refl in Hbody3.
    destruct (make_spec_data_ok brand_name d series_name model_name md Hw)
      as [spec Hmk].
    rewrite Hmk in Hbody3. discriminate.
  - exfalso.
    apply for_return_Raise in Hscan as ([brand_name brand_data] & Hb' & Hbody).
    pose proof (Hwb _ Hb') as Hw. simpl in Hw.
    apply well_formed_brand_inv in Hw as (d & ss & -> & Hlk & Hss).
    rewrite Hlk in Hbody. cbn [items] in Hbody.
    apply for_return_Raise in Hbody as ([series_name series_data] & Hs' & Hbody).
    rewrite forallb_forall in Hss.
    pose proof (Hss _ (proj1 (list_elem_of_In _ _) Hs')) as Hw. simpl in Hw.
    apply well_formed_series_inv in Hw as (d2 & ms & -> & Hlk2 & _ & Hms).
    rewrite Hlk2 in Hbody. cbn [items] in Hbody.
    apply for_return_Raise in Hbody as ([model_name model_data] & Hm' & Hbody).
    rewrite forallb_forall in Hms.
    pose proof (Hms _ (proj1 (list_elem_of_In _ _) Hm')) as Hw. simpl in Hw.
    destruct model_data as [| | | | | |md]; try discriminate.
    destruct (String.eqb _ _); [|discriminate].
    destruct (make_spec_data_ok brand_name d series_name model_name md Hw)
      as [spec Hmk].
    rewrite Hmk in Hbody. discriminate.
Qed.

Lemma brand_series_inv brand_data series :
  series ∈ brand_series brand_data ->
  exists d ss,
    brand_data = JObj d /\ Dict.lookup "series" d = Some (JObj ss) /\
    brand_series brand_data = ss.
Proof.
  destruct brand_data as [| | | | | |d]; try solve [intros H; inversion H].
  unfold brand_series.
  destruct (Dict.lookup "series" d) as [[| | | | | |ss]|] eqn:Hlk;
    try solve [intros H; inversion H].
  intros _. exists d, ss. repeat split. exact Hlk.
Qed.

Lemma series_models_inv series_data model :
  model ∈ series_models series_data ->
  exists d ms,
    series_data = JObj d /\ Dict.lookup "models" d = Some (JObj ms) /\
    series_models series_data = ms.
Proof.
  destruct series_data as [| | | | | |d]; try solve [intros H; inversion H].
  unfold series_models.
  destruct (Dict.lookup "models" d) as [[| | | | | |ms]|] eqn:Hlk;
    try solve [intros H; inversion H].
  intros _. exists d, ms. repeat split. exact Hlk.
Qed.

Lemma all_models_elem brands brand series model :
  brand ∈ brands -> series ∈ brand_series (snd brand) ->
  model ∈ series_models (snd series) -> model ∈ all_models brands.
Proof.
  intros Hb Hs Hm. apply list_elem_of_In. unfold all_models.
  apply in_flat_map. exists brand. split; [apply list_elem_of_In, Hb|].
  apply in_flat_map. exists series. split; apply list_elem_of_In; assumption.
Qed.

(** On a catalog that can be traversed and whose configurations can be
    flattened, asking for the id of any model that is a mapping -- the
    last of its series or not -- returns a spec with that id. *)
Lemma scan_brands_reaches brands brand series model md :
  traversable brands = true -> configured brands = true ->
  brand ∈ brands -> series ∈ brand_series (snd brand) ->
  model ∈ series_models (snd series) -> snd model = JObj md ->
  exists spec,
    scan_brands W (model_spec_id W (snd model)) brands = Ok (Some spec) /\
    py_str W (specId spec) = model_spec_id W (snd model).
Proof.
  intros Htr Hcf Hb Hs Hm Hmd.
  unfold traversable in Htr. rewrite forallb_forall in Htr.
  unfold configured in Hcf. rewrite forallb_forall in Hcf.
  destruct (scan_brands W (model_spec_id W (snd model)) brands)
    as [[spec|]|e] eqn:Hscan.
  - exists spec. split; [reflexivity|].
    apply scan_brands_found in Hscan
      as (bn & bd & ss & sn & sd & ms & mn & md' & _ & _ & _ & _ & _ & Hid & Hmk).
    apply make_spec_data_fields in Hmk as (-> & _). exact Hid.
  - exfalso.
    pose proof (for_return_None _ _ Hscan _ Hb) as Hbody.
    destruct brand as [brand_name brand_data]. cbn [snd] in Hs.
    destruct (brand_series_inv _ _ Hs) as (d & ss & -> & Hlk & Hss).
    rewrite Hss in Hs. rewrite Hlk in Hbody. cbn [items] in Hbody.
    pose proof (for_return_None _ _ Hbody _ Hs) as Hbody2.
    destruct series as [series_name series_data]. cbn [snd] in Hm.
    destruct (series_models_inv _ _ Hm) as (d2 & ms & -> & Hlk2 & Hms).
    rewrite Hms in Hm. rewrite Hlk2 in Hbody2. cbn [items] in Hbody2.
    pose proof (for_return_None _ _ Hbody2 _ Hm) as Hbody3.
    destruct model as [model_name model_data]. cbn [snd] in Hmd. subst model_data.
    cbn [snd model_spec_id] in Hbody3. rewrite String.eqb_refl in Hbody3.
    destruct (make_spec_data W brand_name d series_name model_name md);
      discriminate.
  - exfalso.
    apply for_return_Raise in Hscan as ([brand_name brand_data] & Hb' & Hbody).
    pose proof (Htr _ (proj1 (list_elem_of_In _ _) Hb')) as Hw. cbn [snd] in Hw.
    destruct brand_data as [| | | | | |d]; try discriminate.
    cbn [traversable_brand] in Hw.
    destruct (Dict.lookup "series" d) as [[| | | | | |ss]|] eqn:Hlk;
      try discriminate.
    cbn [items] in Hbody. rewrite forallb_forall in Hw.
    apply for_return_Raise in Hbody as ([series_name series_data] & Hs' & Hbody).
    pose proof (Hw _ (proj1 (list_elem_of_In _ _) Hs')) as Hw2. cbn [snd] in Hw2.
    destruct series_data as [| | | | | |d2]; try discriminate.
    cbn [traversable_series] in Hw2.
    destruct (Dict.lookup "models" d2) as [[| | | | | |ms]|] eqn:Hlk2;
      try discriminate.
    cbn [items] in Hbody.
    apply for_return_Raise in Hbody as ([model_name model_data] & Hm' & Hbody).
    destruct model_data as [| | | | | |md']; try discriminate.
    destruct (String.eqb _ _); [|discriminate].
    assert (Hin : (model_name, JObj md') ∈ all_models brands).
    { apply (all_models_elem brands (brand_name, JObj d) (series_name, JObj d2)).
      - exact Hb'.
      - simpl. rewrite Hlk. exact Hs'.
      - simpl. rewrite Hlk2. exact Hm'. }
    pose proof (Hcf _ (proj1 (list_elem_of_In _ _) Hin)) as Hok. cbn [snd] in Hok.
    destruct (make_spec_data_ok brand_name d series_name model_name md' Hok)
      as [spec Hmk].
    rewrite Hmk in Hbody. discriminate.
Qed.

End LookupFinds.

(** ** Only the last model of a series is ever exported *)

Section OnlyLast.

Context (W : world) (brands : list (string * json)).

#[local] Abbreviation is_last := (last_model_id W brands).

Lemma exports_only_same st st' :
  exports st' = exports st -> exports_only is_last st st'.
Proof. intros H. exists []. rewrite app_nil_r. split; [exact H | constructor]. Qed.

Lemma exports_only_trans st1 st2 st3 :
  exports_only is_last st1 st2 -> exports_only is_last st2 st3 ->
  exports_only is_last st1 st3.
Proof.
  intros (ids1 & E1 & P1) (ids2 & E2 & P2). exists (ids1 ++ ids2).
  rewrite E2, E1, app_assoc. split; [reflexivity | apply Forall_app; split; assumption].
Qed.

Lemma export_last_only brand_name series_name specs b st :
  bound_to_last brands b ->
  exports_only is_last st (snd (export_last W brand_name series_name specs b st)).
Proof.
  intros Hb. unfold export_last.
  destruct b as [[model_name [| | | | | |md]]|];
    try (apply exports_only_same; reflexivity).
  destruct (String.eqb _ ""); [apply exports_only_same; reflexivity|].
  rewrite (snd_bind_ret _ (fun _ => _)).
  eexists. split; [apply export_spec_info_once|].
  constructor; [|constructor].
  exists (model_name, JObj md). split; [exact Hb | reflexivity].
Qed.

(** A loop whose body exports only such ids and keeps the invariant of
    its variables does so as a whole. *)
Lemma for_each_only {A B} (J : B -> Prop) (body : B -> A -> M B) l :
  (forall acc x st, x ∈ l -> J acc ->
     exports_only is_last st (snd (body acc x st)) /\
     (forall acc' st', body acc x st = (Ok acc', st') -> J acc')) ->
  forall acc st, J acc ->
    exports_only is_last st (snd (for_each body l acc st)) /\
    (forall acc' st', for_each body l acc st = (Ok acc', st') -> J acc').
Proof.
  induction l as [|x l IH]; intros Hb acc st HJ; simpl.
  - split; [apply exports_only_same; reflexivity|].
    intros acc' st' [= <- <-]. exact HJ.
  - unfold bind. destruct (Hb acc x st ltac:(left) HJ) as [Hx HJx].
    destruct (body acc x st) as [[acc1|e] st1]; simpl in *.
    + destruct (IH (fun a y s Hy => Hb a y s ltac:(right; exact Hy)) acc1 st1
                  (HJx acc1 st1 eq_refl)) as [Hl HJl].
      split; [eapply exports_only_trans; eassumption | exact HJl].
    + split; [exact Hx | discriminate].
Qed.

Lemma export_series_only brand series acc st :
  brand ∈ brands -> series ⊆ brand_series (snd brand) ->
  bound_to_last brands (snd acc) ->
  exports_only is_last st (snd (export_series W (fst brand) series acc st)) /\
  (forall acc' st',
      export_series W (fst brand) series acc st = (Ok acc', st') ->
      bound_to_last brands (snd acc')).
Proof.
  intros Hbrand Hsub. unfold export_series.
  apply (for_each_only (fun acc => bound_to_last brands (snd acc))).
  clear acc st. intros [specs b] [series_name series_data] st Hin Hb.
  cbn [snd] in Hb.
  assert (Hret : forall s : state,
    exports_only is_last s (snd (ret (specs, b) s)) /\
    (forall acc' st', ret (specs, b) s = (Ok acc', st') -> bound_to_last brands (snd acc'))).
  { intros s. split; [apply exports_only_same; reflexivity|].
    intros acc' st' [= <- <-]. exact Hb. }
  destruct series_data as [| | | | | |d]; try apply Hret.
  destruct (Dict.lookup "models" d) as [models|] eqn:Hlk; [|apply Hret].
  destruct models as [| | | | | |ms];
    try (split; [apply exports_only_same; reflexivity | discriminate]).
  unfold bind at 1. cbn [lift items].
  assert (Hnew : bound_to_last brands (bind_models ms b)).
  { rewrite bind_models_last. destruct (last ms) as [m|] eqn:Hlast; [|exact Hb].
    exists brand, (series_name, JObj d). split; [exact Hbrand|].
    split; [apply Hsub, Hin|]. simpl. rewrite Hlk. exact Hlast. }
  split.
  - rewrite (snd_bind_ret _ (fun specs' => (specs', bind_models ms b))).
    apply export_last_only. exact Hnew.
  - intros acc' st'. unfold bind, ret, lift.
    destruct (export_last W (fst brand) series_name specs (bind_models ms b) st)
      as [[specs1|e] st1]; [|discriminate].
    intros [= <- <-]. exact Hnew.
Qed.

Lemma export_brands_only acc st :
  forall l, l ⊆ brands ->
  bound_to_last brands (snd acc) ->
  exports_only is_last st (snd (export_brands W l acc st)) /\
  (forall acc' st',
      export_brands W l acc st = (Ok acc', st') -> bound_to_last brands (snd acc')).
Proof.
  intros l Hsub. unfold export_brands.
  apply (for_each_only (fun acc => bound_to_last brands (snd acc))).
  clear acc st. intros acc [brand_name brand_data] st Hin Hb.
  assert (Hret : forall s : state,
    exports_only is_last s (snd (ret acc s)) /\
    (forall acc' st', ret acc s = (Ok acc', st') -> bound_to_last brands (snd acc'))).
  { intros s. split; [apply exports_only_same; reflexivity|].
    intros acc' st' [= <- <-]. exact Hb. }
  destruct brand_data as [| | | | | |d]; try apply Hret.
  destruct (Dict.lookup "series" d) as [series|] eqn:Hlk; [|apply Hret].
  destruct series as [| | | | | |ss];
    try (split; [apply exports_only_same; reflexivity | discriminate]).
  unfold bind at 1. cbn [lift items].
  apply (export_series_only (brand_name, JObj d) ss acc st).
  - apply Hsub, Hin.
  - simpl. rewrite Hlk. reflexivity.
  - exact Hb.
Qed.

Lemma export_all_specs_only st :
  catalog_file W = Ok (JObj brands) ->
  exports_only is_last st (snd (export_all_specs W st)).
Proof.
  intros Hfile.
  unfold export_all_specs, export_all_specs_body, export_index_html.
  unfold try_except, bind, lift, modify, ret. rewrite Hfile. cbn [items].
  pose proof (export_brands_only ([], None) st brands ltac:(reflexivity) I)
    as [Hloop _].
  unfold binding in *.
  destruct (export_brands W brands ([], None) st) as [[locals|e] st1];
    simpl in *; [|exact Hloop].
  destruct (write_index W); exact Hloop.
Qed.

End OnlyLast.


(** * The claims *)

(** ** Year type *)

(** C7: a spec that [load_spec_data] reads from the catalog has as year
    type the part of its name before the first '款' when the name contains
    one, and 'N/A' when it contains none. *)
Theorem year_type_of_loaded_spec (W : world) (spec_id : string) (spec : spec_data)
    (st st' : state) :
  spec_data_cache st !! spec_id = None ->
  load_spec_data W spec_id st = (Ok (Some spec), st') ->
  (forall before after,
      specName spec = before +:+ delimiter +:+ after ->
      ~ Str.occurs delimiter before ->
      yearType spec = before) /\
  (~ Str.occurs delimiter (specName spec) -> yearType spec = not_applicable).
Proof.
  intros Hmiss Hload. rewrite load_spec_data_miss in Hload by exact Hmiss.
  assert (Hyt : yearType spec = year_type (specName spec)).
  { destruct (catalog_file W) as [[| | | | | |brands]|]; try discriminate.
    destruct (scan_brands W spec_id brands) as [[spec'|]|] eqn:Hscan;
      try discriminate.
    injection Hload as -> _. eapply scan_brands_year_type. exact Hscan. }
  rewrite Hyt. split.
  - intros before after -> Hfirst. apply year_type_before. exact Hfirst.
  - apply year_type_absent.
Qed.

Lemma year_type_of_loaded_spec_witness :
  exists spec st',
    load_spec_data Sample.answering "1" (init Sample.answering) = (Ok (Some spec), st') /\
    specName spec = "2024款 Pro" /\
    yearType spec = "2024".
Proof.
  eexists _, _. split; [reflexivity|]. split; [reflexivity|].
  refine (proj1 (year_type_of_loaded_spec Sample.answering "1" _
                   (init Sample.answering) _ eq_refl eq_refl) "2024" " Pro" eq_refl _).
  intros Hocc. apply StrFacts.contains_occurs in Hocc. discriminate Hocc.
Defined.

Example year_type_with_delimiter : year_type "2024款 Pro" = "2024".
Proof. reflexivity. Qed.

Example year_type_without_delimiter : year_type "Pro" = "N/A".
Proof. reflexivity. Qed.

(** ** [translate_text]: inputs that are never translated *)

(** C6: for an empty text and for 'N/A', in any language, [translate_text]
    returns the text itself and leaves the whole state as it was -- no
    call of the service is made -- and it does so whatever the cache
    holds, even a value under the key of that very text. *)
Theorem translate_text_skips_empty_and_sentinel (W : world)
    (text dest_lang : string) (max_retries retry_delay : Z) (st : state) :
  text = "" \/ text = not_applicable ->
  translate_text W text dest_lang max_retries retry_delay st = (Ok (Some text), st) /\
  calls (snd (translate_text W text dest_lang max_retries retry_delay st)) = calls st /\
  (forall c,
      fst (translate_text W text dest_lang max_retries retry_delay (set_cache c st))
      = Ok (Some text)).
Proof.
  intros H. split; [|split].
  - apply translate_text_passthrough. exact H.
  - rewrite translate_text_passthrough by exact H. reflexivity.
  - intros c. rewrite translate_text_passthrough by exact H. reflexivity.
Qed.

Lemma translate_text_skips_empty_and_sentinel_witness :
  translate_text Sample.failing "N/A" "pl" 3 1
    (set_cache {[ "N/A_pl" := "nie dotyczy" ]} (init Sample.failing))
  = (Ok (Some "N/A"), set_cache {[ "N/A_pl" := "nie dotyczy" ]} (init Sample.failing)).
Proof.
  apply (translate_text_skips_empty_and_sentinel Sample.failing "N/A" "pl" 3 1).
  right. reflexivity.
Defined.

(** ** [translate_text]: the retry loop *)

(** C9: for a text that is neither empty nor 'N/A' and is not cached, a
    [max_retries] of zero or less gives an empty range of attempts, and
    [translate_text] returns [None] -- not the text -- without calling the
    service or changing anything. *)
Theorem translate_text_without_attempts (W : world) (text dest_lang : string)
    (max_retries retry_delay : Z) (st : state) :
  text <> "" -> text <> not_applicable ->
  cache st !! cache_key text dest_lang = None ->
  max_retries <= 0 ->
  range max_retries = [] /\
  translate_text W text dest_lang max_retries retry_delay st = (Ok None, st) /\
  fst (translate_text W text dest_lang max_retries retry_delay st) <> Ok (Some text).
Proof.
  intros H1 H2 Hmiss Hle.
  assert (E : translate_text W text dest_lang max_retries retry_delay st = (Ok None, st)).
  { rewrite translate_text_proper by assumption.
    rewrite Hmiss, range_nonpositive by exact Hle. reflexivity. }
  split; [apply range_nonpositive; exact Hle|]. split; [exact E|].
  rewrite E. discriminate.
Qed.

Lemma translate_text_without_attempts_witness :
  translate_text Sample.answering "hello" "pl" 0 1 (init Sample.answering)
  = (Ok None, init Sample.answering).
Proof.
  apply (translate_text_without_attempts Sample.answering "hello" "pl" 0 1
           (init Sample.answering));
    [discriminate | discriminate | reflexivity | lia].
Defined.

(** C2, as the code has it: for a text that is neither empty nor 'N/A' and
    is not cached, a positive [max_retries] and a delay that [time.sleep]
    accepts, a service that fails every call is called exactly
    [max_retries] times, with a sleep before each call but the first; the
    text itself is returned, and the cache -- so also the key -- and the
    cache file are as before. *)
Theorem translate_text_retry_exhaustion (W : world) (text dest_lang : string)
    (max_retries retry_delay : Z) (st : state) :
  text <> "" -> text <> not_applicable ->
  cache st !! cache_key text dest_lang = None ->
  (forall n, exists e, provider W n text dest_lang = Raise e) ->
  1 <= max_retries ->
  sleep_ok W retry_delay = true ->
  exists st',
    translate_text W text dest_lang max_retries retry_delay st = (Ok (Some text), st') /\
    calls st' = calls st ++ replicate (Z.to_nat max_retries) (text, dest_lang) /\
    sleeps st' = sleeps st ++ replicate (Z.to_nat (max_retries - 1)) retry_delay /\
    cache st' = cache st /\
    cache st' !! cache_key text dest_lang = None /\
    same_file st st'.
Proof.
  intros H1 H2 Hmiss Hfail Hpos Hsleep.
  eexists. split.
  - rewrite translate_text_proper by assumption. rewrite Hmiss.
    apply retry_loop_all_fail; assumption.
  - repeat split; try reflexivity. exact Hmiss.
Qed.

Lemma translate_text_retry_exhaustion_witness :
  exists st',
    translate_text Sample.failing "hello" "pl" 3 1 (init Sample.failing)
      = (Ok (Some "hello"), st') /\
    calls st' = [("hello", "pl"); ("hello", "pl"); ("hello", "pl")] /\
    cache st' !! "hello_pl" = None.
Proof.
  destruct (translate_text_retry_exhaustion Sample.failing "hello" "pl" 3 1
              (init Sample.failing))
    as (st' & E & Hcalls & _ & _ & Hkey & _);
    [discriminate | discriminate | reflexivity
    | intros n; eexists; reflexivity | lia | reflexivity |].
  exists st'. split; [exact E|]. split; [exact Hcalls | exact Hkey].
Defined.

(** C2 as stated fails: with [max_retries = 0] the failing service is not
    called and [None] is returned, not the text; and with a delay that
    [time.sleep] refuses, three attempts make one call only. *)
Lemma translate_text_retry_exhaustion_counterexample :
  (cache (init Sample.failing) !! cache_key "hello" "pl" = None /\
   (forall n, exists e, provider Sample.failing n "hello" "pl" = Raise e)) /\
  fst (translate_text Sample.failing "hello" "pl" 0 1 (init Sample.failing))
    = Ok None /\
  fst (translate_text Sample.failing "hello" "pl" 0 1 (init Sample.failing))
    <> Ok (Some "hello") /\
  calls (snd (translate_text Sample.failing "hello" "pl" 3 (-1) (init Sample.failing)))
    = [("hello", "pl")].
Proof.
  split; [split; [reflexivity | intros n; eexists; reflexivity]|].
  split; [reflexivity|]. split; [discriminate | reflexivity].
Qed.

(** C4: for a text that is neither empty nor 'N/A', with at least one
    attempt allowed (the default allows three) and a service that answers
    the call it may receive, two calls of [translate_text] in a row return
    the same string; the second is answered from the cache and changes
    nothing, so the service is called once at most. *)
Theorem translate_text_twice (W : world) (text dest_lang : string)
    (max_retries retry_delay max_retries' retry_delay' : Z) (st : state) :
  text <> "" -> text <> not_applicable ->
  1 <= max_retries ->
  is_Ok (provider W (length (calls st)) text dest_lang) ->
  exists translated st1,
    translate_text W text dest_lang max_retries retry_delay st
      = (Ok (Some translated), st1) /\
    translate_text W text dest_lang max_retries' retry_delay' st1
      = (Ok (Some translated), st1) /\
    cache st1 !! cache_key text dest_lang = Some translated /\
    (calls st1 = calls st \/ calls st1 = calls st ++ [(text, dest_lang)]).
Proof.
  intros H1 H2 Hpos [translated Hp].
  rewrite translate_text_proper by assumption.
  destruct (cache st !! cache_key text dest_lang) as [cached|] eqn:Hc.
  - exists cached, st. split; [reflexivity|].
    rewrite translate_text_proper, Hc by assumption.
    split; [reflexivity|]. split; [reflexivity | left; reflexivity].
  - rewrite (retry_loop_first_success W _ _ _ _ _ translated st Hpos Hp).
    eexists _, _. split; [reflexivity|]. cbv zeta.
    match goal with |- context [write_cache_file W ?s] =>
      destruct (write_cache_file_frame W s) as (Hcache & _ & Hcalls & _) end.
    cbn [cache calls set_cache set_calls] in Hcache, Hcalls.
    rewrite translate_text_proper by assumption.
    rewrite Hcache, Hcalls, lookup_insert_eq.
    split; [reflexivity|]. split; [reflexivity | right; reflexivity].
Qed.

Lemma translate_text_twice_witness :
  exists st1,
    translate_text_default Sample.answering "hello" "pl" (init Sample.answering)
      = (Ok (Some "pl:hello"), st1) /\
    translate_text_default Sample.answering "hello" "pl" st1
      = (Ok (Some "pl:hello"), st1) /\
    calls st1 = [("hello", "pl")].
Proof.
  destruct (translate_text_twice Sample.answering "hello" "pl"
              default_max_retries default_retry_delay
              default_max_retries default_retry_delay (init Sample.answering))
    as (translated & st1 & E1 & E2 & _ & _);
    [discriminate | discriminate | unfold default_max_retries; lia
    | eexists; reflexivity |].
  assert (Ht : translated = "pl:hello" /\ calls st1 = [("hello", "pl")]).
  { vm_compute in E1. injection E1 as <- <-. split; reflexivity. }
  destruct Ht as [-> Hcalls].
  exists st1. split; [exact E1|]. split; [exact E2 | exact Hcalls].
Defined.

(** ** The cache and its file *)

(** C10: on a cache hit, and for an empty or 'N/A' text, [translate_text]
    changes nothing -- the cache is as before and [_save_cache] is not
    run; and whatever the call, either the cache and the file are as
    before and no write was tried, or one translation was inserted under
    a key that was absent and the cache was dumped once, right after the
    insertion, with the new entry in it: the file holds that dump when
    the write succeeds, and the failure is caught when it does not. *)
Theorem translate_text_saves_only_new_entries (W : world) (text dest_lang : string)
    (max_retries retry_delay : Z) (st : state) :
  (forall cached,
      text <> "" -> text <> not_applicable ->
      cache st !! cache_key text dest_lang = Some cached ->
      translate_text W text dest_lang max_retries retry_delay st
        = (Ok (Some cached), st)) /\
  (text = "" \/ text = not_applicable ->
   translate_text W text dest_lang max_retries retry_delay st = (Ok (Some text), st)) /\
  (let st' := snd (translate_text W text dest_lang max_retries retry_delay st) in
   (cache st' = cache st /\ same_file st st') \/
   (exists translated,
       cache st !! cache_key text dest_lang = None /\
       fst (translate_text W text dest_lang max_retries retry_delay st)
         = Ok (Some translated) /\
       cache st' = <[cache_key text dest_lang := translated]> (cache st) /\
       dumped_once W st st')).
Proof.
  split; [|split].
  - intros cached H1 H2 Hhit.
    rewrite translate_text_proper, Hhit by assumption. reflexivity.
  - apply translate_text_passthrough.
  - destruct (translate_text_effect W text dest_lang max_retries retry_delay st)
      as (o & st' & -> & _ & [Hsame | (tr & Hfresh & -> & Hc & Hs)]); simpl.
    + left. exact Hsame.
    + right. exists tr. repeat split; assumption.
Qed.

Lemma translate_text_saves_only_new_entries_witness :
  translate_text Sample.answering "hello" "pl" 3 1 Sample.warm
  = (Ok (Some "cześć"), Sample.warm).
Proof.
  apply (translate_text_saves_only_new_entries Sample.answering "hello" "pl" 3 1
           Sample.warm);
    [discriminate | discriminate | reflexivity].
Defined.

(** C5: whatever operations of the exporter run, in whatever order and
    with whatever arguments, a key that is in the translation cache stays
    in it with the value it has. *)
Theorem cache_never_overwritten (W : world) (ops : list operation) (st : state)
    (key value : string) :
  cache st !! key = Some value ->
  cache (perform_all W ops st) !! key = Some value.
Proof.
  intros Hkey.
  assert (Hstep : forall op s, cache_grows s (perform W op s)).
  { intros op s; destruct op; simpl.
    - exact (safe_keeps cache_grows _ (_save_cache_grows W) s).
    - exact (safe_keeps cache_grows _ (load_spec_data_grows W _) s).
    - exact (safe_keeps cache_grows _ (translate_text_grows W _ _ _ _) s).
    - exact (safe_keeps cache_grows _
               (batch_translate_safe cache_grows W (translate_text_grows W) _ _) s).
    - exact (export_spec_info_grows W _ s).
    - exact (export_index_html_grows W _ s).
    - exact (safe_keeps cache_grows _ (export_all_specs_grows W) s). }
  assert (Hall : cache_grows st (perform_all W ops st)).
  { unfold perform_all. revert st Hkey.
    induction ops as [|op ops IH]; intros st Hkey; simpl.
    - reflexivity.
    - transitivity (perform W op st); [apply Hstep|].
      apply IH. eapply lookup_weaken; [exact Hkey | apply Hstep]. }
  eapply lookup_weaken; [exact Hkey | exact Hall].
Qed.

Lemma cache_never_overwritten_witness :
  cache (perform_all Sample.answering
           [Op_translate_text "hello" "pl" 3 1; Op_export_all_specs;
            Op_translate_text "hello" "pl" 3 1]
           Sample.warm) !! "hello_pl" = Some "cześć".
Proof.
  apply (cache_never_overwritten Sample.answering). reflexivity.
Defined.

(** ** Reading the catalog *)

(** C8: [load_spec_data] returns normally on every input; when the id is
    not memoized and the catalog cannot be read or parsed it returns
    [None] and changes nothing, which is also what it does when the
    catalog is read and no model has the id. *)
Theorem load_spec_data_never_raises (W : world) (spec_id : string) (st : state) :
  (exists result st', load_spec_data W spec_id st = (Ok result, st')) /\
  (spec_data_cache st !! spec_id = None ->
   (exists e, catalog_file W = Raise e) ->
   load_spec_data W spec_id st = (Ok None, st)) /\
  (forall brands,
      spec_data_cache st !! spec_id = None ->
      catalog_file W = Ok (JObj brands) ->
      scan_brands W spec_id brands = Ok None ->
      load_spec_data W spec_id st = (Ok None, st)).
Proof.
  split; [|split].
  - destruct (spec_data_cache st !! spec_id) as [spec|] eqn:Hm.
    + rewrite (load_spec_data_hit W _ _ _ Hm). eexists _, _. reflexivity.
    + rewrite (load_spec_data_miss W _ _ Hm).
      destruct (catalog_file W) as [[| | | | | |brands]|];
        try (eexists _, _; reflexivity).
      destruct (scan_brands W spec_id brands) as [[spec|]|];
        eexists _, _; reflexivity.
  - intros Hm [e He]. rewrite load_spec_data_miss, He by exact Hm. reflexivity.
  - intros brands Hm Hfile Hscan.
    rewrite load_spec_data_miss, Hfile, Hscan by exact Hm. reflexivity.
Qed.

Lemma load_spec_data_never_raises_witness :
  load_spec_data Sample.unreadable "1" (init Sample.unreadable)
    = (Ok None, init Sample.unreadable) /\
  load_spec_data Sample.answering "404" (init Sample.answering)
    = (Ok None, init Sample.answering).
Proof.
  split.
  - apply (load_spec_data_never_raises Sample.unreadable "1" (init Sample.unreadable));
      [reflexivity | eexists; reflexivity].
  - apply (proj2 (proj2 (load_spec_data_never_raises Sample.answering "404"
                           (init Sample.answering))) Sample.brands);
      reflexivity.
Defined.

(** C3, as the code has it: when the catalog cannot be read or parsed,
    [load_spec_data] (for an id it has not memoized) does not fail: it
    returns [None], as for an id without a match, and leaves the state as
    it was, so nothing partial is kept; [export_spec_info] then returns at
    once, having translated and written nothing. *)
Theorem load_spec_data_unreadable_catalog (W : world) (spec_id : string) (st : state) :
  (exists e, catalog_file W = Raise e) ->
  spec_data_cache st !! spec_id = None ->
  load_spec_data W spec_id st = (Ok None, st) /\
  export_spec_info W spec_id st
    = (Ok tt, set_exports (exports st ++ [spec_id]) st).
Proof.
  intros [e He] Hm. split.
  - rewrite load_spec_data_miss, He by exact Hm. reflexivity.
  - unfold export_spec_info, bind, modify.
    rewrite load_spec_data_miss, He by exact Hm. reflexivity.
Qed.

Lemma load_spec_data_unreadable_catalog_witness :
  load_spec_data Sample.unreadable "1" (init Sample.unreadable)
    = (Ok None, init Sample.unreadable) /\
  export_spec_info Sample.unreadable "1" (init Sample.unreadable)
    = (Ok tt, set_exports ["1"] (init Sample.unreadable)).
Proof.
  apply (load_spec_data_unreadable_catalog Sample.unreadable "1"
           (init Sample.unreadable));
    [eexists; reflexivity | reflexivity].
Defined.

(** C3 as stated fails: with the catalog file missing, [load_spec_data]
    raises nothing; it returns [None], exactly what it returns for an id
    that no model of a readable catalog has. *)
Lemma load_spec_data_unreadable_catalog_counterexample :
  catalog_file Sample.unreadable = Raise OSError /\
  (forall e st',
      load_spec_data Sample.unreadable "1" (init Sample.unreadable) <> (Raise e, st')) /\
  fst (load_spec_data Sample.unreadable "1" (init Sample.unreadable))
    = fst (load_spec_data Sample.answering "404" (init Sample.answering)).
Proof.
  split; [reflexivity|]. split; [intros e st'; discriminate | reflexivity].
Qed.

(** ** The full export *)

(** C1, as the code has it: whatever the catalog holds,
    [export_all_specs] calls [export_spec_info] once per series at most,
    and only for a model that is the last of the ['models'] of a series.
    On a catalog it gets through -- each ['series'] and ['models'] that is
    there is a mapping, and each ['models'] ends in a model that is a
    mapping -- with the image directories and the pages writable, it
    calls it for the last model of each series and for no other, and the
    list it hands to the index page holds the summaries of those models
    only, so fewer entries than models as soon as a series has two
    models.  [load_spec_data] is not affected: on a catalog that can be
    traversed and whose configurations can be flattened, asked for the id
    of any model that is a mapping, last of its series or not, it returns
    a spec with that id. *)
Theorem export_all_specs_last_model_only (W : world) (brands : list (string * json))
    (st : state) :
  catalog_file W = Ok (JObj brands) ->
  exports_at_most (length (all_series brands)) st (snd (export_all_specs W st)) /\
  exports_only (last_model_id W brands) st (snd (export_all_specs W st)) /\
  (exportable brands = true -> pages_writable W ->
   exists st',
     export_all_specs W st = (Ok tt, st') /\
     exports st' = exports st ++ map sum_specId (last_model_summaries W brands) /\
     (is_Ok (write_index W) ->
      indexes st' = indexes st ++ [last_model_summaries W brands])) /\
  (forall brand series,
      brand ∈ brands -> series ∈ brand_series (snd brand) ->
      (2 <= length (series_models (snd series)))%nat ->
      (length (last_model_summaries W brands) < length (all_models brands))%nat) /\
  (traversable brands = true -> configured brands = true ->
   forall brand series model md,
     brand ∈ brands -> series ∈ brand_series (snd brand) ->
     model ∈ series_models (snd series) -> snd model = JObj md ->
     spec_data_cache st !! model_spec_id W (snd model) = None ->
     exists spec st',
       load_spec_data W (model_spec_id W (snd model)) st = (Ok (Some spec), st') /\
       py_str W (specId spec) = model_spec_id W (snd model)).
Proof.
  intros Hfile. split; [|split; [|split; [|split]]].
  - apply export_all_specs_at_most. exact Hfile.
  - apply export_all_specs_only. exact Hfile.
  - intros Hwf Hpages. apply export_all_specs_logged; assumption.
  - intros brand series. apply last_model_summaries_fewer.
  - intros Htr Hcf brand series model md Hb Hs Hm Hmd Hmiss.
    destruct (scan_brands_reaches W brands brand series model md
                Htr Hcf Hb Hs Hm Hmd)
      as (spec & Hscan & Hid).
    exists spec. eexists. split; [|exact Hid].
    rewrite load_spec_data_miss, Hfile, Hscan by exact Hmiss. reflexivity.
Qed.

Lemma around_pages_writable catalog : pages_writable (Scenario.around catalog).
Proof. intros spec_id. split; eexists; reflexivity. Qed.

Lemma export_all_specs_last_model_only_witness :
  (exists st',
      export_all_specs (Scenario.around (JObj Scenario.with_notes))
        (init (Scenario.around (JObj Scenario.with_notes))) = (Ok tt, st') /\
      exports st' = ["2"] /\
      indexes st' = [[Summary "2" "Pro" "BrandA" "S1"]]) /\
  (length (last_model_summaries (Scenario.around (JObj Scenario.with_notes))
             Scenario.with_notes)
   < length (all_models Scenario.with_notes))%nat /\
  (exists spec st',
      load_spec_data (Scenario.around (JObj Scenario.with_notes)) "1"
        (init (Scenario.around (JObj Scenario.with_notes)))
        = (Ok (Some spec), st') /\
      py_str (Scenario.around (JObj Scenario.with_notes)) (specId spec) = "1").
Proof.
  pose proof (export_all_specs_last_model_only
                (Scenario.around (JObj Scenario.with_notes)) Scenario.with_notes
                (init (Scenario.around (JObj Scenario.with_notes))) eq_refl)
    as (_ & _ & Hexport & Hfewer & Hfinds).
  split; [|split].
  - destruct (Hexport eq_refl (around_pages_writable _)) as (st' & E & HE & HI).
    exists st'. split; [exact E|].
    split; [exact HE | exact (HI (ex_intro _ tt eq_refl))].
  - apply (Hfewer (nth 1 Scenario.with_notes ("", JNull))
             ("S1", JObj [("models",
                           JObj [("draft", JStr "tbd");
                                 ("2024款 Pro", Sample.model 1);
                                 ("Pro", Sample.model 2)])])).
    + right. left.
    + right. left.
    + simpl. lia.
  - apply (Hfinds eq_refl eq_refl (nth 1 Scenario.with_notes ("", JNull))
             ("S1", JObj [("models",
                           JObj [("draft", JStr "tbd");
                                 ("2024款 Pro", Sample.model 1);
                                 ("Pro", Sample.model 2)])])
             ("2024款 Pro", Sample.model 1)
             [("spec_id", JInt 1); ("price", JStr "12.58");
              ("config_data",
               JObj [("基本参数", JObj [("长", JInt 4000); ("宽", JFloat "1.8")])])]).
    + right. left.
    + right. left.
    + right. left.
    + reflexivity.
    + reflexivity.
Defined.

(** C1 as stated fails.  After a series of two models, a series without
    models is exported with the last model of the series before it: that
    model is exported twice, and listed under a series it is not in.
    When the last entry of a ['models'] is not a mapping the export is
    given up there: nothing is exported, not even the last model of the
    series after it, and no index page is written.  And when a page
    cannot be written the export stops there: the last model of the
    series after it is not exported and no index page is written. *)
Lemma export_all_specs_last_model_only_counterexample :
  (exports (snd (export_all_specs (Scenario.around (JObj Scenario.two_then_none))
                   (init (Scenario.around (JObj Scenario.two_then_none)))))
   = ["2"; "2"] /\
   indexes (snd (export_all_specs (Scenario.around (JObj Scenario.two_then_none))
                   (init (Scenario.around (JObj Scenario.two_then_none)))))
   = [[Summary "2" "Pro" "BrandA" "S1"; Summary "2" "Pro" "BrandA" "S2"]] /\
   map sum_specId
     (last_model_summaries (Scenario.around (JObj Scenario.two_then_none))
        Scenario.two_then_none)
   = ["2"]) /\
  (exports (snd (export_all_specs (Scenario.around (JObj Scenario.note_last))
                   (init (Scenario.around (JObj Scenario.note_last)))))
   = [] /\
   indexes (snd (export_all_specs (Scenario.around (JObj Scenario.note_last))
                   (init (Scenario.around (JObj Scenario.note_last)))))
   = [] /\
   map sum_specId
     (last_model_summaries (Scenario.around (JObj Scenario.note_last))
        Scenario.note_last)
   = ["3"]) /\
  (exports (snd (export_all_specs Scenario.pages_refused
                   (init Scenario.pages_refused)))
   = ["2"] /\
   indexes (snd (export_all_specs Scenario.pages_refused
                   (init Scenario.pages_refused)))
   = [] /\
   map sum_specId (last_model_summaries Scenario.pages_refused Sample.brands)
   = ["2"; "3"]).
Proof.
  split; [|split]; (split; [|split]); vm_compute; reflexivity.
Qed.

(** * Further properties of the code *)

(** ** [translate_text]: how often the service is called, and what is
    returned *)

Section RetryBudget.

Context (W : world) (text dest_lang key : string) (max_retries retry_delay : Z).

(** Whatever the service does, a run of the loop calls it for this text
    only, at most once per attempt, and sleeps the fixed delay at most
    once per attempt and never more often than it calls. *)
Lemma retry_loop_budget attempts st :
  exists k j,
    let st' := snd (retry_loop W text dest_lang key max_retries retry_delay
                      attempts st) in
    calls st' = calls st ++ replicate k (text, dest_lang) /\
    sleeps st' = sleeps st ++ replicate j retry_delay /\
    (k <= length attempts)%nat /\ (j <= length attempts)%nat /\ (j <= k)%nat.
Proof.
  revert st. induction attempts as [|attempt rest IH]; intros st.
  - exists 0%nat, 0%nat. simpl. rewrite !app_nil_r. repeat split; lia.
  - cbn [retry_loop]. unfold bind, try_except. rewrite attempt_body_eq.
    destruct ((0 <? attempt) && negb (sleep_ok W retry_delay)).
    { destruct (attempt =? max_retries - 1).
      - exists 0%nat, 0%nat. simpl. rewrite !app_nil_r. repeat split; lia.
      - destruct (IH st) as (k & j & Hc & Hs & Hk & Hj & Hjk).
        exists k, j. simpl in *. repeat split; try assumption; lia. }
    assert (Hstep : forall s1 : state,
      calls s1 = calls st ++ [(text, dest_lang)] ->
      (sleeps s1 = sleeps st \/ sleeps s1 = sleeps st ++ [retry_delay]) ->
      exists k j,
        calls s1 = calls st ++ replicate k (text, dest_lang) /\
        sleeps s1 = sleeps st ++ replicate j retry_delay /\
        (k <= S (length rest))%nat /\ (j <= S (length rest))%nat /\ (j <= k)%nat).
    { intros s1 Hc [Hs|Hs].
      - exists 1%nat, 0%nat. simpl. rewrite app_nil_r. repeat split; (assumption || lia).
      - exists 1%nat, 1%nat. simpl. repeat split; (assumption || lia). }
    destruct (provider W (length (calls st)) text dest_lang) as [translated|e];
      cbv zeta.
    + match goal with |- context [write_cache_file W ?s] =>
        destruct (write_cache_file_frame W s) as (_ & _ & Hcalls & Hsleeps & _) end.
      apply Hstep; cbn [ret snd]; [rewrite Hcalls | rewrite Hsleeps].
      * destruct (0 <? attempt); reflexivity.
      * destruct (0 <? attempt); [right | left]; reflexivity.
    + destruct (attempt =? max_retries - 1).
      * apply Hstep; [destruct (0 <? attempt); reflexivity|].
        destruct (0 <? attempt); [right | left]; reflexivity.
      * match goal with |- context [retry_loop _ _ _ _ _ _ _ ?s] =>
          destruct (IH s) as (k & j & Hc & Hs & Hk & Hj & Hjk); set (s1 := s) in * end.
        assert (Hc1 : calls s1 = calls st ++ [(text, dest_lang)])
          by (subst s1; destruct (0 <? attempt); reflexivity).
        assert (Hs1 : sleeps s1 = sleeps st \/ sleeps s1 = sleeps st ++ [retry_delay])
          by (subst s1; destruct (0 <? attempt); [right | left]; reflexivity).
        cbv zeta in Hc, Hs. rewrite Hc1 in Hc. rewrite <- app_assoc in Hc.
        destruct Hs1 as [Hs1|Hs1]; rewrite Hs1 in Hs.
        -- exists (S k), j. cbv zeta. simpl length.
           repeat split; (assumption || lia).
        -- rewrite <- app_assoc in Hs. exists (S k), (S j). cbv zeta. simpl length.
           repeat split; (assumption || lia).
Qed.

(** With an attempt left whose number is [max_retries - 1], the loop
    returns a string. *)
Lemma retry_loop_returns (n : nat) :
  forall a st,
    a + Z.of_nat (S n) = max_retries ->
    exists r,
      fst (retry_loop W text dest_lang key max_retries retry_delay
             (seqZ a (Z.of_nat (S n))) st) = Ok (Some r).
Proof.
  induction n as [|n IH]; intros a st Hend.
  - change (seqZ a (Z.of_nat 1)) with [a]. cbn [retry_loop].
    unfold bind, try_except.
    destruct (attempt_body W text dest_lang key retry_delay a st) as [[tr|e] st1].
    + exists tr. reflexivity.
    + replace (a =? max_retries - 1) with true by (symmetry; apply Z.eqb_eq; lia).
      exists text. reflexivity.
  - rewrite seqZ_cons by lia.
    replace (Z.pred (Z.of_nat (S (S n)))) with (Z.of_nat (S n)) by lia.
    cbn [retry_loop]. unfold bind, try_except.
    destruct (attempt_body W text dest_lang key retry_delay a st) as [[tr|e] st1].
    + exists tr. reflexivity.
    + destruct (a =? max_retries - 1); [exists text; reflexivity|].
      apply IH. lia.
Qed.

End RetryBudget.

Section RetryThenAnswer.

Context (W : world) (text dest_lang key : string) (max_retries retry_delay : Z).

Hypothesis sleep_accepted : sleep_ok W retry_delay = true.

(** Retries [a], [a+1], ...: the service fails [k] calls and answers the
    next one, before the attempts run out. *)
Lemma retry_loop_fail_then_answer (k : nat) :
  forall (n : nat) a st translated,
    1 <= a -> (k < n)%nat -> a + Z.of_nat n <= max_retries ->
    (forall i, (i < k)%nat ->
        exists e, provider W (length (calls st) + i) text dest_lang = Raise e) ->
    provider W (length (calls st) + k) text dest_lang = Ok translated ->
    exists st',
      retry_loop W text dest_lang key max_retries retry_delay
        (seqZ a (Z.of_nat n)) st = (Ok (Some translated), st') /\
      calls st' = calls st ++ replicate (S k) (text, dest_lang) /\
      sleeps st' = sleeps st ++ replicate (S k) retry_delay /\
      cache st' = <[key := translated]> (cache st) /\
      dumped_once W st st'.
Proof.
  induction k as [|k IH]; intros n a st translated Ha Hk Hend Hfail Hok;
    (destruct n as [|n]; [lia|]);
    rewrite seqZ_cons by lia;
    replace (Z.pred (Z.of_nat (S n))) with (Z.of_nat n) by lia;
    cbn [retry_loop]; unfold bind, try_except; rewrite attempt_body_eq;
    replace (0 <? a) with true by (symmetry; apply Z.ltb_lt; lia);
    rewrite sleep_accepted; simpl andb; cbv iota zeta.
  - rewrite Nat.add_0_r in Hok. rewrite Hok.
    match goal with |- context [write_cache_file W ?s] =>
      destruct (write_cache_file_frame W s) as (F1 & _ & F3 & F4 & _);
      pose proof (write_cache_file_dumped W s) as HD end.
    eexists. split; [reflexivity|]. cbn [snd].
    rewrite F1, F3, F4. repeat split.
    eapply dumped_once_from; [|exact HD]. repeat split.
  - destruct (Hfail 0%nat ltac:(lia)) as [e He]. rewrite Nat.add_0_r in He.
    rewrite He.
    replace (a =? max_retries - 1) with false by (symmetry; apply Z.eqb_neq; lia).
    match goal with |- context [retry_loop _ _ _ _ _ _ _ ?s] => set (s1 := s) end.
    assert (Hlen : length (calls s1) = S (length (calls st)))
      by (subst s1; simpl; rewrite length_app; simpl; lia).
    destruct (IH n (Z.succ a) s1 translated) as (st' & E & Hc & Hs & Hca & Hsa);
      [lia | lia | lia | | |].
    + intros i Hi. rewrite Hlen.
      replace (S (length (calls st)) + i)%nat with (length (calls st) + S i)%nat
        by lia.
      apply Hfail. lia.
    + rewrite Hlen.
      replace (S (length (calls st)) + k)%nat with (length (calls st) + S k)%nat
        by lia.
      exact Hok.
    + exists st'. split; [exact E|].
      subst s1. simpl in Hc, Hs, Hca.
      rewrite Hc, Hs, <- !app_assoc. repeat split; try assumption.
Qed.

(** Retries [a], ..., [max_retries - 1], the service failing each. *)
Lemma retry_loop_fail_each (k : nat) :
  forall a st,
    1 <= a -> a + Z.of_nat (S k) = max_retries ->
    (forall i, (i <= k)%nat ->
        exists e, provider W (length (calls st) + i) text dest_lang = Raise e) ->
    exists st',
      retry_loop W text dest_lang key max_retries retry_delay
        (seqZ a (Z.of_nat (S k))) st = (Ok (Some text), st') /\
      calls st' = calls st ++ replicate (S k) (text, dest_lang) /\
      cache st' = cache st /\ saves st' = saves st.
Proof.
  induction k as [|k IH]; intros a st Ha Hend Hfail;
    rewrite seqZ_cons by lia;
    [change (Z.pred (Z.of_nat 1)) with 0
    |replace (Z.pred (Z.of_nat (S (S k)))) with (Z.of_nat (S k)) by lia];
    cbn [retry_loop]; unfold bind, try_except; rewrite attempt_body_eq;
    replace (0 <? a) with true by (symmetry; apply Z.ltb_lt; lia);
    rewrite sleep_accepted; simpl andb; cbv iota zeta;
    (destruct (Hfail 0%nat ltac:(lia)) as [e He]); rewrite Nat.add_0_r in He;
    rewrite He.
  - replace (a =? max_retries - 1) with true by (symmetry; apply Z.eqb_eq; lia).
    eexists. split; [reflexivity|]. repeat split.
  - replace (a =? max_retries - 1) with false by (symmetry; apply Z.eqb_neq; lia).
    match goal with |- context [retry_loop _ _ _ _ _ _ _ ?s] => set (s1 := s) end.
    assert (Hlen : length (calls s1) = S (length (calls st)))
      by (subst s1; simpl; rewrite length_app; simpl; lia).
    destruct (IH (Z.succ a) s1) as (st' & E & Hc & Hca & Hsa); [lia | lia | |].
    + intros i Hi. rewrite Hlen.
      replace (S (length (calls st)) + i)%nat with (length (calls st) + S i)%nat
        by lia.
      apply Hfail. lia.
    + exists st'. split; [exact E|]. subst s1. simpl in Hc, Hca, Hsa.
      rewrite Hc, <- !app_assoc. repeat split; assumption.
Qed.

End RetryThenAnswer.

(** X1: whatever the service and [time.sleep] do, one call of
    [translate_text] calls the service for the given text and language
    only, at most [max_retries] times, and sleeps [retry_delay] -- never
    another delay -- once less than it calls at most. *)
Theorem translate_text_bounded_retry (W : world) (text dest_lang : string)
    (max_retries retry_delay : Z) (st : state) :
  exists k j,
    let st' := snd (translate_text W text dest_lang max_retries retry_delay st) in
    calls st' = calls st ++ replicate k (text, dest_lang) /\
    sleeps st' = sleeps st ++ replicate j retry_delay /\
    (k <= Z.to_nat max_retries)%nat /\
    (j <= Nat.pred k)%nat.
Proof.
  assert (Hnone : forall s : state, calls s = calls st -> sleeps s = sleeps st ->
    exists k j,
      calls s = calls st ++ replicate k (text, dest_lang) /\
      sleeps s = sleeps st ++ replicate j retry_delay /\
      (k <= Z.to_nat max_retries)%nat /\ (j <= Nat.pred k)%nat).
  { intros s Hc Hs. exists 0%nat, 0%nat. simpl. rewrite !app_nil_r.
    repeat split; (assumption || lia). }
  destruct (String.eqb_spec text "") as [E1|N1].
  { rewrite translate_text_passthrough by (left; exact E1). apply Hnone; reflexivity. }
  destruct (String.eqb_spec text not_applicable) as [E2|N2].
  { rewrite translate_text_passthrough by (right; exact E2). apply Hnone; reflexivity. }
  rewrite translate_text_proper by assumption.
  destruct (cache st !! cache_key text dest_lang) as [cached|];
    [apply Hnone; reflexivity|].
  destruct (Z.le_gt_cases max_retries 0) as [Hle|Hpos].
  { rewrite range_nonpositive by exact Hle. apply Hnone; reflexivity. }
  unfold range. rewrite seqZ_cons by lia.
  cbn [retry_loop]. unfold bind, try_except. rewrite attempt_body_eq.
  simpl andb. cbv iota zeta.
  destruct (provider W (length (calls st)) text dest_lang) as [translated|e].
  - match goal with |- context [write_cache_file W ?s] =>
      destruct (write_cache_file_frame W s) as (_ & _ & Hcalls & Hsleeps & _) end.
    exists 1%nat, 0%nat. cbn [ret snd]. rewrite Hcalls, Hsleeps. simpl.
    rewrite app_nil_r. repeat split; lia.
  - destruct (0 =? max_retries - 1).
    + exists 1%nat, 0%nat. simpl. rewrite app_nil_r. repeat split; lia.
    + match goal with |- context [retry_loop _ _ _ _ _ _ ?l ?s] =>
        destruct (retry_loop_budget W text dest_lang (cache_key text dest_lang)
                    max_retries retry_delay l s)
          as (k & j & Hc & Hs & Hk & _ & Hjk) end.
      rewrite length_seqZ in Hk. cbv zeta in Hc, Hs. simpl in Hc, Hs.
      rewrite <- app_assoc in Hc.
      exists (S k), j. cbv zeta. repeat split; (assumption || lia).
Qed.

(** X2: for a text that is neither empty nor 'N/A', what [translate_text]
    returns is what the cache holds under the key once the call is over;
    when the cache then holds nothing under the key and at least one
    attempt was allowed, it is the text itself. *)
Theorem translate_text_returns_cached_or_text (W : world) (text dest_lang : string)
    (max_retries retry_delay : Z) (st : state) :
  text <> "" -> text <> not_applicable ->
  let r := translate_text W text dest_lang max_retries retry_delay st in
  (forall v, cache (snd r) !! cache_key text dest_lang = Some v ->
             fst r = Ok (Some v)) /\
  (cache (snd r) !! cache_key text dest_lang = None -> 1 <= max_retries ->
   fst r = Ok (Some text)).
Proof.
  intros H1 H2. cbv zeta. rewrite translate_text_proper by assumption.
  destruct (cache st !! cache_key text dest_lang) as [cached|] eqn:Hc.
  { simpl. rewrite Hc. split; [intros v [= ->]; reflexivity | discriminate]. }
  pose proof (retry_loop_returns W text dest_lang (cache_key text dest_lang)
                max_retries retry_delay (Z.to_nat (max_retries - 1)) 0 st) as Hret.
  destruct (retry_loop_effect W text dest_lang (cache_key text dest_lang)
              max_retries retry_delay (range max_retries) st)
    as (o & st' & E & _ & [(C1 & _ & Ho) | (tr & -> & C1 & _)]).
  - rewrite E. simpl. rewrite C1, Hc. split; [discriminate|].
    intros _ Hpos. destruct Ho as [->| ->]; [|reflexivity].
    destruct Hret as [r Hr]; [lia|].
    unfold range in E.
    replace (Z.of_nat (S (Z.to_nat (max_retries - 1)))) with max_retries in Hr by lia.
    rewrite E in Hr. discriminate Hr.
  - rewrite E. simpl. rewrite C1, lookup_insert_eq.
    split; [intros v [= ->]; reflexivity | discriminate].
Qed.

Lemma translate_text_returns_cached_or_text_witness :
  fst (translate_text Sample.failing "hello" "pl" 3 1 (init Sample.failing))
  = Ok (Some "hello").
Proof.
  apply (translate_text_returns_cached_or_text Sample.failing "hello" "pl" 3 1
           (init Sample.failing));
    [discriminate | discriminate | reflexivity | lia].
Defined.

(** X3: for a text that is neither empty nor 'N/A' and is not cached, when
    the service fails its next [k] calls and answers the one after, with
    [k] less than [max_retries] and the delay accepted by [time.sleep],
    [translate_text] returns the answer after [k + 1] calls and [k]
    sleeps, stores it under the key and tries one dump of the cache: the
    file holds the new cache when the write succeeds, and when it fails
    the failure is caught, the answer returned and cached all the same,
    and the file left as it was or cut short. *)
Theorem translate_text_answer_after_failures (W : world) (text dest_lang : string)
    (max_retries retry_delay : Z) (k : nat) (translated : string) (st : state) :
  text <> "" -> text <> not_applicable ->
  cache st !! cache_key text dest_lang = None ->
  Z.of_nat k < max_retries ->
  sleep_ok W retry_delay = true ->
  (forall i, (i < k)%nat ->
      exists e, provider W (length (calls st) + i) text dest_lang = Raise e) ->
  provider W (length (calls st) + k) text dest_lang = Ok translated ->
  exists st',
    translate_text W text dest_lang max_retries retry_delay st
      = (Ok (Some translated), st') /\
    calls st' = calls st ++ replicate (S k) (text, dest_lang) /\
    sleeps st' = sleeps st ++ replicate k retry_delay /\
    cache st' = <[cache_key text dest_lang := translated]> (cache st) /\
    dumped_once W st st'.
Proof.
  intros H1 H2 Hmiss Hk Hsleep Hfail Hok.
  rewrite translate_text_proper, Hmiss by assumption.
  destruct k as [|k].
  - rewrite Nat.add_0_r in Hok.
    rewrite (retry_loop_first_success W _ _ _ _ _ translated st) by (lia || exact Hok).
    cbv zeta.
    match goal with |- context [write_cache_file W ?s] =>
      destruct (write_cache_file_frame W s) as (F1 & _ & F3 & F4 & _);
      pose proof (write_cache_file_dumped W s) as HD end.
    eexists. split; [reflexivity|]. rewrite F1, F3, F4. simpl.
    rewrite app_nil_r. repeat split.
    eapply dumped_once_from; [|exact HD]. repeat split.
  - unfold range. rewrite seqZ_cons by lia.
    cbn [retry_loop]. unfold bind, try_except. rewrite attempt_body_eq.
    simpl andb. cbv iota zeta.
    destruct (Hfail 0%nat ltac:(lia)) as [e He]. rewrite Nat.add_0_r in He.
    rewrite He.
    replace (0 =? max_retries - 1) with false by (symmetry; apply Z.eqb_neq; lia).
    match goal with |- context [retry_loop _ _ _ _ _ _ _ ?s] => set (s1 := s) end.
    assert (Hlen : length (calls s1) = S (length (calls st)))
      by (subst s1; simpl; rewrite length_app; simpl; lia).
    replace (Z.pred max_retries) with (Z.of_nat (Z.to_nat (max_retries - 1))) by lia.
    destruct (retry_loop_fail_then_answer W text dest_lang (cache_key text dest_lang)
                max_retries retry_delay Hsleep k (Z.to_nat (max_retries - 1))
                (Z.succ 0) s1 translated)
      as (st' & E & Hc & Hs & Hca & Hsa); [lia | lia | lia | | |].
    + intros i Hi. rewrite Hlen.
      replace (S (length (calls st)) + i)%nat with (length (calls st) + S i)%nat
        by lia.
      apply Hfail. lia.
    + rewrite Hlen.
      replace (S (length (calls st)) + k)%nat with (length (calls st) + S k)%nat
        by lia.
      exact Hok.
    + exists st'. split; [exact E|]. subst s1. simpl in Hc, Hs, Hca, Hsa.
      rewrite Hc, <- app_assoc. repeat split; assumption.
Qed.

Lemma translate_text_answer_after_failures_witness :
  exists st',
    translate_text Scenario.flaky "hello" "pl" 3 1 (init Scenario.flaky)
      = (Ok (Some "pl:hello"), st') /\
    calls st' = [("hello", "pl"); ("hello", "pl"); ("hello", "pl")] /\
    sleeps st' = [1; 1].
Proof.
  destruct (translate_text_answer_after_failures Scenario.flaky "hello" "pl" 3 1
              2 "pl:hello" (init Scenario.flaky))
    as (st' & E & Hc & Hs & _);
    [discriminate | discriminate | reflexivity | lia | reflexivity
    | intros i Hi; destruct i as [|[|i]]; [eexists; reflexivity ..|lia]
    | reflexivity |].
  exists st'. split; [exact E|]. split; [exact Hc | exact Hs].
Defined.

(** X4: a translation that failed is not remembered.  For a text that is
    neither empty nor 'N/A' and is not cached, when the service fails all
    [max_retries] calls of one [translate_text] and answers the call
    after them, that [translate_text] returns the text and the next one,
    with at least one attempt allowed, calls the service again and
    returns the answer. *)
Theorem translate_text_failure_is_retried (W : world) (text dest_lang : string)
    (max_retries retry_delay max_retries' retry_delay' : Z)
    (translated : string) (st : state) :
  text <> "" -> text <> not_applicable ->
  cache st !! cache_key text dest_lang = None ->
  1 <= max_retries -> 1 <= max_retries' ->
  sleep_ok W retry_delay = true ->
  (forall i, (i < Z.to_nat max_retries)%nat ->
      exists e, provider W (length (calls st) + i) text dest_lang = Raise e) ->
  provider W (length (calls st) + Z.to_nat max_retries) text dest_lang
    = Ok translated ->
  exists st1 st2,
    translate_text W text dest_lang max_retries retry_delay st
      = (Ok (Some text), st1) /\
    translate_text W text dest_lang max_retries' retry_delay' st1
      = (Ok (Some translated), st2) /\
    calls st2 = calls st ++ replicate (S (Z.to_nat max_retries)) (text, dest_lang) /\
    cache st2 !! cache_key text dest_lang = Some translated.
Proof.
  intros H1 H2 Hmiss Hpos Hpos' Hsleep Hfail Hok.
  assert (Hfirst : exists st1,
    translate_text W text dest_lang max_retries retry_delay st
      = (Ok (Some text), st1) /\
    calls st1 = calls st ++ replicate (Z.to_nat max_retries) (text, dest_lang) /\
    cache st1 = cache st).
  { rewrite translate_text_proper, Hmiss by assumption.
    unfold range. rewrite seqZ_cons by lia.
    cbn [retry_loop]. unfold bind, try_except. rewrite attempt_body_eq.
    simpl andb. cbv iota zeta.
    destruct (Hfail 0%nat ltac:(lia)) as [e He]. rewrite Nat.add_0_r in He.
    rewrite He.
    destruct (Z.eqb_spec 0 (max_retries - 1)) as [Hone|Hmore].
    - eexists. split; [reflexivity|].
      replace (Z.to_nat max_retries) with 1%nat by lia. split; reflexivity.
    - match goal with |- context [retry_loop _ _ _ _ _ _ _ ?s] => set (s1 := s) end.
      assert (Hlen : length (calls s1) = S (length (calls st)))
        by (subst s1; simpl; rewrite length_app; simpl; lia).
      replace (Z.pred max_retries)
        with (Z.of_nat (S (Z.to_nat (max_retries - 2)))) by lia.
      destruct (retry_loop_fail_each W text dest_lang (cache_key text dest_lang)
                  max_retries retry_delay Hsleep (Z.to_nat (max_retries - 2))
                  (Z.succ 0) s1)
        as (st1 & E & Hc & Hca & _); [lia | lia | |].
      + intros i Hi. rewrite Hlen.
        replace (S (length (calls st)) + i)%nat with (length (calls st) + S i)%nat
          by lia.
        apply Hfail. lia.
      + exists st1. split; [exact E|]. subst s1. simpl in Hc, Hca.
        rewrite Hc, <- app_assoc.
        replace (Z.to_nat max_retries) with (S (S (Z.to_nat (max_retries - 2))))
          by lia.
        split; [reflexivity | exact Hca]. }
  destruct Hfirst as (st1 & E1 & Hc1 & Hca1).
  exists st1. rewrite E1.
  rewrite translate_text_proper, Hca1, Hmiss by assumption.
  assert (Hnext : provider W (length (calls st1)) text dest_lang = Ok translated).
  { rewrite Hc1, length_app, length_replicate. exact Hok. }
  rewrite (retry_loop_first_success W _ _ _ _ _ translated st1 Hpos' Hnext).
  cbv zeta.
  match goal with |- context [write_cache_file W ?s] =>
    destruct (write_cache_file_frame W s) as (F1 & _ & F3 & _) end.
  eexists. split; [reflexivity|]. split; [reflexivity|].
  rewrite F1, F3. simpl.
  rewrite Hc1, <- app_assoc, lookup_insert_eq. split; [|reflexivity].
  f_equal. symmetry. apply replicate_cons_app.
Qed.

Lemma translate_text_failure_is_retried_witness :
  exists st1 st2,
    translate_text Scenario.flaky "hello" "pl" 2 1 (init Scenario.flaky)
      = (Ok (Some "hello"), st1) /\
    translate_text Scenario.flaky "hello" "pl" 3 1 st1
      = (Ok (Some "pl:hello"), st2) /\
    cache st2 !! "hello_pl" = Some "pl:hello".
Proof.
  destruct (translate_text_failure_is_retried Scenario.flaky "hello" "pl" 2 1 3 1
              "pl:hello" (init Scenario.flaky))
    as (st1 & st2 & E1 & E2 & _ & Hc);
    [discriminate | discriminate | reflexivity | lia | lia | reflexivity
    | intros i Hi; destruct i as [|[|i]]; [eexists; reflexivity ..|simpl in Hi; lia]
    | reflexivity |].
  exists st1, st2. split; [exact E1|]. split; [exact E2 | exact Hc].
Defined.

(** ** [batch_translate] *)

Section BatchTranslate.

Context (W : world).

(** A call with the default arguments returns a string: the text itself,
    or the translation the cache then holds. *)
Lemma translate_text_default_value text dest_lang st :
  exists s st1,
    translate_text_default W text dest_lang st = (Ok (Some s), st1) /\
    cache st ⊆ cache st1 /\
    (s = text \/ cache st1 !! cache_key text dest_lang = Some s).
Proof.
  unfold translate_text_default.
  destruct (String.eqb_spec text "") as [E1|N1].
  { exists text, st. rewrite translate_text_passthrough by (left; exact E1).
    split; [reflexivity|]. split; [reflexivity | left; reflexivity]. }
  destruct (String.eqb_spec text not_applicable) as [E2|N2].
  { exists text, st. rewrite translate_text_passthrough by (right; exact E2).
    split; [reflexivity|]. split; [reflexivity | left; reflexivity]. }
  rewrite translate_text_proper by assumption.
  destruct (cache st !! cache_key text dest_lang) as [cached|] eqn:Hc.
  { exists cached, st. split; [reflexivity|]. split; [reflexivity | right; exact Hc]. }
  pose proof (retry_loop_returns W text dest_lang (cache_key text dest_lang)
                default_max_retries default_retry_delay 2 0 st eq_refl) as [r Hr].
  change (seqZ 0 (Z.of_nat 3)) with (range default_max_retries) in Hr.
  destruct (retry_loop_effect W text dest_lang (cache_key text dest_lang)
              default_max_retries default_retry_delay (range default_max_retries) st)
    as (o & st' & E & _ & [(C1 & _ & Ho) | (tr & -> & C1 & _)]).
  - rewrite E in *. simpl in Hr. destruct Ho as [->| ->]; [discriminate Hr|].
    exists text, st'. split; [reflexivity|]. rewrite C1.
    split; [reflexivity | left; reflexivity].
  - rewrite E. exists tr, st'. split; [reflexivity|]. rewrite C1.
    split; [apply insert_subseteq; exact Hc | right; apply lookup_insert_eq].
Qed.

Lemma batch_translate_values texts dest_lang :
  forall st,
  exists results st',
    batch_translate W texts dest_lang st = (Ok results, st') /\
    cache st ⊆ cache st' /\
    Forall2
      (fun text r =>
         exists s, r = Some s /\
                   (s = text \/ cache st' !! cache_key text dest_lang = Some s))
      texts results.
Proof.
  unfold batch_translate.
  induction texts as [|text texts IH]; intros st; cbn [for_list].
  - exists [], st. split; [reflexivity|]. split; [reflexivity | constructor].
  - unfold bind at 1.
    destruct (translate_text_default_value text dest_lang st)
      as (s & st1 & -> & Hsub1 & Hs).
    unfold bind at 1.
    destruct (IH st1) as (results & st' & -> & Hsub & Hall).
    exists (Some s :: results), st'. split; [reflexivity|].
    split; [etransitivity; eassumption|].
    constructor; [|exact Hall].
    exists s. split; [reflexivity|].
    destruct Hs as [Hs|Hs]; [left; exact Hs|].
    right. eapply lookup_weaken; eassumption.
Qed.

End BatchTranslate.

(** X5: [batch_translate] never raises and returns one string per text,
    in the order of the texts: at each position the text itself, or a
    translation of it that the cache holds when the batch is over.  A
    text whose translation fails, or that is empty or 'N/A', keeps its
    place and does not disturb the others. *)
Theorem batch_translate_keeps_order (W : world) (texts : list string)
    (dest_lang : string) (st : state) :
  exists results st',
    batch_translate W texts dest_lang st = (Ok results, st') /\
    length results = length texts /\
    (forall i text,
        texts !! i = Some text ->
        exists s,
          results !! i = Some (Some s) /\
          (s = text \/ cache st' !! cache_key text dest_lang = Some s)).
Proof.
  destruct (batch_translate_values W texts dest_lang st)
    as (results & st' & E & _ & Hall).
  exists results, st'. split; [exact E|].
  split; [symmetry; eapply Forall2_length; exact Hall|].
  intros i text Hi.
  destruct (Forall2_lookup_l _ _ _ _ _ Hall Hi) as (r & Hr & s & -> & Hs).
  exists s. split; [exact Hr | exact Hs].
Qed.

(** ** What every operation keeps *)

Section EveryOperation.

Context (W : world) (R : relation state) `{!PreOrder R}.

(** [R] holds across a step that leaves the translation cache, the cache
    file and the memoized specs alone, across [translate_text] and across
    [load_spec_data]. *)
Hypothesis frame :
  forall st st',
    cache st' = cache st -> same_file st st' ->
    spec_data_cache st' = spec_data_cache st -> R st st'.
Hypothesis translate_text_R :
  forall text dest_lang max_retries retry_delay,
    safe R (translate_text W text dest_lang max_retries retry_delay).
Hypothesis load_spec_data_R : forall spec_id, safe R (load_spec_data W spec_id).

Ltac kept_step :=
  first
    [ apply keeps_lift
    | apply keeps_raise
    | apply safe_keeps, safe_ret
    | apply safe_keeps, safe_modify; instances;
      intros ?; apply frame; repeat split
    | apply safe_keeps, load_spec_data_R
    | apply safe_keeps, render_tables_safe; instances; apply translate_text_R
    | apply safe_keeps, safe_try_except; instances;
      apply translate_spec_keeps; instances; apply translate_text_R ];
  instances.

Ltac kept_bind := apply keeps_bind; instances; [kept_step|].

Lemma export_spec_info_kept spec_id : keeps R (export_spec_info W spec_id).
Proof.
  unfold export_spec_info.
  kept_bind. intros _. kept_bind.
  intros [spec|]; [|kept_step].
  kept_bind. intros [polish_info|e]; [|kept_step].
  kept_bind. intros car_images. kept_bind. intros tables.
  kept_bind. intros _. kept_step.
Qed.

Lemma export_index_html_kept specs : keeps R (export_index_html W specs).
Proof. unfold export_index_html. kept_bind. intros _. kept_step. Qed.

Lemma export_last_kept brand_name series_name specs b :
  keeps R (export_last W brand_name series_name specs b).
Proof.
  unfold export_last.
  destruct b as [[model_name []]|]; try kept_step.
  destruct (String.eqb _ ""); [kept_step|].
  apply keeps_bind; instances; [apply export_spec_info_kept|]. intros _. kept_step.
Qed.

Lemma export_series_kept brand_name series acc :
  keeps R (export_series W brand_name series acc).
Proof.
  unfold export_series. apply keeps_for_each; instances.
  intros [specs b] [series_name []]; try kept_step.
  destruct (Dict.lookup "models" members) as [models|]; [|kept_step].
  kept_bind. intros ms.
  apply keeps_bind; instances; [apply export_last_kept|]. intros specs'. kept_step.
Qed.

Lemma export_brands_kept brands acc : keeps R (export_brands W brands acc).
Proof.
  unfold export_brands. apply keeps_for_each; instances.
  intros acc' [brand_name []]; try kept_step.
  destruct (Dict.lookup "series" members) as [series|]; [|kept_step].
  kept_bind. intros ss. apply export_series_kept.
Qed.

Lemma export_all_specs_kept : keeps R (export_all_specs W).
Proof.
  unfold export_all_specs.
  apply keeps_bind; instances; [|intros ?; kept_step].
  apply safe_keeps, safe_try_except; instances. unfold export_all_specs_body.
  kept_bind. intros data. kept_bind. intros brands.
  apply keeps_bind; instances; [apply export_brands_kept|]. intros locals.
  apply export_index_html_kept.
Qed.

(** Every operation but a bare [_save_cache] keeps [R]. *)
Lemma perform_kept op st : op <> Op_save_cache -> R st (perform W op st).
Proof.
  intros Hop. destruct op; simpl.
  - contradiction.
  - exact (safe_keeps R _ (load_spec_data_R _) st).
  - exact (safe_keeps R _ (translate_text_R _ _ _ _) st).
  - exact (safe_keeps R _ (batch_translate_safe R W translate_text_R _ _) st).
  - exact (export_spec_info_kept _ st).
  - exact (export_index_html_kept _ st).
  - exact (export_all_specs_kept st).
Qed.

(** So does every sequence of operations: without a bare [_save_cache],
    or with one when [_save_cache] keeps [R] too. *)
Lemma perform_all_kept_public ops st :
  Op_save_cache ∉ ops -> R st (perform_all W ops st).
Proof.
  unfold perform_all. revert st. induction ops as [|op ops IH]; intros st Hno.
  - reflexivity.
  - simpl. transitivity (perform W op st).
    + apply perform_kept. intros ->. apply Hno. left.
    + apply IH. intros Hin. apply Hno. right. exact Hin.
Qed.

Lemma perform_all_kept ops st :
  (forall s, R s (perform W Op_save_cache s)) -> R st (perform_all W ops st).
Proof.
  intros Hsave. unfold perform_all. revert st.
  induction ops as [|op ops IH]; intros st.
  - reflexivity.
  - simpl. transitivity (perform W op st); [|apply IH].
    destruct op; try (apply perform_kept; discriminate). apply Hsave.
Qed.

End EveryOperation.

(** ** Flattening the configuration *)

Section Flatten.

Context (W : world).

Lemma flatten_params_mapping category acc ps :
  flatten_params W category acc (JObj ps)
  = Ok (acc ++ map (qualified W category) ps).
Proof.
  unfold flatten_params. cbn [items]. revert acc.
  induction ps as [|[param_name param_value] ps IH]; intros acc; simpl.
  - rewrite app_nil_r. reflexivity.
  - rewrite IH, <- app_assoc. reflexivity.
Qed.

Lemma flatten_categories categories :
  forall acc,
    for_collect
      (fun acc '(category, params) => flatten_params W category acc params)
      categories acc
    = if all_mappings categories then Ok (acc ++ flat_params W categories)
      else Raise AttributeError.
Proof.
  induction categories as [|[category params] categories IH]; intros acc.
  - simpl. rewrite app_nil_r. reflexivity.
  - cbn [for_collect].
    destruct params as [| | | | | |ps]; try reflexivity.
    rewrite flatten_params_mapping, IH.
    unfold all_mappings, flat_params. simpl.
    destruct (forallb _ categories); [|reflexivity].
    rewrite app_assoc. reflexivity.
Qed.

Lemma flat_params_names categories :
  Forall (fun p => Str.occurs "-" (fst p)) (flat_params W categories).
Proof.
  apply Forall_forall. intros p Hin. unfold flat_params in Hin.
  apply list_elem_of_In, in_flat_map in Hin as ([category params] & _ & Hin).
  apply in_map_iff in Hin as ([param_name param_value] & <- & _).
  exists category, param_name. reflexivity.
Qed.

End Flatten.

(** X6: the two loops of [load_spec_data] over ['config_data'] produce one
    (category-parameter, stringified value) pair per parameter, categories
    in document order and parameters in document order within each; they
    raise exactly when ['config_data'] or one of its categories is not a
    mapping. *)
Theorem flatten_config_in_document_order (W : world) (config_data : json) :
  flatten_config W config_data =
    match config_data with
    | JObj categories =>
        if all_mappings categories then Ok (flat_params W categories)
        else Raise AttributeError
    | _ => Raise AttributeError
    end.
Proof.
  destruct config_data as [| | | | | |categories]; try reflexivity.
  unfold flatten_config. cbn [items]. apply flatten_categories.
Qed.

(** ** [load_spec_data]: memoization and order of the lookup *)

Section ForReturn.

Context {A R : Type}.

Lemma for_return_app (body : A -> outcome (option R)) l1 l2 :
  for_return body (l1 ++ l2) =
    match for_return body l1 with
    | Ok None => for_return body l2
    | r => r
    end.
Proof.
  induction l1 as [|x l1 IH]; simpl; [reflexivity|].
  destruct (body x) as [[r|]|e]; [reflexivity | exact IH | reflexivity].
Qed.

Lemma for_return_skip (body : A -> outcome (option R)) l :
  (forall x, x ∈ l -> body x = Ok None) -> for_return body l = Ok None.
Proof.
  induction l as [|x l IH]; intros H; simpl; [reflexivity|].
  rewrite (H x) by left. apply IH. intros y Hy. apply H. right. exact Hy.
Qed.

Lemma for_return_map {B} (h : B -> A) (body : A -> outcome (option R))
    (body' : B -> outcome (option R)) l :
  (forall x, body' x = body (h x)) ->
  for_return body' l = for_return body (map h l).
Proof.
  intros H. induction l as [|x l IH]; simpl; [reflexivity|].
  rewrite H, IH. reflexivity.
Qed.

(** A loop whose body is itself a loop visits the concatenation. *)
Lemma for_return_flat_map {B} (f : B -> list A) (body : A -> outcome (option R))
    (body' : B -> outcome (option R)) l :
  (forall x, x ∈ l -> body' x = for_return body (f x)) ->
  for_return body' l = for_return body (flat_map f l).
Proof.
  induction l as [|x l IH]; intros H; simpl; [reflexivity|].
  rewrite for_return_app, (H x) by left.
  rewrite IH by (intros y Hy; apply H; right; exact Hy).
  destruct (for_return body (f x)) as [[r|]|e]; reflexivity.
Qed.

End ForReturn.

Section Lookup.

Context (W : world).

(** On a traversable catalog the three nested loops are one loop over
    the models in document order. *)
Lemma scan_brands_entries spec_id brands :
  traversable brands = true ->
  scan_brands W spec_id brands = for_return (visit W spec_id) (entries brands).
Proof.
  intros Htr. unfold traversable in Htr. rewrite forallb_forall in Htr.
  unfold scan_brands, entries. apply for_return_flat_map.
  intros [brand_name brand_data] Hb.
  pose proof (Htr _ (proj1 (list_elem_of_In _ _) Hb)) as Hbrand.
  unfold brand_entries. cbn [fst snd] in *.
  destruct brand_data as [| | | | | |bd]; try reflexivity.
  cbn [brand_series traversable_brand] in *.
  destruct (Dict.lookup "series" bd) as [[| | | | | |ss]|]; try discriminate;
    [|reflexivity].
  cbn [items]. rewrite forallb_forall in Hbrand.
  unfold scan_series. apply for_return_flat_map.
  intros [series_name series_data] Hs.
  pose proof (Hbrand _ (proj1 (list_elem_of_In _ _) Hs)) as Hseries.
  unfold series_entries. cbn [fst snd] in *.
  destruct series_data as [| | | | | |sd]; try reflexivity.
  cbn [series_models traversable_series] in *.
  destruct (Dict.lookup "models" sd) as [[| | | | | |ms]|]; try discriminate;
    [|reflexivity].
  cbn [items]. unfold scan_models. apply for_return_map.
  intros [model_name model_data]. reflexivity.
Qed.

Lemma make_spec_data_sound brand_name brand_data series_name model_name
    model_data spec :
  make_spec_data W brand_name brand_data series_name model_name model_data
    = Ok spec ->
  sound_spec W (py_str W (Dict.get "spec_id" JNull model_data)) spec.
Proof.
  intros Hmk.
  pose proof (make_spec_data_fields W _ _ _ _ _ _ Hmk) as (Hid & Hn & _ & _ & Hy).
  split; [rewrite Hid; reflexivity|]. split; [rewrite Hy, Hn; reflexivity|].
  intros params Hp. unfold make_spec_data in Hmk.
  destruct (Dict.lookup "config_data" model_data) as [config|].
  - destruct config as [| | | | | |categories]; try discriminate.
    unfold flatten_config in Hmk. cbn [items] in Hmk.
    rewrite flatten_categories in Hmk.
    destruct (all_mappings categories); [|discriminate].
    injection Hmk as <-. simpl in Hp. injection Hp as <-.
    apply flat_params_names.
  - injection Hmk as <-. discriminate Hp.
Qed.

Lemma scan_brands_sound spec_id brands spec :
  scan_brands W spec_id brands = Ok (Some spec) -> sound_spec W spec_id spec.
Proof.
  intros H. apply scan_brands_found in H
    as (bn & bd & ss & sn & sd & ms & mn & md & _ & _ & _ & _ & _ & <- & H).
  eapply make_spec_data_sound. exact H.
Qed.

End Lookup.

(** X7: a spec that [load_spec_data] has returned is returned again by
    every later call for the same id, from the memo alone: the state is
    not changed, and the result is the same even if the catalog has
    become unreadable or holds other data.  A call that returns [None]
    memoizes nothing: the state is as before. *)
Theorem load_spec_data_memoizes (W : world) (spec_id : string)
    (r : option spec_data) (st st1 : state) :
  load_spec_data W spec_id st = (Ok r, st1) ->
  (forall spec, r = Some spec ->
     forall W', load_spec_data W' spec_id st1 = (Ok (Some spec), st1)) /\
  (r = None -> st1 = st).
Proof.
  intros Hload.
  destruct (spec_data_cache st !! spec_id) as [memo|] eqn:Hm.
  - rewrite (load_spec_data_hit W _ _ _ Hm) in Hload. injection Hload as <- <-.
    split; [|discriminate].
    intros spec [= <-] W'. apply load_spec_data_hit. exact Hm.
  - rewrite (load_spec_data_miss W _ _ Hm) in Hload.
    assert (Hnone : (Ok None, st) = (Ok r, st1) ->
      (forall spec, r = Some spec ->
         forall W', load_spec_data W' spec_id st1 = (Ok (Some spec), st1)) /\
      (r = None -> st1 = st)).
    { intros [= <- <-]. split; [discriminate | reflexivity]. }
    destruct (catalog_file W) as [[| | | | | |brands]|]; try exact (Hnone Hload).
    destruct (scan_brands W spec_id brands) as [[found|]|];
      try exact (Hnone Hload).
    injection Hload as <- <-. split; [|discriminate].
    intros spec [= <-] W'. apply load_spec_data_hit. simpl.
    apply lookup_insert_eq.
Qed.

Lemma load_spec_data_memoizes_witness :
  exists spec st1,
    load_spec_data Sample.answering "1" (init Sample.answering)
      = (Ok (Some spec), st1) /\
    load_spec_data Sample.unreadable "1" st1 = (Ok (Some spec), st1).
Proof.
  destruct (load_spec_data Sample.answering "1" (init Sample.answering))
    as [[[spec|]|e] st1] eqn:E; try (vm_compute in E; discriminate E).
  exists spec, st1. split; [reflexivity|].
  apply (proj1 (load_spec_data_memoizes Sample.answering "1" (Some spec)
                  (init Sample.answering) st1 E) spec eq_refl).
Defined.

(** X8: when no model of the catalog has the requested id, [load_spec_data]
    (for an id it has not memoized) returns [None] and changes nothing --
    whatever else the catalog holds, well formed or not. *)
Theorem load_spec_data_unknown_id (W : world) (spec_id : string)
    (brands : list (string * json)) (st : state) :
  spec_data_cache st !! spec_id = None ->
  catalog_file W = Ok (JObj brands) ->
  (forall brand series model,
      brand ∈ brands -> series ∈ brand_series (snd brand) ->
      model ∈ series_models (snd series) ->
      model_spec_id W (snd model) <> spec_id) ->
  load_spec_data W spec_id st = (Ok None, st).
Proof.
  intros Hmiss Hfile Hnone.
  rewrite load_spec_data_miss, Hfile by exact Hmiss.
  destruct (scan_brands W spec_id brands) as [[spec|]|] eqn:Hscan; try reflexivity.
  exfalso.
  apply scan_brands_found in Hscan
    as (bn & bd & ss & sn & sd & ms & mn & md & Hb & Hss & Hs & Hms & Hm & Hid & _).
  apply (Hnone (bn, JObj bd) (sn, JObj sd) (mn, JObj md)).
  - exact Hb.
  - simpl. rewrite Hss. exact Hs.
  - simpl. rewrite Hms. exact Hm.
  - exact Hid.
Qed.

Lemma load_spec_data_unknown_id_witness :
  load_spec_data Sample.answering "404" (init Sample.answering)
  = (Ok None, init Sample.answering).
Proof.
  apply (load_spec_data_unknown_id Sample.answering "404" Sample.brands
           (init Sample.answering)); [reflexivity | reflexivity |].
  intros brand series model Hb Hs Hm.
  apply list_elem_of_singleton in Hb as ->. simpl in Hs.
  apply elem_of_cons in Hs as [->|Hs];
    [|apply list_elem_of_singleton in Hs as ->]; simpl in Hm.
  - apply elem_of_cons in Hm as [->|Hm];
      [|apply list_elem_of_singleton in Hm as ->]; discriminate.
  - apply list_elem_of_singleton in Hm as ->. discriminate.
Defined.

(** X9: on a catalog in which every ['series'] and every ['models'] is a
    mapping, [load_spec_data] returns the first model, in document order
    over brands, series and models, whose stringified id is the requested
    one, and memoizes it; models before it with another id, and entries
    that are not mappings, are passed over. *)
Theorem load_spec_data_first_match (W : world) (spec_id : string)
    (brands : list (string * json)) (before after : list entry) (e : entry)
    (model_data : list (string * json)) (spec : spec_data) (st : state) :
  spec_data_cache st !! spec_id = None ->
  catalog_file W = Ok (JObj brands) ->
  traversable brands = true ->
  entries brands = before ++ e :: after ->
  (forall e' model_data',
      e' ∈ before -> entry_model_data e' = JObj model_data' ->
      py_str W (Dict.get "spec_id" JNull model_data') <> spec_id) ->
  entry_model_data e = JObj model_data ->
  py_str W (Dict.get "spec_id" JNull model_data) = spec_id ->
  make_spec_data W (entry_brand e) (entry_brand_data e) (entry_series e)
    (entry_model e) model_data = Ok spec ->
  load_spec_data W spec_id st
  = (Ok (Some spec),
     set_spec_data_cache (<[spec_id := spec]> (spec_data_cache st)) st).
Proof.
  intros Hmiss Hfile Htr Hsplit Hbefore Hdata Hid Hmk.
  rewrite load_spec_data_miss, Hfile by exact Hmiss.
  rewrite scan_brands_entries, Hsplit, for_return_app by exact Htr.
  rewrite for_return_skip.
  - cbn [for_return]. unfold visit at 1. rewrite Hdata, Hid, String.eqb_refl, Hmk.
    reflexivity.
  - intros e' He'. unfold visit.
    destruct (entry_model_data e') as [| | | | | |md'] eqn:Hd'; try reflexivity.
    destruct (String.eqb_spec (py_str W (Dict.get "spec_id" JNull md')) spec_id)
      as [Heq|]; [|reflexivity].
    exfalso. exact (Hbefore e' md' He' Hd' Heq).
Qed.

Lemma load_spec_data_first_match_witness :
  exists spec st',
    load_spec_data Sample.answering "2" (init Sample.answering)
      = (Ok (Some spec), st') /\
    specName spec = "Pro".
Proof.
  destruct (make_spec_data Sample.answering "BrandA"
              (match Sample.brands with (_, JObj d) :: _ => d | _ => [] end)
              "S1" "Pro"
              (match Sample.model 2 with JObj d => d | _ => [] end))
    as [spec|] eqn:Hmk; [|vm_compute in Hmk; discriminate Hmk].
  exists spec. eexists. split.
  - apply (load_spec_data_first_match Sample.answering "2" Sample.brands
             (take 1 (entries Sample.brands)) (drop 2 (entries Sample.brands))
             (nth 1 (entries Sample.brands) (Entry "" [] "" "" JNull))
             (match Sample.model 2 with JObj d => d | _ => [] end) spec
             (init Sample.answering));
      [reflexivity | reflexivity | reflexivity | reflexivity | | reflexivity
      | reflexivity | exact Hmk].
    intros e' md' He' Hd'. apply list_elem_of_singleton in He' as ->.
    injection Hd' as <-. discriminate.
  - vm_compute in Hmk. injection Hmk as <-. reflexivity.
Defined.

(** ** Invariants of the exporter's state *)

#[local] Instance memo_grows_preorder : PreOrder memo_grows.
Proof.
  split.
  - intros st. unfold memo_grows. reflexivity.
  - intros st1 st2 st3 H12 H23. unfold memo_grows in *. etransitivity; eassumption.
Qed.

#[local] Instance one_dump_per_entry_preorder : PreOrder one_dump_per_entry.
Proof.
  split.
  - intros st. unfold one_dump_per_entry. lia.
  - intros st1 st2 st3 H12 H23. unfold one_dump_per_entry in *. lia.
Qed.

#[local] Instance no_failed_dump_preorder W : PreOrder (no_failed_dump W).
Proof.
  split.
  - intros st _. reflexivity.
  - intros st1 st2 st3 H12 H23 Hw. rewrite (H23 Hw). apply H12, Hw.
Qed.

#[local] Instance preserves_preorder I : PreOrder (preserves I).
Proof.
  split.
  - intros st H. exact H.
  - intros st1 st2 st3 H12 H23 H. apply H23, H12, H.
Qed.

Section Invariants.

Context (W : world).

Lemma load_spec_data_cases spec_id st :
  load_spec_data W spec_id st = (Ok (spec_data_cache st !! spec_id), st) /\
    is_Some (spec_data_cache st !! spec_id) \/
  load_spec_data W spec_id st = (Ok None, st) \/
  exists spec,
    spec_data_cache st !! spec_id = None /\
    sound_spec W spec_id spec /\
    load_spec_data W spec_id st
    = (Ok (Some spec),
       set_spec_data_cache (<[spec_id := spec]> (spec_data_cache st)) st).
Proof.
  destruct (spec_data_cache st !! spec_id) as [memo|] eqn:Hm.
  - left. rewrite (load_spec_data_hit W _ _ _ Hm). split; [reflexivity | eauto].
  - right. rewrite (load_spec_data_miss W _ _ Hm).
    destruct (catalog_file W) as [[| | | | | |brands]|]; try (left; reflexivity).
    destruct (scan_brands W spec_id brands) as [[spec|]|] eqn:Hscan;
      try (left; reflexivity).
    right. exists spec. split; [reflexivity|].
    split; [eapply scan_brands_sound; exact Hscan | reflexivity].
Qed.

(** The memo. *)
Lemma translate_text_memo text dest_lang max_retries retry_delay :
  safe memo_grows (translate_text W text dest_lang max_retries retry_delay).
Proof.
  intros st.
  destruct (translate_text_effect W text dest_lang max_retries retry_delay st)
    as (o & st' & E & (F1 & _) & _).
  exists o, st'. split; [exact E|]. unfold memo_grows. rewrite F1. reflexivity.
Qed.

Lemma load_spec_data_memo spec_id : safe memo_grows (load_spec_data W spec_id).
Proof.
  intros st.
  destruct (load_spec_data_cases spec_id st)
    as [[-> _] | [-> | (spec & Hm & _ & ->)]];
    eexists _, _; (split; [reflexivity|]); unfold memo_grows; simpl.
  - reflexivity.
  - reflexivity.
  - apply insert_subseteq. exact Hm.
Qed.

(** Sound specs in the memo. *)
Lemma translate_text_memo_sound text dest_lang max_retries retry_delay :
  safe (preserves (memo_sound W))
    (translate_text W text dest_lang max_retries retry_delay).
Proof.
  intros st.
  destruct (translate_text_effect W text dest_lang max_retries retry_delay st)
    as (o & st' & E & (F1 & _) & _).
  exists o, st'. split; [exact E|]. intros H id spec. rewrite F1. apply H.
Qed.

Lemma load_spec_data_memo_sound spec_id :
  safe (preserves (memo_sound W)) (load_spec_data W spec_id).
Proof.
  intros st.
  destruct (load_spec_data_cases spec_id st)
    as [[-> _] | [-> | (spec & Hm & Hsound & ->)]];
    eexists _, _; (split; [reflexivity|]); intros H; try exact H.
  intros id spec'. simpl. rewrite lookup_insert.
  destruct (decide (spec_id = id)) as [<-|Hne]; [|apply H].
  intros [= <-]. exact Hsound.
Qed.

(** The cache file. *)
Lemma dumped_once_attempts st st' :
  dumped_once W st st' -> dump_attempts st' = S (dump_attempts st).
Proof.
  unfold dumped_once, dump_attempts.
  destruct (write_cache W _); intros (S & F & _); rewrite S, F, ?length_app;
    simpl; lia.
Qed.

(** After an attempt to dump the cache, the file holds it unless the
    attempt failed. *)
Lemma dumped_once_in_sync st st' : dumped_once W st st' -> file_in_sync W st'.
Proof.
  intros HD Hlast. pose proof (dumped_once_attempts st st' HD) as Hn.
  unfold dumped_once in HD. unfold last_write_succeeded in Hlast.
  rewrite Hn in Hlast. simpl in Hlast. destruct Hlast as [Hlast|Hlast]; [lia|].
  rewrite Hlast in HD. destruct HD as (_ & _ & HD).
  unfold in_sync, reloaded, _load_cache, restarted. simpl. rewrite HD. reflexivity.
Qed.

Lemma same_file_in_sync st st' :
  cache st' = cache st -> same_file st st' ->
  preserves (file_in_sync W) st st'.
Proof.
  intros C (S & F & D) H Hlast.
  unfold file_in_sync, last_write_succeeded, dump_attempts, in_sync, reloaded,
    _load_cache, restarted in *. simpl in *.
  rewrite C, S, F, D in *. apply H. exact Hlast.
Qed.

Lemma translate_text_in_sync text dest_lang max_retries retry_delay :
  safe (preserves (file_in_sync W))
    (translate_text W text dest_lang max_retries retry_delay).
Proof.
  intros st.
  destruct (translate_text_effect W text dest_lang max_retries retry_delay st)
    as (o & st' & E & _ & [(C & S) | (tr & _ & _ & _ & S)]);
    exists o, st'; (split; [exact E|]).
  - apply same_file_in_sync; assumption.
  - intros _. eapply dumped_once_in_sync. exact S.
Qed.

Lemma load_spec_data_frame spec_id st :
  cache (snd (load_spec_data W spec_id st)) = cache st /\
  same_file st (snd (load_spec_data W spec_id st)).
Proof.
  destruct (load_spec_data_cases spec_id st)
    as [[-> _] | [-> | (spec & _ & _ & ->)]]; repeat split.
Qed.

Lemma load_spec_data_in_sync spec_id :
  safe (preserves (file_in_sync W)) (load_spec_data W spec_id).
Proof.
  intros st. pose proof (load_spec_data_frame spec_id st) as [C S].
  destruct (load_spec_data_grows W spec_id st) as (r & st' & E & _).
  rewrite E in C, S. simpl in C, S. exists r, st'. split; [exact E|].
  apply same_file_in_sync; assumption.
Qed.

(** Dumps and entries. *)
Lemma same_file_attempts st st' :
  same_file st st' -> dump_attempts st' = dump_attempts st.
Proof. intros (S & F & _). unfold dump_attempts. rewrite S, F. reflexivity. Qed.

Lemma translate_text_one_dump text dest_lang max_retries retry_delay :
  safe one_dump_per_entry (translate_text W text dest_lang max_retries retry_delay).
Proof.
  intros st.
  destruct (translate_text_effect W text dest_lang max_retries retry_delay st)
    as (o & st' & E & _ & [(C & S) | (tr & Hfresh & _ & C & S)]);
    exists o, st'; (split; [exact E|]); unfold one_dump_per_entry.
  - rewrite C, (same_file_attempts _ _ S). lia.
  - rewrite (dumped_once_attempts _ _ S), C, map_size_insert_None by exact Hfresh.
    lia.
Qed.

Lemma load_spec_data_one_dump spec_id :
  safe one_dump_per_entry (load_spec_data W spec_id).
Proof.
  intros st. pose proof (load_spec_data_frame spec_id st) as [C S].
  destruct (load_spec_data_grows W spec_id st) as (r & st' & E & _).
  rewrite E in C, S. simpl in C, S. exists r, st'. split; [exact E|].
  unfold one_dump_per_entry. rewrite C, (same_file_attempts _ _ S). lia.
Qed.

Lemma translate_text_no_failed_dump text dest_lang max_retries retry_delay :
  safe (no_failed_dump W) (translate_text W text dest_lang max_retries retry_delay).
Proof.
  intros st.
  destruct (translate_text_effect W text dest_lang max_retries retry_delay st)
    as (o & st' & E & _ & [(_ & _ & F & _) | (tr & _ & _ & _ & S)]);
    exists o, st'; (split; [exact E|]); intros Hw; [exact F|].
  unfold dumped_once in S. rewrite Hw in S. apply S.
Qed.

Lemma load_spec_data_no_failed_dump spec_id :
  safe (no_failed_dump W) (load_spec_data W spec_id).
Proof.
  intros st. pose proof (load_spec_data_frame spec_id st) as [_ (_ & F & _)].
  destruct (load_spec_data_grows W spec_id st) as (r & st' & E & _).
  rewrite E in F. simpl in F. exists r, st'. split; [exact E|].
  intros _. exact F.
Qed.

End Invariants.

(** X10: whatever operations of the exporter run, in whatever order and
    with whatever arguments, a spec that is memoized under an id stays
    memoized under it, unchanged. *)
Theorem spec_memo_never_overwritten (W : world) (ops : list operation) (st : state)
    (spec_id : string) (spec : spec_data) :
  spec_data_cache st !! spec_id = Some spec ->
  spec_data_cache (perform_all W ops st) !! spec_id = Some spec.
Proof.
  intros Hmemo.
  assert (Hframe : forall s s' : state,
    cache s' = cache s -> same_file s s' ->
    spec_data_cache s' = spec_data_cache s -> memo_grows s s').
  { intros s s' _ _ Hsame. unfold memo_grows. rewrite Hsame. reflexivity. }
  eapply lookup_weaken; [exact Hmemo|].
  apply (perform_all_kept W memo_grows Hframe (translate_text_memo W)
           (load_spec_data_memo W)).
  intros s. unfold memo_grows. simpl. rewrite _save_cache_eq.
  destruct (write_cache_file_frame W s) as (_ & Hmemo' & _).
  cbn [snd]. rewrite Hmemo'. reflexivity.
Qed.

Lemma spec_memo_never_overwritten_witness :
  exists spec,
    fst (load_spec_data Sample.answering "1" (init Sample.answering))
      = Ok (Some spec) /\
    spec_data_cache
      (perform_all Sample.answering
         [Op_export_all_specs; Op_load_spec_data "3"]
         (snd (load_spec_data Sample.answering "1" (init Sample.answering))))
      !! "1" = Some spec.
Proof.
  destruct (load_spec_data Sample.answering "1" (init Sample.answering))
    as [[[spec|]|e] st1] eqn:E; try (vm_compute in E; discriminate E).
  exists spec. split; [reflexivity|].
  apply (spec_memo_never_overwritten Sample.answering). simpl.
  vm_compute in E. injection E as <- <-. reflexivity.
Defined.

(** X11: after [__init__] and any sequence of operations, a spec that
    [load_spec_data] returns for an id -- read from the catalog or taken
    from the memo -- has that id as its stringified ['specId'], and its
    year type is the one derived from its name. *)
Theorem load_spec_data_returns_requested_id (W : world) (ops : list operation)
    (spec_id : string) (spec : spec_data) (st' : state) :
  load_spec_data W spec_id (perform_all W ops (init W)) = (Ok (Some spec), st') ->
  py_str W (specId spec) = spec_id /\
  yearType spec = year_type (specName spec).
Proof.
  intros Hload.
  assert (Hframe : forall s s' : state,
    cache s' = cache s -> same_file s s' ->
    spec_data_cache s' = spec_data_cache s -> preserves (memo_sound W) s s').
  { intros s s' _ _ Hsame H id sp. rewrite Hsame. apply H. }
  assert (Hinv : memo_sound W (perform_all W ops (init W))).
  { apply (perform_all_kept W (preserves (memo_sound W)) Hframe
             (translate_text_memo_sound W) (load_spec_data_memo_sound W)).
    - intros s H id sp. simpl. rewrite _save_cache_eq.
      destruct (write_cache_file_frame W s) as (_ & Hmemo' & _).
      cbn [snd]. rewrite Hmemo'. apply H.
    - intros id sp Hin. simpl in Hin. rewrite lookup_empty in Hin. discriminate. }
  assert (Hsound : sound_spec W spec_id spec).
  { destruct (load_spec_data_cases W spec_id (perform_all W ops (init W)))
      as [[E Hsome] | [E | (found & _ & Hs & E)]]; rewrite E in Hload.
    - injection Hload as Hl _. apply Hinv. exact Hl.
    - discriminate.
    - injection Hload as <- _. exact Hs. }
  destruct Hsound as (Hid & Hy & _). split; assumption.
Qed.

Lemma load_spec_data_returns_requested_id_witness :
  exists spec st',
    load_spec_data Sample.answering "3"
      (perform_all Sample.answering [Op_export_all_specs]
         (init Sample.answering))
      = (Ok (Some spec), st') /\
    py_str Sample.answering (specId spec) = "3".
Proof.
  destruct (load_spec_data Sample.answering "3"
              (perform_all Sample.answering [Op_export_all_specs]
                 (init Sample.answering)))
    as [[[spec|]|e] st'] eqn:E; try (vm_compute in E; discriminate E).
  exists spec, st'. split; [reflexivity|].
  apply (load_spec_data_returns_requested_id Sample.answering
           [Op_export_all_specs] "3" spec st' E).
Defined.

(** X12: after [__init__] and any sequence of operations, when no write
    of the cache file was attempted, or the last one attempted succeeded,
    the file holds the in-memory cache: a new exporter that reads the file
    starts with the cache this one has.  A write that failed earlier is
    made good by the next one that succeeds. *)
Theorem cache_file_in_sync (W : world) (ops : list operation) :
  last_write_succeeded W (perform_all W ops (init W)) ->
  reloaded W (perform_all W ops (init W)) = cache (perform_all W ops (init W)).
Proof.
  assert (Hframe : forall s s' : state,
    cache s' = cache s -> same_file s s' ->
    spec_data_cache s' = spec_data_cache s -> preserves (file_in_sync W) s s').
  { intros s s' C S _. apply same_file_in_sync; assumption. }
  apply (perform_all_kept W (preserves (file_in_sync W)) Hframe
           (translate_text_in_sync W) (load_spec_data_in_sync W)).
  - intros s _. simpl. rewrite _save_cache_eq.
    eapply dumped_once_in_sync. apply write_cache_file_dumped.
  - intros _. reflexivity.
Qed.

Lemma cache_file_in_sync_witness :
  reloaded Scenario.cut_once
    (perform_all Scenario.cut_once
       [Op_translate_text "hello" "pl" 3 1; Op_translate_text "world" "pl" 3 1]
       (init Scenario.cut_once))
  = cache (perform_all Scenario.cut_once
             [Op_translate_text "hello" "pl" 3 1;
              Op_translate_text "world" "pl" 3 1]
             (init Scenario.cut_once)).
Proof.
  apply (cache_file_in_sync Scenario.cut_once). right. reflexivity.
Defined.

(** After the write that fails, and before the next one, the file is
    behind the cache: the translation is returned and cached, and a new
    exporter would start without it. *)
Example failed_write_leaves_file_behind :
  fst (translate_text Scenario.cut_once "hello" "pl" 3 1 (init Scenario.cut_once))
    = Ok (Some "pl:hello") /\
  cache (snd (translate_text Scenario.cut_once "hello" "pl" 3 1
                (init Scenario.cut_once))) !! "hello_pl" = Some "pl:hello" /\
  reloaded Scenario.cut_once
    (snd (translate_text Scenario.cut_once "hello" "pl" 3 1
            (init Scenario.cut_once))) = ∅ /\
  saves (snd (translate_text Scenario.cut_once "hello" "pl" 3 1
                (init Scenario.cut_once))) = [].
Proof. repeat split. Qed.

(** X13: across any sequence of the exporter's methods ([_save_cache]
    itself, which only [translate_text] calls, left aside) one dump of
    the cache is attempted for each entry the cache gains, and none
    otherwise; when no write fails, none of them fails, so the file is
    dumped once for each new entry. *)
Theorem one_dump_per_new_entry (W : world) (ops : list operation) (st : state) :
  Op_save_cache ∉ ops ->
  (size (cache (perform_all W ops st)) + dump_attempts st
   = size (cache st) + dump_attempts (perform_all W ops st))%nat /\
  (writes_succeed W ->
   (size (cache (perform_all W ops st)) + length (saves st)
    = size (cache st) + length (saves (perform_all W ops st)))%nat).
Proof.
  intros Hno.
  assert (Hone : one_dump_per_entry st (perform_all W ops st)).
  { apply (perform_all_kept_public W one_dump_per_entry).
    - intros s s' C S _. unfold one_dump_per_entry.
      rewrite C, (same_file_attempts s s' S). lia.
    - apply translate_text_one_dump.
    - apply load_spec_data_one_dump.
    - exact Hno. }
  assert (Hnone : no_failed_dump W st (perform_all W ops st)).
  { apply (perform_all_kept_public W (no_failed_dump W)).
    - intros s s' _ (_ & F & _) _ _. exact F.
    - apply translate_text_no_failed_dump.
    - apply load_spec_data_no_failed_dump.
    - exact Hno. }
  split; [exact Hone|]. intros Hw. specialize (Hnone Hw).
  unfold one_dump_per_entry, dump_attempts in Hone. rewrite Hnone in Hone. lia.
Qed.

Lemma one_dump_per_new_entry_witness :
  (size (cache (perform_all Scenario.cut_once
                  [Op_translate_text "hello" "pl" 3 1;
                   Op_translate_text "hello" "pl" 3 1;
                   Op_translate_text "N/A" "pl" 3 1;
                   Op_translate_text "world" "pl" 3 1]
                  (init Scenario.cut_once))) + 0
   = 0 + dump_attempts (perform_all Scenario.cut_once
                          [Op_translate_text "hello" "pl" 3 1;
                           Op_translate_text "hello" "pl" 3 1;
                           Op_translate_text "N/A" "pl" 3 1;
                           Op_translate_text "world" "pl" 3 1]
                          (init Scenario.cut_once)))%nat.
Proof.
  apply (proj1 (one_dump_per_new_entry Scenario.cut_once
                  [Op_translate_text "hello" "pl" 3 1;
                   Op_translate_text "hello" "pl" 3 1;
                   Op_translate_text "N/A" "pl" 3 1;
                   Op_translate_text "world" "pl" 3 1]
                  (init Scenario.cut_once)
                  ltac:(intros Hin;
                        repeat (apply elem_of_cons in Hin as [Hin|Hin];
                                [discriminate Hin|]);
                        inversion Hin))).
Defined.

(** ** Splitting at a separator *)

Section Split.

Lemma append_assoc (a b c : string) : (a +:+ b) +:+ c = a +:+ (b +:+ c).
Proof.
  induction a as [|x a IH]; [reflexivity|].
  rewrite !StrFacts.append_cons, IH. reflexivity.
Qed.

Lemma append_empty_inv (a b : string) : a +:+ b = "" -> a = "" /\ b = "".
Proof.
  destruct a; [rewrite StrFacts.append_nil; intros ->; split; reflexivity|].
  rewrite StrFacts.append_cons. discriminate.
Qed.

(** The text [find] returns before the separator holds no separator: the
    occurrence found is the first. *)
Lemma find_before_clean sep s before after :
  sep <> "" -> Str.find sep s = Some (before, after) -> ~ Str.occurs sep before.
Proof.
  intros Hsep. revert before. induction s as [|c s IH]; intros before; simpl.
  - destruct sep as [|a sep]; [contradiction|]. simpl. discriminate.
  - destruct (Str.strip_prefix sep (String c s)) as [rest|] eqn:Hp.
    + intros [= <- <-] (x & y & E). symmetry in E.
      apply append_empty_inv in E as [_ E].
      apply append_empty_inv in E as [E _]. contradiction.
    + destruct (Str.find sep s) as [[b a]|] eqn:Hf; [|discriminate].
      intros [= <- <-] ([|c' x] & y & E).
      * rewrite StrFacts.append_nil in E.
        apply StrFacts.find_Some in Hf.
        assert (Hs : String c s = sep +:+ (y +:+ sep +:+ a)).
        { rewrite Hf, <- StrFacts.append_cons, E, append_assoc. reflexivity. }
        rewrite Hs, StrFacts.strip_prefix_app in Hp. discriminate.
      * rewrite StrFacts.append_cons in E. injection E as _ E.
        apply (IH b eq_refl). exists x, y. exact E.
Qed.

(** A hyphen is one character: it is found right after a text that has
    none. *)
Lemma find_hyphen before after :
  ~ Str.occurs "-" before ->
  Str.find "-" (before +:+ "-" +:+ after) = Some (before, after).
Proof.
  induction before as [|c before IH]; intros Hno.
  - reflexivity.
  - rewrite StrFacts.append_cons. cbn [Str.find Str.strip_prefix].
    destruct (Ascii.eqb_spec "-" c) as [<-|Hc].
    + exfalso. apply Hno. exists "", before. reflexivity.
    + rewrite IH; [reflexivity|]. eapply StrFacts.occurs_tail. exact Hno.
Qed.

End Split.

(** X14: [export_spec_info] splits the qualified name of a parameter at
    its first hyphen.  A name built by [load_spec_data] as
    category-hyphen-parameter always splits in two (the unpacking cannot
    fail); the first piece has no hyphen and the pieces joined by a hyphen
    give the name back; when the category has no hyphen the pieces are the
    category and the parameter name. *)
Theorem qualified_name_splits (category param_name : string) :
  exists head tail,
    Str.split_once "-" (category +:+ "-" +:+ param_name) = [head; tail] /\
    head +:+ "-" +:+ tail = category +:+ "-" +:+ param_name /\
    ~ Str.occurs "-" head /\
    (~ Str.occurs "-" category -> head = category /\ tail = param_name).
Proof.
  unfold Str.split_once.
  destruct (Str.find "-" (category +:+ "-" +:+ param_name))
    as [[head tail]|] eqn:Hf.
  - exists head, tail. split; [reflexivity|].
    split; [symmetry; apply StrFacts.find_Some; exact Hf|].
    split; [eapply find_before_clean; [discriminate | exact Hf]|].
    intros Hno. rewrite find_hyphen in Hf by exact Hno.
    injection Hf as <- <-. split; reflexivity.
  - exfalso. apply StrFacts.find_None in Hf. apply Hf.
    exists category, param_name. reflexivity.
Qed.

(** X15: the year type derived from a model name never contains '款'; it
    is 'N/A', or a part of the name that '款' directly follows. *)
Theorem year_type_has_no_delimiter (model_name : string) :
  ~ Str.occurs delimiter (year_type model_name) /\
  (year_type model_name = not_applicable \/
   exists rest, model_name = year_type model_name +:+ delimiter +:+ rest).
Proof.
  unfold year_type, Str.contains, Str.split_head.
  destruct (Str.find delimiter model_name) as [[before after]|] eqn:Hf.
  - split; [eapply find_before_clean; [discriminate | exact Hf]|].
    right. exists after. apply StrFacts.find_Some. exact Hf.
  - split; [|left; reflexivity].
    intros Hocc. apply StrFacts.contains_occurs in Hocc. discriminate Hocc.
Qed.

(** ** [export_spec_info] *)

#[local] Instance same_exports_preorder : PreOrder same_exports.
Proof.
  split.
  - intros st. unfold same_exports. split; [|split; [|split]]; reflexivity.
  - intros st1 st2 st3 (A1 & A2 & A3 & A4) (B1 & B2 & B3 & B4).
    unfold same_exports. split; [|split; [|split]]; congruence.
Qed.

Section SafeLoops.

Context (R : relation state) `{!PreOrder R} (W : world).

Hypothesis translate_text_safe :
  forall text dest_lang max_retries retry_delay,
    safe R (translate_text W text dest_lang max_retries retry_delay).

Lemma safe_for_each_in {A B} (body : B -> A -> M B) l :
  (forall acc x, x ∈ l -> safe R (body acc x)) ->
  forall acc, safe R (for_each body l acc).
Proof.
  induction l as [|x l IH]; intros Hb acc; simpl.
  - apply safe_ret; instances.
  - apply safe_bind; instances; [apply Hb; left|]. intros acc'.
    apply IH. intros acc0 y Hy. apply Hb. right. exact Hy.
Qed.

(** A name with a hyphen splits in two. *)
Lemma split_once_hyphen name :
  Str.occurs "-" name -> exists head tail, Str.split_once "-" name = [head; tail].
Proof.
  intros Hocc. unfold Str.split_once.
  destruct (Str.find "-" name) as [[head tail]|] eqn:Hf.
  - exists head, tail. reflexivity.
  - apply StrFacts.find_None in Hf. contradiction.
Qed.

(** The body of the [try] of [export_spec_info] returns normally when
    every parameter name has a hyphen. *)
Lemma translate_spec_safe spec :
  (forall params, paramValues spec = Some params ->
                  Forall (fun p => Str.occurs "-" (fst p)) params) ->
  safe R (translate_spec W spec).
Proof.
  intros Hnames. unfold translate_spec.
  apply safe_bind; instances;
    [apply batch_translate_safe; instances; apply translate_text_safe|].
  intros items_pl.
  apply safe_bind; instances;
    [apply batch_translate_safe; instances; apply translate_text_safe|].
  intros values_pl.
  destruct (paramValues spec) as [params|]; [|apply safe_ret; instances].
  specialize (Hnames params eq_refl). rewrite Forall_forall in Hnames.
  apply safe_for_each_in. intros polish_info [name value] Hin.
  destruct (split_once_hyphen name (Hnames _ Hin)) as (head & tail & ->).
  apply safe_bind; instances; [apply translate_text_safe|]. intros name_pl.
  apply safe_bind; instances; [apply translate_text_safe|]. intros value_pl.
  apply safe_ret; instances.
Qed.

End SafeLoops.

Section ExportSpecInfo.

Context (W : world).

Lemma translate_text_same_exports text dest_lang max_retries retry_delay :
  safe same_exports (translate_text W text dest_lang max_retries retry_delay).
Proof.
  intros st.
  destruct (translate_text_effect W text dest_lang max_retries retry_delay st)
    as (o & st' & E & F & _).
  exists o, st'. split; [exact E | exact F].
Qed.

(** The lookup does not look at the log of exports. *)
Lemma load_spec_data_set_exports spec_id l st :
  load_spec_data W spec_id (set_exports l st) =
    (fst (load_spec_data W spec_id st),
     set_exports l (snd (load_spec_data W spec_id st))).
Proof.
  destruct (spec_data_cache st !! spec_id) as [memo|] eqn:Hm.
  - rewrite (load_spec_data_hit W spec_id memo (set_exports l st)) by exact Hm.
    rewrite (load_spec_data_hit W _ _ _ Hm). reflexivity.
  - rewrite (load_spec_data_miss W spec_id (set_exports l st)) by exact Hm.
    rewrite (load_spec_data_miss W _ _ Hm).
    destruct (catalog_file W) as [[| | | | | |brands]|]; try reflexivity.
    destruct (scan_brands W spec_id brands) as [[spec|]|]; reflexivity.
Qed.

End ExportSpecInfo.

(** X16: a failing translation service does not keep a page from being
    written.  After [__init__] and any operations, when [load_spec_data]
    has a spec for the id, the image directory can be listed and the page
    written, [export_spec_info] returns normally and writes exactly one
    page, the one of that id, holding that spec and the images listed --
    whatever the service answers or raises. *)
Theorem export_spec_info_writes_page (W : world) (ops : list operation)
    (spec_id : string) (spec : spec_data) (images : list string) (st1 : state) :
  let st := perform_all W ops (init W) in
  load_spec_data W spec_id st = (Ok (Some spec), st1) ->
  list_images W spec_id = Ok images ->
  is_Ok (write_page W spec_id) ->
  exists tables st',
    export_spec_info W spec_id st = (Ok tt, st') /\
    pages st' = pages st ++ [(spec_id, Page spec images tables)] /\
    exports st' = exports st ++ [spec_id].
Proof.
  intros st Hload Himages [[] Hwrite].
  assert (Hinv : memo_sound W st).
  { apply (perform_all_kept W (preserves (memo_sound W))).
    - intros s s' _ _ Hsame H id sp. rewrite Hsame. apply H.
    - apply translate_text_memo_sound.
    - apply load_spec_data_memo_sound.
    - intros s H id sp. simpl. rewrite _save_cache_eq.
      destruct (write_cache_file_frame W s) as (_ & Hmemo' & _).
      cbn [snd]. rewrite Hmemo'. apply H.
    - intros id sp Hin. simpl in Hin. rewrite lookup_empty in Hin. discriminate. }
  assert (Hsound : sound_spec W spec_id spec).
  { destruct (load_spec_data_cases W spec_id st)
      as [[E Hsome] | [E | (found & _ & Hs & E)]]; rewrite E in Hload.
    - injection Hload as Hl _. apply Hinv. exact Hl.
    - discriminate.
    - injection Hload as <- _. exact Hs. }
  assert (Hmemo : pages st1 = pages st /\ exports st1 = exports st).
  { destruct (load_spec_data_cases W spec_id st)
      as [[E _] | [E | (found & _ & _ & E)]]; rewrite E in Hload;
      injection Hload as _ <-; split; reflexivity. }
  destruct Hmemo as [Hp1 He1].
  unfold export_spec_info. unfold bind at 1. unfold modify at 1.
  unfold bind at 1. rewrite load_spec_data_set_exports, Hload. cbn [fst snd].
  unfold bind at 1. unfold try_except at 1.
  destruct (translate_spec_safe same_exports W (translate_text_same_exports W)
              spec (proj2 (proj2 Hsound))
              (set_exports (exports st ++ [spec_id]) st1))
    as (polish_info & st2 & -> & (_ & E2 & P2 & _)).
  unfold bind at 1. unfold lift at 1. rewrite Himages.
  unfold bind at 1.
  destruct (render_tables_safe same_exports W (translate_text_same_exports W)
              polish_info st2)
    as (tables & st3 & -> & (_ & E3 & P3 & _)).
  unfold bind at 1. unfold lift at 1. rewrite Hwrite. unfold modify.
  exists tables. eexists. split; [reflexivity|]. simpl.
  rewrite P3, P2, E3, E2. simpl. rewrite Hp1. split; reflexivity.
Qed.

Lemma export_spec_info_writes_page_witness :
  exists tables st',
    export_spec_info Sample.failing "1" (init Sample.failing) = (Ok tt, st') /\
    pages st' = [("1", Page (SpecData (JInt 1) "2024款 Pro" "BrandA" "S1"
                               (JStr "MakerA") "2024" (JStr "12.58")
                               (Some [("基本参数-长", "4000"); ("基本参数-宽", "1.8")]))
                             [] tables)].
Proof.
  destruct (export_spec_info_writes_page Sample.failing [] "1"
              (SpecData (JInt 1) "2024款 Pro" "BrandA" "S1"
                 (JStr "MakerA") "2024" (JStr "12.58")
                 (Some [("基本参数-长", "4000"); ("基本参数-宽", "1.8")]))
              []
              (snd (load_spec_data Sample.failing "1" (init Sample.failing))))
    as (tables & st' & E & Hp & _);
    [reflexivity | reflexivity | eexists; reflexivity |].
  exists tables, st'. split; [exact E | exact Hp].
Defined.

(** X17: for an id for which [load_spec_data] returns [None] -- unknown
    id, unreadable catalog, or a lookup that failed -- [export_spec_info]
    returns at once: apart from the record of the call nothing changes,
    so no translation is asked for and no page is written. *)
Theorem export_spec_info_without_spec (W : world) (spec_id : string)
    (st st1 : state) :
  load_spec_data W spec_id st = (Ok None, st1) ->
  export_spec_info W spec_id st
  = (Ok tt, set_exports (exports st ++ [spec_id]) st).
Proof.
  intros Hload.
  assert (Hsame : st1 = st).
  { destruct (load_spec_data_cases W spec_id st)
      as [[E [memo Hmemo]] | [E | (found & _ & _ & E)]]; rewrite E in Hload.
    - rewrite Hmemo in Hload. discriminate.
    - injection Hload as <-. reflexivity.
    - discriminate. }
  subst st1.
  unfold export_spec_info. unfold bind at 1. unfold modify at 1.
  unfold bind at 1. rewrite load_spec_data_set_exports, Hload. reflexivity.
Qed.

Lemma export_spec_info_without_spec_witness :
  export_spec_info Sample.answering "404" (init Sample.answering)
  = (Ok tt, set_exports ["404"] (init Sample.answering)).
Proof.
  apply (export_spec_info_without_spec Sample.answering "404"
           (init Sample.answering) (init Sample.answering)).
  reflexivity.
Defined.

(** ** [export_all_specs]: what ends up in the index page *)

#[local] Instance same_indexes_preorder : PreOrder same_indexes.
Proof.
  split.
  - intros st. unfold same_indexes. reflexivity.
  - intros st1 st2 st3 H12 H23. unfold same_indexes in *. congruence.
Qed.

Section IndexPage.

Context (W : world).

Lemma translate_text_same_indexes text dest_lang max_retries retry_delay :
  safe same_indexes (translate_text W text dest_lang max_retries retry_delay).
Proof.
  intros st.
  destruct (translate_text_effect W text dest_lang max_retries retry_delay st)
    as (o & st' & E & (_ & _ & _ & F) & _).
  exists o, st'. split; [exact E | exact F].
Qed.

Lemma load_spec_data_same_indexes spec_id :
  safe same_indexes (load_spec_data W spec_id).
Proof.
  intros st. destruct (load_spec_data_log W spec_id st) as (r & st' & E & _ & F).
  exists r, st'. split; [exact E | exact F].
Qed.

Ltac idx_step :=
  first
    [ apply keeps_lift
    | apply keeps_raise
    | apply safe_keeps, safe_ret
    | apply safe_keeps, safe_modify; instances; intros ?; reflexivity
    | apply safe_keeps, load_spec_data_same_indexes
    | apply safe_keeps, render_tables_safe; instances;
      apply translate_text_same_indexes
    | apply safe_keeps, safe_try_except; instances;
      apply translate_spec_keeps; instances; apply translate_text_same_indexes ];
  instances.

Ltac idx_bind := apply keeps_bind; instances; [idx_step|].

Lemma export_spec_info_same_indexes spec_id :
  keeps same_indexes (export_spec_info W spec_id).
Proof.
  unfold export_spec_info.
  idx_bind. intros _. idx_bind.
  intros [spec|]; [|idx_step].
  idx_bind. intros [polish_info|e]; [|idx_step].
  idx_bind. intros car_images. idx_bind. intros tables.
  idx_bind. intros _. idx_step.
Qed.

Lemma export_last_same_indexes brand_name series_name specs b :
  keeps same_indexes (export_last W brand_name series_name specs b).
Proof.
  unfold export_last.
  destruct b as [[model_name []]|]; try idx_step.
  destruct (String.eqb _ ""); [idx_step|].
  apply keeps_bind; instances; [apply export_spec_info_same_indexes|].
  intros _. idx_step.
Qed.

Lemma export_series_same_indexes brand_name series acc :
  keeps same_indexes (export_series W brand_name series acc).
Proof.
  unfold export_series. apply keeps_for_each; instances.
  intros [specs b] [series_name []]; try idx_step.
  destruct (Dict.lookup "models" members) as [models|]; [|idx_step].
  idx_bind. intros ms.
  apply keeps_bind; instances; [apply export_last_same_indexes|].
  intros specs'. idx_step.
Qed.

Lemma export_brands_same_indexes brands acc :
  keeps same_indexes (export_brands W brands acc).
Proof.
  unfold export_brands. apply keeps_for_each; instances.
  intros acc' [brand_name []]; try idx_step.
  destruct (Dict.lookup "series" members) as [series|]; [|idx_step].
  idx_bind. intros ss. apply export_series_same_indexes.
Qed.

Lemma collected_refl x : collected x x.
Proof. exists []. simpl. rewrite !app_nil_r. split; reflexivity. Qed.

Lemma collected_trans x y z : collected x y -> collected y z -> collected x z.
Proof.
  intros (n1 & A1 & B1) (n2 & A2 & B2). exists (n1 ++ n2).
  rewrite A2, A1, B2, B1, map_app, !app_assoc. split; reflexivity.
Qed.

Lemma for_each_collected {A} (body : list summary * binding -> A -> M (list summary * binding)) l :
  (forall acc x st acc' st',
      body acc x st = (Ok acc', st') -> collected (acc, st) (acc', st')) ->
  forall acc st acc' st',
    for_each body l acc st = (Ok acc', st') -> collected (acc, st) (acc', st').
Proof.
  intros Hb. induction l as [|x l IH]; intros acc st acc' st'; simpl.
  - intros [= <- <-]. apply collected_refl.
  - unfold bind. destruct (body acc x st) as [[acc1|e] st1] eqn:E1; [|discriminate].
    intros E2. eapply collected_trans; [eapply Hb; exact E1 | eapply IH; exact E2].
Qed.

Lemma export_last_collected brand_name series_name specs b st specs' st' :
  export_last W brand_name series_name specs b st = (Ok specs', st') ->
  collected (specs, b, st) (specs', b, st').
Proof.
  unfold export_last.
  destruct b as [[model_name md]|]; [|discriminate].
  destruct md as [| | | | | |model_data]; try discriminate.
  destruct (String.eqb _ "").
  - intros [= <- <-]. apply collected_refl.
  - unfold bind.
    pose proof (export_spec_info_once W
                  (py_str W (Dict.get "spec_id" JNull model_data)) st) as Hlog.
    destruct (export_spec_info W _ st) as [[[]|e] st1]; [|discriminate].
    intros [= <- <-]. eexists. split; [reflexivity|]. exact Hlog.
Qed.

Lemma export_series_collected brand_name series acc st acc' st' :
  export_series W brand_name series acc st = (Ok acc', st') ->
  collected (acc, st) (acc', st').
Proof.
  unfold export_series. apply for_each_collected.
  clear. intros [specs b] [series_name series_data] st acc' st'.
  destruct series_data as [| | | | | |d];
    try (intros [= <- <-]; apply collected_refl).
  destruct (Dict.lookup "models" d) as [models|];
    [|intros [= <- <-]; apply collected_refl].
  destruct models as [| | | | | |ms]; try discriminate.
  unfold bind at 1. cbn [lift items]. unfold bind.
  destruct (export_last W brand_name series_name specs (bind_models ms b) st)
    as [[specs1|e] st1] eqn:E; [|discriminate].
  intros [= <- <-]. apply export_last_collected in E.
  destruct E as (new & A & B). exists new. split; assumption.
Qed.

Lemma export_brands_collected brands acc st acc' st' :
  export_brands W brands acc st = (Ok acc', st') ->
  collected (acc, st) (acc', st').
Proof.
  unfold export_brands. apply for_each_collected.
  clear. intros acc [brand_name brand_data] st acc' st'.
  destruct brand_data as [| | | | | |d];
    try (intros [= <- <-]; apply collected_refl).
  destruct (Dict.lookup "series" d) as [series|];
    [|intros [= <- <-]; apply collected_refl].
  destruct series as [| | | | | |ss]; try discriminate.
  unfold bind at 1. cbn [lift items]. apply export_series_collected.
Qed.

End IndexPage.

(** X18: [export_all_specs] never raises, whatever the catalog, the
    service and the file system do; and when the catalog cannot be read,
    or is not a mapping at its top, it does nothing at all: no export, no
    translation, no index page. *)
Theorem export_all_specs_never_raises (W : world) (st : state) :
  (exists st', export_all_specs W st = (Ok tt, st')) /\
  ((forall brands, catalog_file W <> Ok (JObj brands)) ->
   export_all_specs W st = (Ok tt, st)).
Proof.
  split.
  - unfold export_all_specs, bind, try_except, ret.
    destruct (export_all_specs_body W st) as [o st']. exists st'. reflexivity.
  - intros Hbad.
    unfold export_all_specs, export_all_specs_body, bind, try_except, lift, ret.
    destruct (catalog_file W) as [[| | | | | |brands]|]; try reflexivity.
    exfalso. apply (Hbad brands). reflexivity.
Qed.

Lemma export_all_specs_never_raises_witness :
  export_all_specs Sample.unreadable (init Sample.unreadable)
  = (Ok tt, init Sample.unreadable).
Proof.
  apply (export_all_specs_never_raises Sample.unreadable (init Sample.unreadable)).
  intros brands. discriminate.
Defined.

(** X19: [export_all_specs] writes one index page at most, and the page it
    writes lists exactly the specs it has called [export_spec_info] for,
    in the order of the calls: no entry without an export, no export
    without an entry. *)
Theorem export_all_specs_index_lists_exports (W : world) (st : state) :
  let st' := snd (export_all_specs W st) in
  indexes st' = indexes st \/
  exists specs,
    indexes st' = indexes st ++ [specs] /\
    exports st' = exports st ++ map sum_specId specs.
Proof.
  cbv zeta.
  unfold export_all_specs, export_all_specs_body, export_index_html.
  unfold try_except, bind, lift, modify, ret.
  destruct (catalog_file W) as [[| | | | | |brands]|]; try (left; reflexivity).
  cbn [items].
  pose proof (export_brands_same_indexes W brands ([], None) st) as Hidx.
  pose proof (export_brands_collected W brands ([], None) st) as Hcol.
  unfold binding in *.
  destruct (export_brands W brands ([], None) st) as [[[specs b]|e] st1];
    simpl in *; [|left; exact Hidx].
  destruct (Hcol _ _ eq_refl) as (new & Hnew & Hexp). simpl in Hnew, Hexp.
  subst specs.
  destruct (write_index W) as [[]|e]; simpl; [|left; exact Hidx].
  right. exists new. rewrite Hidx, Hexp. split; reflexivity.
Qed.

(** ** [export_all_specs]: series without a usable last model *)

Section SeriesSteps.

Context (W : world).

(** One turn of the series loop, for a series that is a mapping with a
    mapping under ['models']. *)
Lemma export_series_step brand_name series_name sd ms rest specs b st :
  Dict.lookup "models" sd = Some (JObj ms) ->
  export_series W brand_name ((series_name, JObj sd) :: rest) (specs, b) st =
    match export_last W brand_name series_name specs (bind_models ms b) st with
    | (Ok specs1, st1) =>
        export_series W brand_name rest (specs1, bind_models ms b) st1
    | (Raise e, st1) => (Raise e, st1)
    end.
Proof.
  intros Hlk. unfold export_series. cbn [for_each]. rewrite Hlk.
  unfold bind at 1 2. cbn [lift items]. unfold bind at 1.
  destruct (export_last W brand_name series_name specs (bind_models ms b) st)
    as [[specs1|e] st1]; reflexivity.
Qed.

Lemma export_brands_step brand_name bd ss rest acc st :
  Dict.lookup "series" bd = Some (JObj ss) ->
  export_brands W ((brand_name, JObj bd) :: rest) acc st =
    match export_series W brand_name ss acc st with
    | (Ok acc1, st1) => export_brands W rest acc1 st1
    | (Raise e, st1) => (Raise e, st1)
    end.
Proof.
  intros Hlk. unfold export_brands. cbn [for_each]. rewrite Hlk.
  unfold bind at 1 2. cbn [lift items].
  destruct (export_series W brand_name ss acc st) as [[acc1|e] st1]; reflexivity.
Qed.

(** What follows the model loop raises, and changes nothing, unless the
    variables hold a model that is a mapping. *)
Lemma export_last_raises brand_name series_name specs b st :
  (forall model_name md, b <> Some (model_name, JObj md)) ->
  exists e, export_last W brand_name series_name specs b st = (Raise e, st).
Proof.
  intros Hb. unfold export_last.
  destruct b as [[model_name md]|]; [|eexists; reflexivity].
  destruct md; try (eexists; reflexivity).
  exfalso. eapply Hb. reflexivity.
Qed.

Hypothesis writable : pages_writable W.

Lemma export_last_bound brand_name series_name specs model_name md st :
  py_str W (Dict.get "spec_id" JNull md) <> "" ->
  exists st',
    export_last W brand_name series_name specs (Some (model_name, JObj md)) st
    = (Ok (specs ++ [Summary (py_str W (Dict.get "spec_id" JNull md))
                             model_name brand_name series_name]), st') /\
    exports st' = exports st ++ [py_str W (Dict.get "spec_id" JNull md)] /\
    indexes st' = indexes st.
Proof.
  intros Hid. unfold export_last.
  destruct (String.eqb_spec (py_str W (Dict.get "spec_id" JNull md)) "")
    as [|_]; [contradiction|].
  unfold bind.
  destruct (export_spec_info_logged W writable
              (py_str W (Dict.get "spec_id" JNull md)) st)
    as (st' & -> & HE & HI).
  exists st'. repeat split; assumption.
Qed.

End SeriesSteps.

(** X20: when the first series of the first brand has no model at all, or
    has a last model that is not a mapping, [export_all_specs] does
    nothing -- no export, no index page -- whatever the rest of the
    catalog holds: the statement after the model loop raises and the
    whole batch is given up. *)
Theorem export_all_specs_gives_up (W : world) (st : state)
    (brand_name series_name : string) (bd sd models : list (string * json))
    (series brands : list (string * json)) :
  catalog_file W = Ok (JObj ((brand_name, JObj bd) :: brands)) ->
  Dict.lookup "series" bd = Some (JObj ((series_name, JObj sd) :: series)) ->
  Dict.lookup "models" sd = Some (JObj models) ->
  (forall model_name md, last models <> Some (model_name, JObj md)) ->
  export_all_specs W st = (Ok tt, st).
Proof.
  intros Hfile Hseries Hmodels Hlast.
  unfold export_all_specs, export_all_specs_body.
  unfold try_except, bind at 1 2 3, lift. rewrite Hfile. cbn [items].
  unfold bind at 1.
  pose proof (export_brands_step W brand_name bd
                ((series_name, JObj sd) :: series) brands ([], None) st Hseries)
    as Hstep.
  pose proof (export_series_step W brand_name series_name sd models series
                [] None st Hmodels) as Hturn.
  destruct (export_last_raises W brand_name series_name [] (bind_models models None) st)
    as [e He].
  { intros model_name md. rewrite bind_models_last.
    destruct (last models) as [m|] eqn:Hl; [|discriminate].
    intros [= ->]. exact (Hlast model_name md eq_refl). }
  rewrite He in Hturn. unfold binding in *. rewrite Hturn in Hstep.
  rewrite Hstep. reflexivity.
Qed.

Lemma export_all_specs_gives_up_witness :
  export_all_specs (Scenario.around Scenario.empty_first) Sample.warm
  = (Ok tt, Sample.warm).
Proof.
  apply (export_all_specs_gives_up (Scenario.around Scenario.empty_first)
           Sample.warm "BrandA" "S0"
           [("series",
             JObj [("S0", JObj [("models", JObj [])]);
                   ("S1", JObj [("models", JObj [("Pro", Sample.model 2)])])])]
           [("models", JObj [])] []
           [("S1", JObj [("models", JObj [("Pro", Sample.model 2)])])] []);
    [reflexivity | reflexivity | reflexivity | intros model_name md; discriminate].
Defined.

(** X21: a series without models is exported with the last model of the
    series before it.  For a brand with two series, the first ending in a
    model with a non-empty id and the second with an empty ['models'],
    and with the pages and the index writable, [export_all_specs] calls
    [export_spec_info] twice for that model and lists it twice, once
    under each series. *)
Theorem export_all_specs_repeats_last_model (W : world) (st : state)
    (brand_name series1 series2 model_name : string)
    (bd sd1 sd2 models md : list (string * json)) :
  catalog_file W = Ok (JObj [(brand_name, JObj bd)]) ->
  Dict.lookup "series" bd = Some (JObj [(series1, JObj sd1); (series2, JObj sd2)]) ->
  Dict.lookup "models" sd1 = Some (JObj (models ++ [(model_name, JObj md)])) ->
  Dict.lookup "models" sd2 = Some (JObj []) ->
  py_str W (Dict.get "spec_id" JNull md) <> "" ->
  pages_writable W ->
  is_Ok (write_index W) ->
  let spec_id := py_str W (Dict.get "spec_id" JNull md) in
  exists st',
    export_all_specs W st = (Ok tt, st') /\
    exports st' = exports st ++ [spec_id; spec_id] /\
    indexes st' = indexes st ++ [[Summary spec_id model_name brand_name series1;
                                   Summary spec_id model_name brand_name series2]].
Proof.
  intros Hfile Hseries Hm1 Hm2 Hid Hpages [[] Hindex]. cbv zeta.
  assert (Hb1 : bind_models (models ++ [(model_name, JObj md)]) None
                = Some (model_name, JObj md)).
  { rewrite bind_models_last, last_snoc. reflexivity. }
  destruct (export_last_bound W Hpages brand_name series1 [] model_name md st Hid)
    as (st1 & E1 & HE1 & HI1).
  destruct (export_last_bound W Hpages brand_name series2
              [Summary (py_str W (Dict.get "spec_id" JNull md))
                 model_name brand_name series1]
              model_name md st1 Hid)
    as (st2 & E2 & HE2 & HI2).
  pose proof (export_brands_step W brand_name bd
                [(series1, JObj sd1); (series2, JObj sd2)] [] ([], None) st Hseries)
    as Hstep.
  pose proof (export_series_step W brand_name series1 sd1 _
                [(series2, JObj sd2)] [] None st Hm1) as Hturn1.
  rewrite Hb1, E1 in Hturn1.
  pose proof (export_series_step W brand_name series2 sd2 _ []
                ([] ++ [Summary (py_str W (Dict.get "spec_id" JNull md))
                          model_name brand_name series1])
                (Some (model_name, JObj md)) st1 Hm2) as Hturn2.
  change (bind_models [] (Some (model_name, JObj md)))
    with (Some (model_name, JObj md)) in Hturn2.
  simpl app in E2, Hturn2. rewrite E2 in Hturn2.
  change (export_series W brand_name [] ?a ?s) with (@Ok _ a, s) in Hturn2.
  unfold binding in *. simpl app in Hturn1. rewrite Hturn2 in Hturn1.
  rewrite Hturn1 in Hstep.
  change (export_brands W [] ?a ?s) with (@Ok _ a, s) in Hstep.
  unfold export_all_specs, export_all_specs_body, export_index_html.
  unfold try_except, bind, lift, modify, ret. rewrite Hfile, Hindex. cbn [items].
  rewrite Hstep. simpl.
  eexists. split; [reflexivity|]. simpl.
  rewrite HE2, HE1, HI2, HI1, <- app_assoc. split; reflexivity.
Qed.

Lemma export_all_specs_repeats_last_model_witness :
  exists st',
    export_all_specs (Scenario.around Scenario.empty_second) Sample.warm
    = (Ok tt, st') /\
    exports st' = ["2"; "2"] /\
    indexes st' = [[Summary "2" "Pro" "BrandA" "S1";
                    Summary "2" "Pro" "BrandA" "S2"]].
Proof.
  apply (export_all_specs_repeats_last_model (Scenario.around Scenario.empty_second)
           Sample.warm "BrandA" "S1" "S2" "Pro"
           [("series",
             JObj [("S1", JObj [("models", JObj [("Pro", Sample.model 2)])]);
                   ("S2", JObj [("models", JObj [])])])]
           [("models", JObj [("Pro", Sample.model 2)])]
           [("models", JObj [])] []
           (match Sample.model 2 with JObj d => d | _ => [] end));
    [reflexivity | reflexivity | reflexivity | reflexivity | discriminate
    | intros spec_id; split; eexists; reflexivity | eexists; reflexivity].
Defined.

(** ** The table of a page *)

Section Tables.

Lemma table_mem_keys k (t : table) : table_mem k t = true <-> k ∈ map fst t.
Proof.
  induction t as [|[k' rows] t IH]; simpl.
  - split; [discriminate | intros H; inversion H].
  - rewrite orb_true_iff, IH, elem_of_cons.
    split; (intros [H|H]; [left | right; exact H]).
    + apply String.eqb_eq. exact H.
    + apply String.eqb_eq. exact H.
Qed.

Lemma table_append_keys k row (t : table) :
  map fst (table_append k row t) = map fst t.
Proof.
  induction t as [|[k' rows] t IH]; simpl; [reflexivity|].
  destruct (String.eqb k k'); simpl; [reflexivity | rewrite IH; reflexivity].
Qed.

Lemma table_rows_cons k rows (t : table) :
  table_rows ((k, rows) :: t) = (length rows + table_rows t)%nat.
Proof. reflexivity. Qed.

Lemma table_append_rows k row (t : table) :
  k ∈ map fst t -> table_rows (table_append k row t) = S (table_rows t).
Proof.
  induction t as [|[k' rows] t IH]; intros Hin; [inversion Hin|].
  cbn [table_append].
  destruct (String.eqb_spec k k') as [->|Hne]; rewrite !table_rows_cons.
  - rewrite length_app. simpl. lia.
  - simpl in Hin. apply elem_of_cons in Hin as [Hin|Hin]; [contradiction|].
    rewrite (IH Hin). lia.
Qed.

Lemma table_rows_new k (t : table) : table_rows (t ++ [(k, [])]) = table_rows t.
Proof.
  induction t as [|[k' rows] t IH]; [reflexivity|].
  rewrite <- app_comm_cons, !table_rows_cons, IH. reflexivity.
Qed.

Lemma grouped_step n (t : table) param_type row :
  grouped n t ->
  grouped (S n)
    (table_append param_type row
       (if table_mem param_type t then t else t ++ [(param_type, [])])).
Proof.
  intros (Hnd & Hrows & rows & rest & ->).
  assert (Hens : grouped n
    (if table_mem param_type ((basic_info, rows) :: rest)
     then (basic_info, rows) :: rest
     else ((basic_info, rows) :: rest) ++ [(param_type, [])]) /\
    param_type ∈ map fst
      (if table_mem param_type ((basic_info, rows) :: rest)
       then (basic_info, rows) :: rest
       else ((basic_info, rows) :: rest) ++ [(param_type, [])])).
  { destruct (table_mem param_type ((basic_info, rows) :: rest)) eqn:Hmem.
    - split; [|apply table_mem_keys; exact Hmem].
      split; [exact Hnd|]. split; [exact Hrows|]. eauto.
    - split.
      + split.
        * rewrite map_app. apply NoDup_app. split; [exact Hnd|].
          split; [|apply NoDup_singleton].
          intros k Hk Hk'. simpl in Hk'.
          apply list_elem_of_singleton in Hk'. subst k.
          apply table_mem_keys in Hk. rewrite Hk in Hmem. discriminate.
        * split; [rewrite table_rows_new; exact Hrows|].
          exists rows, (rest ++ [(param_type, [])]). reflexivity.
      + rewrite map_app. apply elem_of_app. right. left. }
  destruct Hens as [(Hnd' & Hrows' & rows' & rest' & E) Hin].
  split; [rewrite table_append_keys; exact Hnd'|].
  split; [rewrite table_append_rows by exact Hin; rewrite Hrows'; reflexivity|].
  rewrite E. simpl.
  destruct (String.eqb param_type basic_info); eauto.
Qed.

Lemma for_each_count {A B} (I : nat -> B -> Prop) (body : B -> A -> M B) l :
  (forall n acc x st acc' st',
      I n acc -> body acc x st = (Ok acc', st') -> I (S n) acc') ->
  forall n acc st acc' st',
    I n acc -> for_each body l acc st = (Ok acc', st') ->
    I (n + length l)%nat acc'.
Proof.
  intros Hb. induction l as [|x l IH]; intros n acc st acc' st' Hn; simpl.
  - intros [= <- _]. rewrite Nat.add_0_r. exact Hn.
  - unfold bind. destruct (body acc x st) as [[acc1|e] st1] eqn:E1; [|discriminate].
    intros E2. replace (n + S (length l))%nat with (S n + length l)%nat by lia.
    eapply IH; [|exact E2]. eapply Hb; eassumption.
Qed.

End Tables.

(** X22: the grouping of the translated rows in [export_spec_info] loses
    and repeats nothing.  When the translating part returns, the table
    starts with the basic information, holds each category once, and has
    seven rows of basic information and one row per parameter of the spec
    in all -- also when a category is named like the basic information
    or recurs further down the list. *)
Theorem translate_spec_groups_rows (W : world) (spec : spec_data) (t : table)
    (st st' : state) :
  translate_spec W spec st = (Ok t, st') ->
  NoDup (map fst t) /\
  table_rows t = (7 + length (default [] (paramValues spec)))%nat /\
  exists rows rest, t = (basic_info, rows) :: rest.
Proof.
  unfold translate_spec. unfold bind at 1.
  destruct (batch_translate_values W base_items "pl" st)
    as (items_pl & st1 & -> & _ & Hitems).
  unfold bind at 1.
  destruct (batch_translate_values W (map (py_str W) (base_values spec)) "pl" st1)
    as (values_pl & st2 & -> & _ & Hvalues).
  apply Forall2_length in Hitems, Hvalues. simpl in Hitems, Hvalues.
  assert (Hbase : grouped 0 [(basic_info, zip items_pl values_pl)]).
  { split; [apply NoDup_singleton|]. split; [|eauto].
    rewrite table_rows_cons, length_zip_with. unfold pystr in *.
    rewrite <- Hitems, <- Hvalues. reflexivity. }
  destruct (paramValues spec) as [params|]; simpl default.
  - intros Hloop.
    change (7 + length params)%nat with (7 + (0 + length params))%nat.
    eapply (for_each_count grouped); [|exact Hbase|exact Hloop].
    clear. intros n acc [name value] st acc' st' Hacc.
    destruct (Str.split_once "-" name) as [|param_type [|param_name [|? ?]]];
      try discriminate.
    unfold bind.
    destruct (translate_text_default W param_name "pl" st) as [[name_pl|e] s1];
      [|discriminate].
    destruct (translate_text_default W value "pl" s1) as [[value_pl|e] s2];
      [|discriminate].
    intros [= <- _]. apply grouped_step. exact Hacc.
  - intros [= <- _]. rewrite Nat.add_0_r. exact Hbase.
Qed.

Lemma translate_spec_groups_rows_witness :
  exists t,
    fst (translate_spec Sample.answering
           (SpecData (JInt 1) "2024款 Pro" "BrandA" "S1" (JStr "MakerA") "2024"
              (JStr "12.58")
              (Some [("基本参数-长", "4000"); ("基本信息-宽", "1.8");
                     ("基本参数-高", "1.5")]))
           (init Sample.answering)) = Ok t /\
    table_rows t = 10%nat /\ length t = 2%nat.
Proof.
  destruct (translate_spec Sample.answering
              (SpecData (JInt 1) "2024款 Pro" "BrandA" "S1" (JStr "MakerA") "2024"
                 (JStr "12.58")
                 (Some [("基本参数-长", "4000"); ("基本信息-宽", "1.8");
                        ("基本参数-高", "1.5")]))
              (init Sample.answering))
    as [[t|e] st'] eqn:E; [|vm_compute in E; discriminate E].
  exists t. split; [reflexivity|].
  split.
  - apply (translate_spec_groups_rows _ _ _ _ _ E).
  - vm_compute in E. injection E as <- _. reflexivity.
Defined.

(** ** [export_all_specs]: the pages behind the index *)

Section PagesWritten.

Context (W : world).

Hypothesis writable : pages_writable W.

(** A call of [export_spec_info] for an id that has a spec writes the
    page of that id, and keeps the memo sound. *)
Lemma export_spec_info_page spec_id st :
  memo_sound W st ->
  (exists spec st1, load_spec_data W spec_id st = (Ok (Some spec), st1)) ->
  exists st',
    export_spec_info W spec_id st = (Ok tt, st') /\
    map fst (pages st') = map fst (pages st) ++ [spec_id] /\
    memo_sound W st'.
Proof.
  intros Hinv (spec & st1 & Hload).
  assert (Hsound : sound_spec W spec_id spec).
  { destruct (load_spec_data_cases W spec_id st)
      as [[E Hsome] | [E | (found & _ & Hs & E)]]; rewrite E in Hload.
    - injection Hload as Hl _. apply Hinv. exact Hl.
    - discriminate.
    - injection Hload as <- _. exact Hs. }
  assert (Hinv1 : memo_sound W st1).
  { destruct (load_spec_data_memo_sound W spec_id st) as (r & s & E & Hp).
    rewrite E in Hload. injection Hload as _ <-. apply Hp. exact Hinv. }
  assert (Hp1 : pages st1 = pages st).
  { destruct (load_spec_data_cases W spec_id st)
      as [[E _] | [E | (found & _ & _ & E)]]; rewrite E in Hload;
      injection Hload as _ <-; reflexivity. }
  destruct (writable spec_id) as [[images Himages] [[] Hwrite]].
  unfold export_spec_info. unfold bind at 1. unfold modify at 1.
  unfold bind at 1. rewrite load_spec_data_set_exports, Hload. cbn [fst snd].
  unfold bind at 1. unfold try_except at 1.
  destruct (translate_spec_safe same_exports W (translate_text_same_exports W)
              spec (proj2 (proj2 Hsound))
              (set_exports (exports st ++ [spec_id]) st1))
    as (polish_info & st2 & -> & (M2 & _ & P2 & _)).
  unfold bind at 1. unfold lift at 1. rewrite Himages.
  unfold bind at 1.
  destruct (render_tables_safe same_exports W (translate_text_same_exports W)
              polish_info st2)
    as (tables & st3 & -> & (M3 & _ & P3 & _)).
  unfold bind at 1. unfold lift at 1. rewrite Hwrite. unfold modify.
  eexists. split; [reflexivity|]. simpl.
  rewrite P3, P2. simpl. rewrite Hp1, map_app. split; [reflexivity|].
  intros id sp. simpl. rewrite M3, M2. simpl. apply Hinv1.
Qed.

Lemma export_last_paged brand_name series_name specs models b st :
  models <> [] ->
  forallb (fun m => well_formed_model (snd m)) models = true ->
  (forall model, model ∈ models -> loadable W model) ->
  memo_sound W st ->
  exists st',
    export_last W brand_name series_name specs (bind_models models b) st
      = (Ok (specs ++ last_model_summary W brand_name series_name models), st') /\
    map fst (pages st')
      = map fst (pages st)
        ++ map sum_specId (last_model_summary W brand_name series_name models) /\
    memo_sound W st'.
Proof.
  intros Hne Hwf Hload Hinv. rewrite bind_models_last. unfold last_model_summary.
  destruct (last models) as [[model_name model_data]|] eqn:Hlast.
  - assert (Hin : (model_name, model_data) ∈ models).
    { apply last_Some in Hlast as [l' ->]. apply elem_of_app. right. left. }
    assert (Hm : well_formed_model model_data = true).
    { rewrite forallb_forall in Hwf.
      apply (Hwf (model_name, model_data)). apply list_elem_of_In. exact Hin. }
    pose proof (Hload _ Hin st) as Hl.
    destruct model_data; try discriminate. simpl in *.
    destruct (String.eqb _ "").
    + exists st. rewrite !app_nil_r.
      split; [reflexivity|]. split; [reflexivity | exact Hinv].
    + unfold bind.
      destruct (export_spec_info_page _ st Hinv Hl) as (st' & -> & HP & HI).
      exists st'. split; [reflexivity|]. split; assumption.
  - apply last_None in Hlast. contradiction.
Qed.

Lemma export_series_paged brand_name series :
  forallb (fun s => well_formed_series (snd s)) series = true ->
  (forall s model, s ∈ series -> model ∈ series_models (snd s) -> loadable W model) ->
  forall specs b st,
    memo_sound W st ->
    exists b' st',
      export_series W brand_name series (specs, b) st
        = (Ok (specs ++ series_summaries W brand_name series, b'), st') /\
      map fst (pages st')
        = map fst (pages st) ++ map sum_specId (series_summaries W brand_name series) /\
      memo_sound W st'.
Proof.
  induction series as [|[series_name series_data] series IH];
    intros Hwf Hload specs b st Hinv.
  - exists b, st. simpl. rewrite !app_nil_r.
    split; [reflexivity|]. split; [reflexivity | exact Hinv].
  - simpl in Hwf. apply andb_prop in Hwf as [Hs Hrest].
    apply well_formed_series_inv in Hs as (d & models & -> & Hlk & Hne & Hms).
    assert (Hmodels : forall model, model ∈ models -> loadable W model).
    { intros model Hin. apply (Hload (series_name, JObj d)); [left|].
      simpl. rewrite Hlk. exact Hin. }
    rewrite (export_series_step W brand_name series_name d models series specs b st Hlk).
    destruct (export_last_paged brand_name series_name specs models b st
                Hne Hms Hmodels Hinv)
      as (st1 & -> & HP1 & Hinv1).
    destruct (IH Hrest (fun s m Hs Hm => Hload s m ltac:(right; exact Hs) Hm)
                (specs ++ last_model_summary W brand_name series_name models)
                (bind_models models b) st1 Hinv1)
      as (b' & st' & -> & HP & Hinv').
    exists b', st'. unfold series_summaries in *. simpl flat_map.
    cbn [fst snd series_models]. rewrite Hlk.
    rewrite map_app, !app_assoc, HP, HP1.
    split; [reflexivity|]. split; [reflexivity | exact Hinv'].
Qed.

Lemma export_brands_paged brands :
  well_formed_catalog brands = true ->
  (forall b s model,
      b ∈ brands -> s ∈ brand_series (snd b) -> model ∈ series_models (snd s) ->
      loadable W model) ->
  forall specs b st,
    memo_sound W st ->
    exists b' st',
      export_brands W brands (specs, b) st
        = (Ok (specs ++ last_model_summaries W brands, b'), st') /\
      map fst (pages st')
        = map fst (pages st) ++ map sum_specId (last_model_summaries W brands) /\
      memo_sound W st'.
Proof.
  induction brands as [|[brand_name brand_data] brands IH];
    intros Hwf Hload specs b st Hinv.
  - exists b, st. simpl. rewrite !app_nil_r.
    split; [reflexivity|]. split; [reflexivity | exact Hinv].
  - simpl in Hwf. apply andb_prop in Hwf as [Hb Hrest].
    apply well_formed_brand_inv in Hb as (d & series & -> & Hlk & Hss).
    assert (Hseries : forall s model,
      s ∈ series -> model ∈ series_models (snd s) -> loadable W model).
    { intros s model Hs Hm. apply (Hload (brand_name, JObj d) s); [left| |exact Hm].
      simpl. rewrite Hlk. exact Hs. }
    rewrite (export_brands_step W brand_name d series brands (specs, b) st Hlk).
    destruct (export_series_paged brand_name series Hss Hseries specs b st Hinv)
      as (b1 & st1 & -> & HP1 & Hinv1).
    destruct (IH Hrest (fun b0 s m Hb0 => Hload b0 s m ltac:(right; exact Hb0))
                (specs ++ series_summaries W brand_name series) b1 st1 Hinv1)
      as (b' & st' & -> & HP & Hinv').
    exists b', st'. unfold last_model_summaries in *. simpl flat_map.
    cbn [fst snd brand_series]. rewrite Hlk.
    rewrite map_app, !app_assoc, HP, HP1.
    split; [reflexivity|]. split; [reflexivity | exact Hinv'].
Qed.

End PagesWritten.

Lemma loadable_model (W : world) (brands : list (string * json))
    (brand series model : string * json) :
  catalog_file W = Ok (JObj brands) ->
  well_formed_catalog brands = true ->
  brand ∈ brands -> series ∈ brand_series (snd brand) ->
  model ∈ series_models (snd series) ->
  loadable W model.
Proof.
  intros Hfile Hwf Hb Hs Hm st.
  destruct (spec_data_cache st !! model_spec_id W (snd model)) as [memo|] eqn:Hmemo.
  - exists memo, st. apply load_spec_data_hit. exact Hmemo.
  - destruct (scan_brands_finds W brands brand series model Hwf Hb Hs Hm)
      as (spec & Hscan & _).
    exists spec. eexists.
    rewrite load_spec_data_miss, Hfile, Hscan by exact Hmemo. reflexivity.
Qed.

(** X23: no entry of the index is left without its page.  After
    [__init__] and any operations, on a catalog of the documented shape
    with the image directories, the pages and the index writable,
    [export_all_specs] writes one page for each entry of the index page
    it writes, for the same ids in the same order -- whether the
    translation service answers or not. *)
Theorem export_all_specs_writes_every_page (W : world) (ops : list operation)
    (brands : list (string * json)) :
  let st := perform_all W ops (init W) in
  catalog_file W = Ok (JObj brands) ->
  well_formed_catalog brands = true ->
  pages_writable W ->
  is_Ok (write_index W) ->
  exists st',
    export_all_specs W st = (Ok tt, st') /\
    indexes st' = indexes st ++ [last_model_summaries W brands] /\
    map fst (pages st')
      = map fst (pages st) ++ map sum_specId (last_model_summaries W brands).
Proof.
  intros st Hfile Hwf Hpages [[] Hindex].
  assert (Hinv : memo_sound W st).
  { apply (perform_all_kept W (preserves (memo_sound W))).
    - intros s s' _ _ Hsame H id sp. rewrite Hsame. apply H.
    - apply translate_text_memo_sound.
    - apply load_spec_data_memo_sound.
    - intros s H id sp. simpl. rewrite _save_cache_eq.
      destruct (write_cache_file_frame W s) as (_ & Hmemo' & _).
      cbn [snd]. rewrite Hmemo'. apply H.
    - intros id sp Hin. simpl in Hin. rewrite lookup_empty in Hin. discriminate. }
  pose proof (export_brands_same_indexes W brands ([], None) st) as Hidx.
  pose proof (export_brands_paged W Hpages brands Hwf
                (fun b s m Hb Hs Hm => loadable_model W brands b s m Hfile Hwf Hb Hs Hm)
                [] None st Hinv) as Hloop.
  unfold export_all_specs, export_all_specs_body, export_index_html.
  unfold try_except, bind, lift, modify, ret. rewrite Hfile, Hindex. cbn [items].
  unfold binding in *. destruct Hloop as (b' & st1 & E & HP & _).
  rewrite E in *. simpl in Hidx. simpl.
  eexists. split; [reflexivity|]. simpl. rewrite Hidx, HP. split; reflexivity.
Qed.

Lemma export_all_specs_writes_every_page_witness :
  exists st',
    export_all_specs Sample.failing (init Sample.failing) = (Ok tt, st') /\
    map fst (pages st') = ["2"; "3"].
Proof.
  destruct (export_all_specs_writes_every_page Sample.failing [] Sample.brands)
    as (st' & E & _ & HP);
    [reflexivity | reflexivity | intros spec_id; split; eexists; reflexivity
    | eexists; reflexivity |].
  exists st'. split; [exact E | exact HP].
Defined.

(** X24: an entry of the index can be left without a page.  For a catalog
    of one model whose ['config_data'] is not a mapping of mappings, with
    a non-empty id that is not memoized and a writable index,
    [export_all_specs] lists the model in the index page, although
    [load_spec_data] finds no spec for it and [export_spec_info] has
    written no page and asked for no translation. *)
Theorem export_all_specs_lists_spec_without_page (W : world) (st : state)
    (brand_name series_name model_name : string)
    (bd sd md : list (string * json)) (config_data : json) :
  let spec_id := py_str W (Dict.get "spec_id" JNull md) in
  catalog_file W = Ok (JObj [(brand_name, JObj bd)]) ->
  Dict.lookup "series" bd = Some (JObj [(series_name, JObj sd)]) ->
  Dict.lookup "models" sd = Some (JObj [(model_name, JObj md)]) ->
  Dict.lookup "config_data" md = Some config_data ->
  (forall categories,
      config_data = JObj categories -> all_mappings categories = false) ->
  spec_id <> "" ->
  spec_data_cache st !! spec_id = None ->
  is_Ok (write_index W) ->
  exists st',
    export_all_specs W st = (Ok tt, st') /\
    indexes st' = indexes st ++ [[Summary spec_id model_name brand_name series_name]] /\
    load_spec_data W spec_id st = (Ok None, st) /\
    pages st' = pages st /\
    calls st' = calls st.
Proof.
  intros spec_id Hfile Hseries Hmodels Hconfig Hbad Hid Hmiss [[] Hindex].
  assert (Hflat : exists e, flatten_config W config_data = Raise e).
  { destruct config_data as [| | | | | |categories]; try (eexists; reflexivity).
    unfold flatten_config. cbn [items].
    rewrite flatten_categories, (Hbad categories eq_refl). eexists. reflexivity. }
  destruct Hflat as [e Hflat].
  assert (Hload : load_spec_data W spec_id st = (Ok None, st)).
  { rewrite load_spec_data_miss, Hfile by exact Hmiss.
    unfold scan_brands. cbn [for_return]. rewrite Hseries. cbn [items].
    unfold scan_series. cbn [for_return]. rewrite Hmodels. cbn [items].
    unfold scan_models. cbn [for_return]. fold spec_id.
    rewrite String.eqb_refl. unfold make_spec_data. rewrite Hconfig, Hflat.
    reflexivity. }
  assert (Hexport : export_spec_info W spec_id st
                    = (Ok tt, set_exports (exports st ++ [spec_id]) st)).
  { unfold export_spec_info. unfold bind at 1. unfold modify at 1.
    unfold bind at 1. rewrite load_spec_data_set_exports, Hload. reflexivity. }
  pose proof (export_brands_step W brand_name bd [(series_name, JObj sd)] []
                ([], None) st Hseries) as Hstep.
  pose proof (export_series_step W brand_name series_name sd
                [(model_name, JObj md)] [] [] None st Hmodels) as Hturn.
  change (bind_models [(model_name, JObj md)] None)
    with (Some (model_name, JObj md)) in Hturn.
  assert (Hlast : export_last W brand_name series_name []
                    (Some (model_name, JObj md)) st
                  = (Ok [Summary spec_id model_name brand_name series_name],
                     set_exports (exports st ++ [spec_id]) st)).
  { unfold export_last. fold spec_id.
    destruct (String.eqb_spec spec_id "") as [|_]; [contradiction|].
    unfold bind. rewrite Hexport. reflexivity. }
  rewrite Hlast in Hturn.
  change (export_series W brand_name [] ?a ?s) with (@Ok _ a, s) in Hturn.
  unfold binding in *. rewrite Hturn in Hstep.
  change (export_brands W [] ?a ?s) with (@Ok _ a, s) in Hstep.
  unfold export_all_specs, export_all_specs_body, export_index_html.
  unfold try_except, bind, lift, modify, ret. rewrite Hfile, Hindex. cbn [items].
  rewrite Hstep. simpl.
  eexists. split; [reflexivity|]. simpl. repeat split. exact Hload.
Qed.

Lemma export_all_specs_lists_spec_without_page_witness :
  exists st',
    export_all_specs (Scenario.around Malformed.catalog) Sample.warm = (Ok tt, st') /\
    indexes st' = [[Summary "7" "Pro" "BrandA" "S1"]] /\
    pages st' = [].
Proof.
  destruct (export_all_specs_lists_spec_without_page
              (Scenario.around Malformed.catalog) Sample.warm "BrandA" "S1" "Pro"
              [("series",
                JObj [("S1",
                       JObj [("models",
                              JObj [("Pro",
                                     JObj [("spec_id", JInt 7);
                                           ("config_data", JArr [])])])])])]
              [("models",
                JObj [("Pro", JObj [("spec_id", JInt 7); ("config_data", JArr [])])])]
              [("spec_id", JInt 7); ("config_data", JArr [])]
              (JArr []))
    as (st' & E & HI & _ & HP & _);
    [reflexivity | reflexivity | reflexivity | reflexivity
    | intros categories; discriminate | discriminate | reflexivity
    | eexists; reflexivity |].
  exists st'. split; [exact E|]. split; [exact HI | exact HP].
Defined.
